(** * Vacuum-cleaner simulation: battery, grid, weighted A* and the agent step

    A shallow embedding of [agent/battery.py], [environment/grid.py],
    [utils/metrics.py] and [agent/vacuum.py].

    Python integers are [Z]; the weight [epsilon] and the priorities derived
    from it are rationals ([Q]); a Python [set] is a [gset]; the dictionary
    [strategies_tested] is a [gmap] keyed by strategy name; a list indexed
    with [l[i]] is a [list] read through [getitem], which follows Python
    (negative indices count from the end, anything else out of range raises
    [IndexError]).  Methods that mutate [self] take the object and return the
    updated one inside [result]. *)

From Stdlib Require Import ZArith QArith Lia Sorted.
From stdpp Require Import base gmap strings list.

Local Open Scope Z_scope.

(** ** Outcomes of a call *)

Inductive exn : Type := IndexError.

(** [NoFuel] is the outcome of a loop cut short by its iteration budget; it
    is not a Python outcome, and [a_star_total] below shows that the budget
    given to the search loop is never exhausted. *)
Inductive result (A : Type) : Type :=
| Ok (a : A)
| Raise (e : exn)
| NoFuel.
Arguments Ok {A} a.
Arguments Raise {A} e.
Arguments NoFuel {A}.

(** Sequencing: the first call that does not return ends the computation.
    The instances give [x ← m; k] its meaning on [result]. *)
#[global] Instance result_ret : MRet result := fun A a => Ok a.

#[global] Instance result_bind : MBind result := fun A B k m =>
  match m with
  | Ok a => k a
  | Raise e => Raise e
  | NoFuel => NoFuel
  end.

(** ** Python sequence indexing *)

Definition py_index {A} (l : list A) (i : Z) : result nat :=
  let n := Z.of_nat (length l) in
  if (0 <=? i) && (i <? n) then Ok (Z.to_nat i)
  else if (- n <=? i) && (i <? 0) then Ok (Z.to_nat (i + n))
  else Raise IndexError.

Definition getitem {A} (l : list A) (i : Z) : result A :=
  k ← py_index l i;
  match l !! k with
  | Some v => Ok v
  | None => Raise IndexError
  end.

Definition setitem {A} (l : list A) (i : Z) (v : A) : result (list A) :=
  k ← py_index l i;
  Ok (<[k := v]> l).

(** [range(a, b)] *)
Definition range (a b : Z) : list Z := seqZ a (b - a).

(** ** battery.py *)

Module Battery.

Record t : Type := mk {
  capacity : Z;
  current : Z;
  drain_rate : Z;
  charge_rate : Z;
  total_consumed : Z;
  charge_cycles : Z
}.

(** [Battery.__init__]; the defaults are [init 100 1 5]. *)
Definition init (capacity drain_rate charge_rate : Z) : result t :=
  Ok {| capacity := capacity;
        current := capacity;
        drain_rate := drain_rate;
        charge_rate := charge_rate;
        total_consumed := 0;
        charge_cycles := 0 |}.

Definition default : t := mk 100 100 1 5 0 0.

(** [consume(amount=None)]: the updated battery and the returned flag. *)
Definition consume (b : t) (amount : option Z) : t * bool :=
  let amount := match amount with
                | None => drain_rate b
                | Some a => a
                end in
  let cur := Z.max 0 (current b - amount) in
  (mk (capacity b) cur (drain_rate b) (charge_rate b)
      (total_consumed b + amount) (charge_cycles b),
   0 <? cur).

Definition charge (b : t) : t :=
  let old_level := current b in
  let cur := Z.min (capacity b) (current b + charge_rate b) in
  let cycles :=
    if (old_level <? capacity b) && (cur =? capacity b)
    then charge_cycles b + 1
    else charge_cycles b in
  mk (capacity b) cur (drain_rate b) (charge_rate b) (total_consumed b) cycles.

Definition needs_charging (b : t) (threshold : Z) : bool :=
  current b <=? threshold.

Definition is_empty (b : t) : bool := current b <=? 0.

End Battery.

(** A call made on a battery by its owner. *)
Inductive call : Type :=
| Consume (amount : option Z)
| Charge.

Definition do_call (b : Battery.t) (c : call) : Battery.t :=
  match c with
  | Consume a => fst (Battery.consume b a)
  | Charge => Battery.charge b
  end.

(** The battery after each call of a sequence, in order. *)
Fixpoint trace (b : Battery.t) (cs : list call) : list Battery.t :=
  match cs with
  | [] => []
  | c :: cs' => let b' := do_call b c in b' :: trace b' cs'
  end.

(** The amount a call moves: what is drained, or what the charger adds. *)
Definition call_amount (b : Battery.t) (c : call) : Z :=
  match c with
  | Consume (Some a) => a
  | Consume None => Battery.drain_rate b
  | Charge => Battery.charge_rate b
  end.

Definition battery_inv (b : Battery.t) : Prop :=
  0 <= Battery.current b <= Battery.capacity b.

(** [n] calls of [consume(a)]. *)
Fixpoint consume_n (n : nat) (a : Z) (b : Battery.t) : Battery.t :=
  match n with
  | O => b
  | S n' => consume_n n' a (fst (Battery.consume b (Some a)))
  end.

Fixpoint charge_n (n : nat) (b : Battery.t) : Battery.t :=
  match n with
  | O => b
  | S n' => charge_n n' (Battery.charge b)
  end.

(** ** grid.py *)

Definition cell : Type := (Z * Z)%type.

(** Cell values: 0 clean, 1 dirty, -1 obstacle, 2 charging station. *)
Definition CLEAN : Z := 0.
Definition DIRTY : Z := 1.
Definition OBSTACLE : Z := -1.
Definition CHARGER : Z := 2.

Record Environment : Type := mkEnv {
  env_size : Z;
  env_grid : list (list Z)
}.

(** [grid[y][x]] *)
Definition grid_get (g : list (list Z)) (x y : Z) : result Z :=
  row ← getitem g y;
  getitem row x.

(** [grid[y][x] = v] *)
Definition grid_set (g : list (list Z)) (x y : Z) (v : Z) : result (list (list Z)) :=
  row ← getitem g y;
  row' ← setitem row x v;
  setitem g y row'.

(** [Environment.__init__].  [dirt r c] tells whether the draw of
    [random.random()] made for row [r], column [c] fell at or below
    [dirt_prob], that is whether the cell starts dirty. *)
Definition Environment_init (size : Z) (dirt : Z -> Z -> bool) : result Environment :=
  let g0 := map (fun r => map (fun c => if dirt r c then DIRTY else CLEAN)
                              (range 0 size))
                (range 0 size) in
  g1 ← grid_set g0 0 0 CLEAN;
  g2 ← grid_set g1 (size - 1) (size - 1) CHARGER;
  g3 ← grid_set g2 2 2 OBSTACLE;
  Ok (mkEnv size g3).

(** Keep the elements for which a fallible test returns true. *)
Fixpoint filterM {A} (p : A -> result bool) (l : list A) : result (list A) :=
  match l with
  | [] => Ok []
  | a :: l' =>
      b ← p a;
      r ← filterM p l';
      Ok (if b : bool then a :: r else r)
  end.

Definition get_dirty_cells (env : Environment) : result (list cell) :=
  filterM (fun c : cell => v ← grid_get (env_grid env) c.1 c.2; Ok (v =? DIRTY))
          (y ← range 0 (env_size env); x ← range 0 (env_size env); [(x, y)]).

(** The grid has [env_size] rows of [env_size] cells. *)
Definition wf_env (env : Environment) : Prop :=
  0 <= env_size env /\
  Z.of_nat (length (env_grid env)) = env_size env /\
  Forall (fun row => Z.of_nat (length row) = env_size env) (env_grid env).

Definition in_bounds (env : Environment) (c : cell) : Prop :=
  0 <= c.1 < env_size env /\ 0 <= c.2 < env_size env.

(** How many cells of the grid hold [v]. *)
Definition count_cells (v : Z) (g : list (list Z)) : nat :=
  length (filter (fun w => w = v) (concat g)).

(** ** metrics.py *)

Record decision : Type := mkDecision {
  d_step : Z;
  d_position : cell;
  d_action : string;
  d_battery : Z;
  d_strategy : string
}.

Record strategy_stats : Type := mkStats {
  st_steps : Z;
  st_dirt_cleaned : Z;
  st_efficiency : Z
}.

(** [PerformanceMetrics], without the wall-clock [start_time] and the
    [path_efficiency] list that no method writes. *)
Record PerformanceMetrics : Type := mkMetrics {
  steps_taken : Z;
  dirt_cleaned : Z;
  cells_visited : gset cell;
  battery_usage : list Z;
  decisions_made : list decision;
  strategies_tested : gmap string strategy_stats
}.

Definition PerformanceMetrics_init : PerformanceMetrics :=
  mkMetrics 0 0 ∅ [] []
    (<["random" := mkStats 0 0 0]>
       (<["astar" := mkStats 0 0 0]>
          (<["optimized" := mkStats 0 0 0]> ∅))).

Definition record_step (m : PerformanceMetrics) (position : cell)
    (battery_level : Z) (action strategy : string) : PerformanceMetrics :=
  let n := steps_taken m + 1 in
  mkMetrics n (dirt_cleaned m) ({[position]} ∪ cells_visited m)
    (battery_usage m ++ [battery_level])
    (decisions_made m ++ [mkDecision n position action battery_level strategy])
    (strategies_tested m).

Definition record_cleaning (m : PerformanceMetrics) (strategy : string)
    : PerformanceMetrics :=
  mkMetrics (steps_taken m) (dirt_cleaned m + 1) (cells_visited m)
    (battery_usage m) (decisions_made m)
    (alter (fun st => mkStats (st_steps st) (st_dirt_cleaned st + 1) (st_efficiency st))
           strategy (strategies_tested m)).

(** ** vacuum.py: the search *)

(** An entry of the open set: the tuple [(f, g, cell, path)]. *)
Record entry : Type := mkEntry {
  e_f : Q;
  e_g : Z;
  e_cell : cell;
  e_path : list cell
}.

(** Python's order on the tuples: component by component, the first
    difference decides; lists compare element by element and a proper
    prefix is smaller. *)
Definition cell_compare (a b : cell) : comparison :=
  match a.1 ?= b.1 with
  | Eq => a.2 ?= b.2
  | c => c
  end.

Fixpoint path_compare (p q : list cell) : comparison :=
  match p, q with
  | [], [] => Eq
  | [], _ :: _ => Lt
  | _ :: _, [] => Gt
  | a :: p', b :: q' =>
      match cell_compare a b with
      | Eq => path_compare p' q'
      | c => c
      end
  end.

Definition entry_compare (a b : entry) : comparison :=
  match Qcompare (e_f a) (e_f b) with
  | Eq =>
      match e_g a ?= e_g b with
      | Eq =>
          match cell_compare (e_cell a) (e_cell b) with
          | Eq => path_compare (e_path a) (e_path b)
          | c => c
          end
      | c => c
      end
  | c => c
  end.

Definition entry_ltb (a b : entry) : bool :=
  match entry_compare a b with
  | Lt => true
  | _ => false
  end.

(** The open set is a [heapq] min-heap.  [heappop] returns a least tuple of
    the heap, and two tuples that tie under the order above have equal
    components, so the values popped are those of a queue kept sorted:
    the open set is held as the sorted list of its entries. *)
Fixpoint heappush (h : list entry) (e : entry) : list entry :=
  match h with
  | [] => [e]
  | e' :: h' => if entry_ltb e e' then e :: h else e' :: heappush h' e
  end.

Definition heappop (h : list entry) : option (entry * list entry) :=
  match h with
  | [] => None
  | e :: h' => Some (e, h')
  end.

Definition heuristic (a b : cell) : Z :=
  Z.abs (a.1 - b.1) + Z.abs (a.2 - b.2).

Definition directions : list cell := [(0, 1); (0, -1); (1, 0); (-1, 0)].

(** The [for dx, dy in ...] loop of [a_star] over the remaining directions
    [ds], pushing onto [open_set]. *)
Fixpoint push_neighbors (env : Environment) (epsilon : Q) (goal : cell)
    (visited : gset cell) (g : Z) (current : cell) (path : list cell)
    (ds : list cell) (open_set : list entry) : result (list entry) :=
  match ds with
  | [] => Ok open_set
  | d :: ds' =>
      let nx := current.1 + d.1 in
      let ny := current.2 + d.2 in
      if (0 <=? nx) && (nx <? env_size env) && (0 <=? ny) && (ny <? env_size env)
      then
        v ← grid_get (env_grid env) nx ny;
        if negb (v =? OBSTACLE)
        then
          let neighbor := (nx, ny) in
          if bool_decide (neighbor ∉ visited)
          then
            let g_new := g + 1 in
            let f_new := (inject_Z g_new + epsilon * inject_Z (heuristic neighbor goal))%Q in
            push_neighbors env epsilon goal visited g current path ds'
              (heappush open_set (mkEntry f_new g_new neighbor (path ++ [neighbor])))
          else push_neighbors env epsilon goal visited g current path ds' open_set
        else push_neighbors env epsilon goal visited g current path ds' open_set
      else push_neighbors env epsilon goal visited g current path ds' open_set
  end.

(** The [while open_set] loop, run for at most [fuel] iterations. *)
Fixpoint a_star_loop (fuel : nat) (env : Environment) (epsilon : Q) (goal : cell)
    (open_set : list entry) (visited : gset cell) : result (list cell) :=
  match fuel with
  | O => NoFuel
  | S fuel' =>
      match heappop open_set with
      | None => Ok []
      | Some (e, open_set') =>
          if decide (e_cell e = goal) then Ok (drop 1 (e_path e))
          else if decide (e_cell e ∈ visited)
          then a_star_loop fuel' env epsilon goal open_set' visited
          else
            let visited' := {[e_cell e]} ∪ visited in
            open_set'' ← push_neighbors env epsilon goal visited' (e_g e)
                           (e_cell e) (e_path e) directions open_set';
            a_star_loop fuel' env epsilon goal open_set'' visited'
      end
  end.

(** Iterations granted to the loop: every iteration pops an entry, and
    entries are pushed only when a cell is expanded, four at most, each
    cell once. *)
Definition a_star_fuel (env : Environment) : nat :=
  4 * (Z.to_nat (env_size env) * Z.to_nat (env_size env) + 1) + 2.

Definition a_star (env : Environment) (epsilon : Q) (start goal : cell)
    : result (list cell) :=
  a_star_loop (a_star_fuel env) env epsilon goal
    (heappush [] (mkEntry (inject_Z (0 + heuristic start goal)) 0 start [start]))
    ∅.

(** ** vacuum.py: the agent *)

Record VaccumCleaner : Type := mkVac {
  self_env : Environment;
  self_x : Z;
  self_y : Z;
  cleaned : Z;
  epsilon : Q;
  battery : Battery.t;
  visited : gset cell;
  path : list cell;
  strategy : string;
  metrics : PerformanceMetrics;
  charger_pos : cell
}.

(** [max(1.0, epsilon)]: the first argument is kept unless the second is
    strictly larger. *)
Definition clamp_epsilon (eps : Q) : Q :=
  if Qlt_le_dec 1 eps then eps else 1%Q.

Definition VaccumCleaner_init (env : Environment) (strategy : string) (eps : Q)
    : result VaccumCleaner :=
  b ← Battery.init 100 1 5;
  Ok {| self_env := env;
        self_x := 0;
        self_y := 0;
        cleaned := 0;
        epsilon := clamp_epsilon eps;
        battery := b;
        visited := ∅;
        path := [];
        strategy := strategy;
        metrics := PerformanceMetrics_init;
        charger_pos := (env_size env - 1, env_size env - 1) |}.

Definition set_env (s : VaccumCleaner) (env : Environment) : VaccumCleaner :=
  mkVac env (self_x s) (self_y s) (cleaned s) (epsilon s) (battery s)
        (visited s) (path s) (strategy s) (metrics s) (charger_pos s).

Definition set_pos (s : VaccumCleaner) (c : cell) : VaccumCleaner :=
  mkVac (self_env s) c.1 c.2 (cleaned s) (epsilon s) (battery s)
        (visited s) (path s) (strategy s) (metrics s) (charger_pos s).

Definition set_cleaned (s : VaccumCleaner) (n : Z) : VaccumCleaner :=
  mkVac (self_env s) (self_x s) (self_y s) n (epsilon s) (battery s)
        (visited s) (path s) (strategy s) (metrics s) (charger_pos s).

Definition set_battery (s : VaccumCleaner) (b : Battery.t) : VaccumCleaner :=
  mkVac (self_env s) (self_x s) (self_y s) (cleaned s) (epsilon s) b
        (visited s) (path s) (strategy s) (metrics s) (charger_pos s).

Definition set_visited (s : VaccumCleaner) (v : gset cell) : VaccumCleaner :=
  mkVac (self_env s) (self_x s) (self_y s) (cleaned s) (epsilon s) (battery s)
        v (path s) (strategy s) (metrics s) (charger_pos s).

Definition set_path (s : VaccumCleaner) (p : list cell) : VaccumCleaner :=
  mkVac (self_env s) (self_x s) (self_y s) (cleaned s) (epsilon s) (battery s)
        (visited s) p (strategy s) (metrics s) (charger_pos s).

Definition set_metrics (s : VaccumCleaner) (m : PerformanceMetrics) : VaccumCleaner :=
  mkVac (self_env s) (self_x s) (self_y s) (cleaned s) (epsilon s) (battery s)
        (visited s) (path s) (strategy s) m (charger_pos s).

Definition position (s : VaccumCleaner) : cell := (self_x s, self_y s).

Definition clean (s : VaccumCleaner) : result VaccumCleaner :=
  v ← grid_get (env_grid (self_env s)) (self_x s) (self_y s);
  s1 ← (if v =? DIRTY then
          g ← grid_set (env_grid (self_env s)) (self_x s) (self_y s) CLEAN;
          let s' := set_env s (mkEnv (env_size (self_env s)) g) in
          let s' := set_cleaned s' (cleaned s' + 1) in
          Ok (set_metrics s' (record_cleaning (metrics s') (strategy s')))
        else Ok s);
  Ok (set_visited s1 ({[position s1]} ∪ visited s1)).

(** [self.battery.consume()], the returned flag dropped as in the source. *)
Definition consume_move (s : VaccumCleaner) : VaccumCleaner :=
  set_battery s (fst (Battery.consume (battery s) None)).

(** [next_cell = self.path.pop(0); self.x, self.y = next_cell;
    self.battery.consume()], when the path is not empty. *)
Definition follow_path (s : VaccumCleaner) : VaccumCleaner :=
  match path s with
  | [] => s
  | next_cell :: rest => consume_move (set_pos (set_path s rest) next_cell)
  end.

(** [d] is the pair drawn by [random.choice(directions)]. *)
Definition _random_step (d : cell) (s : VaccumCleaner) : result VaccumCleaner :=
  let new_x := self_x s + d.1 in
  let new_y := self_y s + d.2 in
  let size := env_size (self_env s) in
  if (0 <=? new_x) && (new_x <? size) && (0 <=? new_y) && (new_y <? size)
  then
    v ← grid_get (env_grid (self_env s)) new_x new_y;
    if negb (v =? OBSTACLE)
    then Ok (consume_move (set_pos s (new_x, new_y)))
    else Ok s
  else Ok s.

(** [min(cells, key=...)] on a list with head [best]: the first cell of
    least key. *)
Fixpoint min_by (key : cell -> Z) (best : cell) (l : list cell) : cell :=
  match l with
  | [] => best
  | c :: l' => if key c <? key best then min_by key c l' else min_by key best l'
  end.

Definition distance_from (s : VaccumCleaner) (c : cell) : Z :=
  Z.abs (c.1 - self_x s) + Z.abs (c.2 - self_y s).

(** [get_nearest_dirty] on the non-empty list [c :: l]. *)
Definition get_nearest_dirty (s : VaccumCleaner) (c : cell) (l : list cell) : cell :=
  min_by (distance_from s) c l.

Definition _astar_step (s : VaccumCleaner) : result VaccumCleaner :=
  s1 ← match path s with
       | [] =>
           dirty_cells ← get_dirty_cells (self_env s);
           match dirty_cells with
           | [] => Ok s
           | c :: l =>
               let nearest := get_nearest_dirty s c l in
               p ← a_star (self_env s) (epsilon s) (position s) nearest;
               Ok (set_path s p)
           end
       | _ :: _ => Ok s
       end;
  Ok (follow_path s1).

(** [sorted(l, key=...)]: stable, by insertion. *)
Fixpoint insert_by (key : cell -> Z) (c : cell) (l : list cell) : list cell :=
  match l with
  | [] => [c]
  | c' :: l' => if key c <=? key c' then c :: l else c' :: insert_by key c l'
  end.

Definition sorted_by (key : cell -> Z) (l : list cell) : list cell :=
  foldr (insert_by key) [] l.

Definition _get_nearby_dirt (s : VaccumCleaner) (radius : Z) : result (list cell) :=
  let size := env_size (self_env s) in
  nearby ← filterM
    (fun c : cell =>
       if (0 <=? c.1) && (c.1 <? size) && (0 <=? c.2) && (c.2 <? size)
       then v ← grid_get (env_grid (self_env s)) c.1 c.2; Ok (v =? DIRTY)
       else Ok false)
    (dx ← range (- radius) (radius + 1);
     dy ← range (- radius) (radius + 1);
     [(self_x s + dx, self_y s + dy)]);
  Ok (sorted_by (distance_from s) nearby).

(** [not self.path or self.path[-1] != target] *)
Definition path_misses (p : list cell) (target : cell) : bool :=
  match last p with
  | None => true
  | Some c => bool_decide (c ≠ target)
  end.

Definition _optimized_step (s : VaccumCleaner) : result VaccumCleaner :=
  if Battery.current (battery s) <? 30 then
    nearby_dirt ← _get_nearby_dirt s 2;
    match nearby_dirt with
    | [] => Ok s
    | target :: _ =>
        if path_misses (path s) target
        then p ← a_star (self_env s) (epsilon s) (position s) target;
             Ok (set_path s p)
        else Ok s
    end
  else _astar_step s.

Definition _handle_low_battery (s : VaccumCleaner) : result VaccumCleaner :=
  if decide (position s = charger_pos s) then
    let s1 := set_battery s (Battery.charge (battery s)) in
    Ok (set_metrics s1
          (record_step (metrics s1) (position s1) (Battery.current (battery s1))
                       "charging" (strategy s1)))
  else
    s1 ← (if path_misses (path s) (charger_pos s)
          then p ← a_star (self_env s) (epsilon s) (position s) (charger_pos s);
               Ok (set_path s p)
          else Ok s);
    Ok (follow_path s1).

(** The low-battery test at the head of [step]. *)
Definition low_battery_override (s : VaccumCleaner) : bool :=
  Battery.needs_charging (battery s) 20 && negb (String.eqb (strategy s) "random").

(** The strategy dispatch of [step]; a strategy name that is none of the
    three moves nothing. *)
Definition execute_strategy (d : cell) (s : VaccumCleaner) : result VaccumCleaner :=
  if String.eqb (strategy s) "random" then _random_step d s
  else if String.eqb (strategy s) "astar" then _astar_step s
  else if String.eqb (strategy s) "optimized" then _optimized_step s
  else Ok s.

Definition step (d : cell) (s : VaccumCleaner) : result VaccumCleaner :=
  if low_battery_override s then _handle_low_battery s
  else
    s1 ← execute_strategy d s;
    let s2 := set_metrics s1
                (record_step (metrics s1) (position s1)
                             (Battery.current (battery s1)) "move" (strategy s1)) in
    clean s2.

(** ** Vocabulary of the statements *)

(** A cell the search may enter: inside the grid and not an obstacle. *)
Definition passable (env : Environment) (c : cell) : Prop :=
  in_bounds env c /\
  exists v, grid_get (env_grid env) c.1 c.2 = Ok v /\ v <> OBSTACLE.

(** One move: [c'] is a passable cell one step up, down, right or left
    of [c]. *)
Definition edge (env : Environment) (c c' : cell) : Prop :=
  (exists d, d ∈ directions /\ c' = (c.1 + d.1, c.2 + d.2)) /\ passable env c'.

Definition reachable (env : Environment) : cell -> cell -> Prop := rtc (edge env).

(** All cells of the grid, row by row. *)
Definition grid_cells (env : Environment) : list cell :=
  y ← range 0 (env_size env); x ← range 0 (env_size env); [(x, y)].

(** What the agent's step relies on: a square grid, the agent on it, and a
    pending path that stays on it. *)
Definition agent_inv (s : VaccumCleaner) : Prop :=
  wf_env (self_env s) /\
  in_bounds (self_env s) (position s) /\
  Forall (in_bounds (self_env s)) (path s).

(** [p] is a sequence of moves that starts next to [c]. *)
Fixpoint is_walk (env : Environment) (c : cell) (p : list cell) : Prop :=
  match p with
  | [] => True
  | c' :: p' => edge env c c' /\ is_walk env c' p'
  end.

(** The cells a search from [start] can ever hold. *)
Definition universe (env : Environment) (start : cell) : gset cell :=
  {[start]} ∪ list_to_set (grid_cells env).

(** No cell of the grid is an obstacle. *)
Definition obstacle_free (env : Environment) : Prop :=
  Forall (Forall (fun v => v <> OBSTACLE)) (env_grid env).

(** Two grids of one size with obstacles in the same places. *)
Definition same_obstacles (env1 env2 : Environment) : Prop :=
  env_size env1 = env_size env2 /\
  forall x y, 0 <= x < env_size env1 -> 0 <= y < env_size env1 ->
    exists v1 v2,
      grid_get (env_grid env1) x y = Ok v1 /\
      grid_get (env_grid env2) x y = Ok v2 /\
      (v1 =? OBSTACLE) = (v2 =? OBSTACLE).

(** The 5 by 5 grid of clean cells. *)
Definition clean_grid_5 : Environment := mkEnv 5 (replicate 5 (replicate 5 CLEAN)).

(** A 5 by 5 grid whose corner (4,4) is walled in by the obstacles at
    (3,4) and (4,3). *)
Definition walled_corner_5 : Environment :=
  mkEnv 5 [[0; 0; 0; 0; 0];
           [0; 0; 0; 0; 0];
           [0; 0; 0; 0; 0];
           [0; 0; 0; 0; -1];
           [0; 0; 0; -1; 0]].

(** 1 when [P] holds, 0 otherwise. *)
Definition indicator (P : Prop) `{Decision P} : nat := if decide P then 1%nat else 0%nat.

(** What the movement phase of a step leaves alone. *)
Definition same_frame (s s1 : VaccumCleaner) : Prop :=
  self_env s1 = self_env s /\ cleaned s1 = cleaned s /\
  visited s1 = visited s /\ metrics s1 = metrics s /\
  strategy s1 = strategy s /\ epsilon s1 = epsilon s /\
  charger_pos s1 = charger_pos s.

(** The cells of the box of the given radius around the agent. *)
Definition in_box (s : VaccumCleaner) (radius : Z) (c : cell) : Prop :=
  Z.abs (c.1 - self_x s) <= radius /\ Z.abs (c.2 - self_y s) <= radius.

(** A 5 by 5 grid as [Environment] lays it out (obstacle at (2,2), charger
    at (4,4)) with one dirty cell, at (0,1). *)
Definition sample_env : Environment :=
  mkEnv 5 [[0; 0; 0; 0; 0];
           [1; 0; 0; 0; 0];
           [0; 0; -1; 0; 0];
           [0; 0; 0; 0; 0];
           [0; 0; 0; 0; 2]].

(** An agent at (0,0) on [sample_env] with the given strategy and battery
    level, nothing visited, no pending path. *)
Definition sample_agent (strategy : string) (level : Z) : VaccumCleaner :=
  mkVac sample_env 0 0 0 1 (Battery.mk 100 level 1 5 (100 - level) 0) ∅ []
        strategy PerformanceMetrics_init (4, 4).

(** ** Further vocabulary *)

(** The battery after a sequence of calls. *)
Definition run_calls (b : Battery.t) (cs : list call) : Battery.t :=
  foldl do_call b cs.

(** The sum of the amounts requested by the [consume] calls of a sequence
    made on [b]. *)
Definition requested (b : Battery.t) (cs : list call) : Z :=
  foldr (fun c acc => match c with
                      | Consume _ => call_amount b c + acc
                      | Charge => acc
                      end) 0 cs.

(** An event sent to the metrics recorder. *)
Inductive metric_event : Type :=
| StepEvent (position : cell) (battery_level : Z) (action strategy : string)
| CleaningEvent (strategy : string).

Definition record_event (m : PerformanceMetrics) (ev : metric_event)
    : PerformanceMetrics :=
  match ev with
  | StepEvent position battery_level action strategy =>
      record_step m position battery_level action strategy
  | CleaningEvent strategy => record_cleaning m strategy
  end.

Definition record_all (m : PerformanceMetrics) (evs : list metric_event)
    : PerformanceMetrics :=
  foldl record_event m evs.

Definition is_step_event (ev : metric_event) : bool :=
  match ev with
  | StepEvent _ _ _ _ => true
  | CleaningEvent _ => false
  end.

(** Is [ev] a cleaning event of the strategy [name]? *)
Definition is_cleaning_of (name : string) (ev : metric_event) : bool :=
  match ev with
  | StepEvent _ _ _ _ => false
  | CleaningEvent strategy => String.eqb strategy name
  end.

(** The value [Environment.__init__] leaves in the cell of column [x],
    row [y]: the last write to the cell wins. *)
Definition initial_cell (size : Z) (dirt : Z -> Z -> bool) (x y : Z) : Z :=
  if decide ((x, y) = (2, 2)) then OBSTACLE
  else if decide ((x, y) = (size - 1, size - 1)) then CHARGER
  else if decide ((x, y) = (0, 0)) then CLEAN
  else if dirt y x then DIRTY else CLEAN.

(** How many events of a log pass the test [p]. *)
Definition count_events (p : metric_event -> bool) (evs : list metric_event) : Z :=
  Z.of_nat (length (List.filter p evs)).

(** The three logs of the recorder tell one story: [steps_taken] is the
    number of decisions, the decisions are numbered from 1, and the battery
    levels and the cells visited are those of the decisions. *)
Definition metrics_inv (m : PerformanceMetrics) : Prop :=
  steps_taken m = Z.of_nat (length (decisions_made m)) /\
  battery_usage m = d_battery <$> decisions_made m /\
  cells_visited m = list_to_set (d_position <$> decisions_made m) /\
  forall k d, decisions_made m !! k = Some d -> d_step d = Z.of_nat k + 1.

(** The states the agent is meant to be in: on a square grid, on a cell of
    it that is not an obstacle and, for the strategies that plan, with a
    pending path that is a sequence of moves from where the agent stands. *)
Definition agent_ok (s : VaccumCleaner) : Prop :=
  agent_inv s /\
  passable (self_env s) (position s) /\
  (strategy s <> "random" -> is_walk (self_env s) (position s) (path s)).

(** What one step does to the position and the battery: nothing; or one
    charge, in place, on the charger, in the low-battery branch; or one
    move to a neighbouring cell that is not an obstacle, paid with one
    [consume()]. *)
Definition step_move (s s' : VaccumCleaner) : Prop :=
  (position s' = position s /\ battery s' = battery s) \/
  (position s' = position s /\ position s = charger_pos s /\
   low_battery_override s = true /\
   battery s' = Battery.charge (battery s)) \/
  (edge (self_env s) (position s) (position s') /\
   battery s' = fst (Battery.consume (battery s) None)).

(** The number of dirty cells of the grid the agent works on. *)
Definition dirty_left (s : VaccumCleaner) : Z :=
  Z.of_nat (count_cells DIRTY (env_grid (self_env s))).

(** Successive calls of [step], one for each draw of the list. *)
Fixpoint run_steps (ds : list cell) (s : VaccumCleaner) : result VaccumCleaner :=
  match ds with
  | [] => Ok s
  | d :: ds' => s' ← step d s; run_steps ds' s'
  end.

(** * Properties *)

(** ** Battery *)

Section battery_facts.

Implicit Types (b : Battery.t) (a : Z).

Lemma consume_current b amount :
  Battery.current (fst (Battery.consume b amount)) =
  Z.max 0 (Battery.current b - call_amount b (Consume amount)).
Proof. by destruct amount. Qed.

Lemma consume_capacity b amount :
  Battery.capacity (fst (Battery.consume b amount)) = Battery.capacity b.
Proof. done. Qed.

Lemma charge_capacity b : Battery.capacity (Battery.charge b) = Battery.capacity b.
Proof. done. Qed.

Lemma do_call_rates b c :
  Battery.capacity (do_call b c) = Battery.capacity b /\
  Battery.drain_rate (do_call b c) = Battery.drain_rate b /\
  Battery.charge_rate (do_call b c) = Battery.charge_rate b.
Proof. by destruct c. Qed.

Lemma call_amount_do_call b c c' :
  call_amount (do_call b c) c' = call_amount b c'.
Proof.
  destruct (do_call_rates b c) as (_ & Hd & Hr).
  destruct c' as [[a|]|]; simpl; congruence.
Qed.

Lemma do_call_inv b c :
  battery_inv b -> 0 <= call_amount b c -> battery_inv (do_call b c).
Proof.
  unfold battery_inv. intros Hb Ha. destruct c as [amount|]; simpl in *.
  - destruct amount; simpl in *; lia.
  - lia.
Qed.

Lemma trace_inv cs : forall b,
  battery_inv b ->
  Forall (fun c => 0 <= call_amount b c) cs ->
  Forall battery_inv (trace b cs).
Proof.
  induction cs as [|c cs IH]; intros b Hb Hcs; simpl; [constructor|].
  inversion Hcs as [|? ? Hc Hcs']; subst.
  constructor; [by apply do_call_inv|].
  apply IH; [by apply do_call_inv|].
  eapply Forall_impl; [exact Hcs'|].
  intros c' Hc'. simpl. by rewrite call_amount_do_call.
Qed.

Lemma consume_n_total n a : forall b,
  Battery.total_consumed (consume_n n a b) =
  Battery.total_consumed b + Z.of_nat n * a.
Proof.
  induction n as [|n IH]; intros b; simpl consume_n; [lia|].
  rewrite IH. simpl. lia.
Qed.

Lemma charge_full_fixpoint b :
  Battery.current b = Battery.capacity b ->
  0 <= Battery.charge_rate b ->
  Battery.charge b = b.
Proof.
  destruct b as [cap cur d r tc cc]. simpl. intros -> Hr.
  unfold Battery.charge; simpl.
  rewrite Z.ltb_irrefl. simpl. f_equal. lia.
Qed.

Lemma charge_n_full n : forall b,
  Battery.current b = Battery.capacity b ->
  0 <= Battery.charge_rate b ->
  charge_n n b = b.
Proof.
  induction n as [|n IH]; intros b Hc Hr; simpl; [done|].
  rewrite charge_full_fixpoint by done. by apply IH.
Qed.

End battery_facts.

(** C2.  For a battery built with a positive capacity and any sequence of
    [consume] and [charge] calls whose amounts (the amount drained, the
    amount the charger adds) are not negative, [0 <= current <= capacity]
    holds when the battery is built and after every call. *)
Theorem battery_invariant (capacity drain_rate charge_rate : Z) (cs : list call) :
  0 < capacity ->
  Forall (fun c => 0 <= call_amount
                         (Battery.mk capacity capacity drain_rate charge_rate 0 0) c) cs ->
  exists b, Battery.init capacity drain_rate charge_rate = Ok b /\
            battery_inv b /\ Forall battery_inv (trace b cs).
Proof.
  intros Hcap Hcs. eexists. split; [reflexivity|].
  split; [unfold battery_inv; simpl; lia|].
  apply trace_inv; [unfold battery_inv; simpl; lia | exact Hcs].
Qed.

Lemma battery_invariant_witness :
  exists b, Battery.init 100 1 5 = Ok b /\ battery_inv b /\
    Forall battery_inv
      (trace b [Consume None; Consume (Some 250); Charge; Charge; Consume (Some 3)]).
Proof.
  apply (battery_invariant 100 1 5); [lia|].
  repeat constructor; simpl; lia.
Defined.

(** C5.  [charge] adds [charge_rate] to [current], capped at [capacity], and
    counts one more cycle exactly when the level was below capacity before
    the call and is at capacity after it.  From [current = capacity - 1] with
    [charge_rate = 5], one call counts one cycle and any number of further
    calls count none. *)
Theorem charge_cycle_counting (b : Battery.t) :
  Battery.current (Battery.charge b) =
    Z.min (Battery.capacity b) (Battery.current b + Battery.charge_rate b) /\
  (Battery.current b < Battery.capacity b /\
   Battery.current (Battery.charge b) = Battery.capacity b ->
   Battery.charge_cycles (Battery.charge b) = Battery.charge_cycles b + 1) /\
  (~ (Battery.current b < Battery.capacity b /\
      Battery.current (Battery.charge b) = Battery.capacity b) ->
   Battery.charge_cycles (Battery.charge b) = Battery.charge_cycles b) /\
  (Battery.current b = Battery.capacity b - 1 -> Battery.charge_rate b = 5 ->
   Battery.charge_cycles (Battery.charge b) = Battery.charge_cycles b + 1 /\
   forall n, Battery.charge_cycles (charge_n n (Battery.charge b)) =
             Battery.charge_cycles b + 1).
Proof.
  destruct b as [cap cur d r tc cc]. unfold Battery.charge. simpl.
  split; [done|]. split; [|split].
  - intros [Hlt Heq].
    destruct (Z.ltb_spec cur cap); [|lia].
    destruct (Z.eqb_spec (Z.min cap (cur + r)) cap); [done | lia].
  - intros Hn.
    destruct (Z.ltb_spec cur cap); [|done].
    destruct (Z.eqb_spec (Z.min cap (cur + r)) cap); [|done].
    exfalso. apply Hn. lia.
  - intros -> ->.
    destruct (Z.ltb_spec (cap - 1) cap); [|lia].
    destruct (Z.eqb_spec (Z.min cap (cap - 1 + 5)) cap); [|lia].
    split; [done|]. intros n.
    rewrite charge_n_full; simpl; [done | lia | lia].
Qed.

Lemma charge_cycle_counting_witness :
  Battery.charge_cycles (Battery.charge (Battery.mk 100 99 1 5 7 0)) = 1 /\
  forall n, Battery.charge_cycles
              (charge_n n (Battery.charge (Battery.mk 100 99 1 5 7 0))) = 1.
Proof.
  apply (charge_cycle_counting (Battery.mk 100 99 1 5 7 0)); reflexivity.
Defined.

(** C6.  [consume(a)] lowers [current] by [a], not below 0, adds all of [a]
    to [total_consumed], and returns whether [current] is positive
    afterwards; [n] calls of [consume(a)] on a new battery leave
    [total_consumed = n * a]. *)
Theorem consume_accumulates (b : Battery.t) (a : Z) :
  Battery.current (fst (Battery.consume b (Some a))) = Z.max 0 (Battery.current b - a) /\
  Battery.total_consumed (fst (Battery.consume b (Some a))) =
    Battery.total_consumed b + a /\
  (snd (Battery.consume b (Some a)) = true <->
   0 < Battery.current (fst (Battery.consume b (Some a)))) /\
  forall (capacity drain_rate charge_rate : Z) (n : nat),
    exists b0, Battery.init capacity drain_rate charge_rate = Ok b0 /\
      Battery.total_consumed (consume_n n a b0) = Z.of_nat n * a.
Proof.
  repeat split; simpl; try lia.
  intros cap d r n. eexists. split; [reflexivity|].
  rewrite consume_n_total. simpl. lia.
Qed.

(** ** Indexing *)

Section indexing_facts.

Context {A : Type}.
Implicit Types (l : list A) (i : Z).

Lemma py_index_in_range l i :
  0 <= i < Z.of_nat (length l) -> py_index l i = Ok (Z.to_nat i).
Proof.
  intros Hi. unfold py_index.
  destruct (Z.leb_spec 0 i); [|lia].
  destruct (Z.ltb_spec i (Z.of_nat (length l))); [done | lia].
Qed.

Lemma py_index_returns l i :
  (exists k, py_index l i = Ok k /\ (k < length l)%nat) \/
  py_index l i = Raise IndexError.
Proof.
  unfold py_index.
  destruct (Z.leb_spec 0 i), (Z.ltb_spec i (Z.of_nat (length l))); simpl;
    try (left; eexists; split; [reflexivity | lia]).
  - destruct (Z.leb_spec (- Z.of_nat (length l)) i), (Z.ltb_spec i 0); simpl;
      try (by right); lia.
  - destruct (Z.leb_spec (- Z.of_nat (length l)) i), (Z.ltb_spec i 0); simpl;
      try (by right).
    left; eexists; split; [reflexivity | lia].
  - destruct (Z.leb_spec (- Z.of_nat (length l)) i), (Z.ltb_spec i 0); simpl;
      try (by right).
    left; eexists; split; [reflexivity | lia].
Qed.

Lemma getitem_in_range l i :
  0 <= i < Z.of_nat (length l) ->
  exists v, getitem l i = Ok v /\ l !! Z.to_nat i = Some v.
Proof.
  intros Hi. unfold getitem. rewrite py_index_in_range by done. simpl.
  destruct (lookup_lt_is_Some_2 l (Z.to_nat i)) as [v Hv]; [lia|].
  exists v. by rewrite Hv.
Qed.

Lemma getitem_has_fuel l i : getitem l i <> NoFuel.
Proof.
  unfold getitem.
  destruct (py_index_returns l i) as [(k & -> & Hk) | ->]; simpl; [|done].
  by destruct (l !! k).
Qed.

Lemma setitem_in_range l i v :
  0 <= i < Z.of_nat (length l) -> setitem l i v = Ok (<[Z.to_nat i := v]> l).
Proof. intros Hi. unfold setitem. by rewrite py_index_in_range. Qed.

End indexing_facts.

Lemma wf_env_row env (y : Z) :
  wf_env env -> 0 <= y < env_size env ->
  exists row, env_grid env !! Z.to_nat y = Some row /\
              Z.of_nat (length row) = env_size env.
Proof.
  intros (Hs & Hlen & Hrows) Hy.
  destruct (lookup_lt_is_Some_2 (env_grid env) (Z.to_nat y)) as [row Hrow]; [lia|].
  exists row. split; [done|].
  by eapply (proj1 (Forall_lookup _ _) Hrows).
Qed.

Lemma grid_get_in_bounds env (x y : Z) :
  wf_env env -> 0 <= x < env_size env -> 0 <= y < env_size env ->
  exists row v, env_grid env !! Z.to_nat y = Some row /\
                row !! Z.to_nat x = Some v /\
                grid_get (env_grid env) x y = Ok v.
Proof.
  intros Hwf Hx Hy.
  destruct (wf_env_row env y Hwf Hy) as (row & Hrow & Hlen).
  destruct (getitem_in_range (env_grid env) y) as (row' & Hget & Hrow');
    [destruct Hwf as (_ & -> & _); lia|].
  assert (row' = row) as -> by congruence.
  destruct (getitem_in_range row x) as (v & Hgetv & Hv); [lia|].
  exists row, v. unfold grid_get. rewrite Hget. simpl. by rewrite Hgetv.
Qed.

Lemma grid_get_has_fuel g (x y : Z) : grid_get g x y <> NoFuel.
Proof.
  unfold grid_get.
  destruct (getitem g y) as [row| |] eqn:Hrow; simpl; [|done|].
  - apply getitem_has_fuel.
  - by apply getitem_has_fuel in Hrow.
Qed.

(** ** The open set *)

Lemma length_heappush h e : length (heappush h e) = S (length h).
Proof.
  induction h as [|e' h IH]; simpl; [done|].
  destruct (entry_ltb e e'); simpl; by rewrite ?IH.
Qed.

Lemma elem_of_heappush h e e0 : e0 ∈ heappush h e <-> e0 = e \/ e0 ∈ h.
Proof.
  induction h as [|e' h IH]; simpl.
  - rewrite list_elem_of_singleton, elem_of_nil. tauto.
  - destruct (entry_ltb e e').
    + rewrite !elem_of_cons. tauto.
    + rewrite !elem_of_cons, IH. tauto.
Qed.

(** ** The search loop *)

Section search_facts.

Variable env : Environment.
Variable eps : Q.
Variable goal : cell.

(** The inner loop returns an open set grown by at most one entry per
    direction, each new entry a move from [current] that extends [path];
    it raises only on a grid that is not square. *)
Lemma push_neighbors_spec seen g current p ds : forall open_set,
  match push_neighbors env eps goal seen g current p ds open_set with
  | Ok open_set' =>
      (length open_set' <= length open_set + length ds)%nat /\
      forall e, e ∈ open_set' ->
        e ∈ open_set \/
        exists d, d ∈ ds /\
          e_cell e = (current.1 + d.1, current.2 + d.2) /\
          passable env (e_cell e) /\
          e_g e = g + 1 /\
          e_path e = p ++ [e_cell e]
  | Raise _ => ~ wf_env env
  | NoFuel => False
  end.
Proof.
  induction ds as [|d ds IH]; intros open_set; simpl.
  { split; [lia | by left]. }
  set (nx := current.1 + d.1). set (ny := current.2 + d.2).
  assert (Hskip :
    match push_neighbors env eps goal seen g current p ds open_set with
    | Ok open_set' =>
        (length open_set' <= length open_set + S (length ds))%nat /\
        forall e, e ∈ open_set' ->
          e ∈ open_set \/
          exists d0, d0 ∈ d :: ds /\
            e_cell e = (current.1 + d0.1, current.2 + d0.2) /\
            passable env (e_cell e) /\ e_g e = g + 1 /\
            e_path e = p ++ [e_cell e]
    | Raise _ => ~ wf_env env
    | NoFuel => False
    end).
  { specialize (IH open_set).
    destruct (push_neighbors env eps goal seen g current p ds open_set);
      [|done|done].
    destruct IH as [Hlen Hin]. split; [lia|].
    intros e He. destruct (Hin e He) as [?|(d0 & ? & ?)]; [by left|].
    right. exists d0. split; [by right | done]. }
  destruct ((0 <=? nx) && (nx <? env_size env) && (0 <=? ny) && (ny <? env_size env))
    eqn:Hb; [|exact Hskip].
  destruct (grid_get (env_grid env) nx ny) as [v| |] eqn:Hget; simpl.
  - destruct (negb (v =? OBSTACLE)) eqn:Hfree; [|exact Hskip].
    cbv zeta.
    destruct (bool_decide ((nx, ny) ∉ seen)) eqn:Hnew; [|exact Hskip].
    match goal with
    | |- context [push_neighbors _ _ _ _ _ _ _ _ (heappush _ ?e0)] =>
        set (new := e0)
    end.
    specialize (IH (heappush open_set new)).
    destruct (push_neighbors env eps goal seen g current p ds
                (heappush open_set new)); [|done|done].
    destruct IH as [Hlen Hin]. rewrite length_heappush in Hlen.
    split; [lia|].
    intros e He. destruct (Hin e He) as [He'|(d0 & ? & ?)].
    + apply elem_of_heappush in He' as [->|?]; [|by left].
      right. exists d. split; [by left|]. simpl.
      split; [done|]. split; [|done].
      split; [unfold in_bounds; simpl; fold nx ny; lia|].
      exists v. simpl. split; [done|].
      apply negb_true_iff in Hfree. lia.
    + right. exists d0. split; [by right | done].
  - intros Hwf.
    destruct (grid_get_in_bounds env nx ny Hwf) as (? & ? & ? & ? & ?);
      [lia | lia | congruence].
  - by apply grid_get_has_fuel in Hget.
Qed.

(** The cells the loop can ever hold, and a property [P] of entries kept
    by every move. *)
Variable U : gset cell.
Variable P : entry -> Prop.
Hypothesis U_bounds : forall c, in_bounds env c -> c ∈ U.
Hypothesis P_edge : forall e e',
  P e -> edge env (e_cell e) (e_cell e') ->
  e_g e' = e_g e + 1 -> e_path e' = e_path e ++ [e_cell e'] -> P e'.

Lemma a_star_loop_spec fuel : forall open_set seen,
  (forall e, e ∈ open_set -> P e /\ e_cell e ∈ U) ->
  (4 * size (U ∖ seen) + length open_set < fuel)%nat ->
  match a_star_loop fuel env eps goal open_set seen with
  | Ok p => p = [] \/ exists e, P e /\ e_cell e = goal /\ p = drop 1 (e_path e)
  | Raise _ => ~ wf_env env
  | NoFuel => False
  end.
Proof.
  induction fuel as [|fuel IH]; intros open_set seen Hopen Hfuel; [lia|].
  cbn [a_star_loop]. destruct open_set as [|e open_set]; cbn [heappop]; [by left|].
  destruct (Hopen e) as [HPe HUe]; [by left|].
  destruct (decide (e_cell e = goal)) as [Hg|Hg].
  { right. by exists e. }
  destruct (decide (e_cell e ∈ seen)) as [Hseen|Hseen].
  { apply IH; [|simpl in Hfuel; lia].
    intros e' He'. apply Hopen. by right. }
  pose proof (push_neighbors_spec ({[e_cell e]} ∪ seen) (e_g e) (e_cell e)
                (e_path e) directions open_set) as Hpush.
  destruct (push_neighbors env eps goal ({[e_cell e]} ∪ seen) (e_g e) (e_cell e)
              (e_path e) directions open_set) as [open_set'| |];
    cbn [mbind result_bind]; [|done|done].
  destruct Hpush as [Hlen Hin].
  apply IH.
  - intros e' He'. destruct (Hin e' He') as [?|(d & Hd & Hc & Hp & Hg' & Hpath)].
    + apply Hopen. by right.
    + split.
      * apply (P_edge e e'); [done| |done|done].
        split; [|done]. exists d. by rewrite Hc.
      * apply U_bounds, Hp.
  - assert (size (U ∖ ({[e_cell e]} ∪ seen)) < size (U ∖ seen))%nat.
    { apply subset_size. split.
      - intros c. rewrite !elem_of_difference, elem_of_union. tauto.
      - intros Hsub. specialize (Hsub (e_cell e)).
        rewrite !elem_of_difference, elem_of_union, elem_of_singleton in Hsub.
        tauto. }
    simpl in Hfuel, Hlen. lia.
Qed.

End search_facts.

(** ** The cells of the grid *)

Lemma elem_of_range (a b k : Z) : k ∈ range a b <-> a <= k < b.
Proof. unfold range. rewrite elem_of_seqZ. lia. Qed.

Lemma length_range (a b : Z) : length (range a b) = Z.to_nat (b - a).
Proof. unfold range. apply length_seqZ. Qed.

Lemma length_bind_uniform {A B} (f : A -> list B) (k : nat) (l : list A) :
  (forall a, length (f a) = k) -> length (l ≫= f) = (length l * k)%nat.
Proof.
  intros Hf. induction l as [|a l IH]; [done|].
  rewrite bind_cons, length_app, Hf, IH. simpl. lia.
Qed.

Lemma elem_of_grid_cells env c : c ∈ grid_cells env <-> in_bounds env c.
Proof.
  unfold grid_cells, in_bounds. rewrite list_elem_of_bind. split.
  - intros (y & Hc & Hy). apply list_elem_of_bind in Hc as (x & Hc & Hx).
    apply list_elem_of_singleton in Hc as ->.
    apply elem_of_range in Hx, Hy. simpl. lia.
  - intros [Hx Hy]. exists c.2. split; [|apply elem_of_range; lia].
    apply list_elem_of_bind. exists c.1. split; [|apply elem_of_range; lia].
    destruct c. simpl. by apply list_elem_of_singleton.
Qed.

Lemma length_grid_cells env :
  length (grid_cells env) = (Z.to_nat (env_size env) * Z.to_nat (env_size env))%nat.
Proof.
  unfold grid_cells.
  rewrite (length_bind_uniform _ (Z.to_nat (env_size env))).
  - rewrite length_range. f_equal; lia.
  - intros y. rewrite (length_bind_uniform _ 1%nat); [|done].
    rewrite length_range. replace (env_size env - 0) with (env_size env) by lia. lia.
Qed.

Lemma size_list_to_set_le (l : list cell) :
  (size (list_to_set l : gset cell) <= length l)%nat.
Proof.
  induction l as [|c l IH].
  - rewrite list_to_set_nil, size_empty. done.
  - rewrite list_to_set_cons, size_union_alt, size_singleton. simpl length.
    assert (size (list_to_set l ∖ {[c]} : gset cell) <= size (list_to_set l : gset cell))%nat.
    { apply subseteq_size. intros c'. rewrite elem_of_difference. tauto. }
    lia.
Qed.

Lemma size_universe env start :
  (size (universe env start) <=
   Z.to_nat (env_size env) * Z.to_nat (env_size env) + 1)%nat.
Proof.
  unfold universe. rewrite size_union_alt, size_singleton.
  pose proof (size_list_to_set_le (grid_cells env)) as Hle.
  rewrite length_grid_cells in Hle.
  assert (size (list_to_set (grid_cells env) ∖ {[start]} : gset cell)
          <= size (list_to_set (grid_cells env) : gset cell))%nat.
  { apply subseteq_size. intros c'. rewrite elem_of_difference. tauto. }
  lia.
Qed.

Lemma universe_bounds env start c : in_bounds env c -> c ∈ universe env start.
Proof.
  intros Hc. unfold universe. apply elem_of_union. right.
  apply elem_of_list_to_set. by apply elem_of_grid_cells.
Qed.

(** ** The search *)

Section a_star_facts.

Variable env : Environment.
Variable eps : Q.
Variables start goal : cell.

(** What the loop establishes for any property [P] of entries that holds
    of the first entry and is kept by moves. *)
Lemma a_star_spec (P : entry -> Prop) :
  (forall f, P (mkEntry f 0 start [start])) ->
  (forall e e',
      P e -> edge env (e_cell e) (e_cell e') ->
      e_g e' = e_g e + 1 -> e_path e' = e_path e ++ [e_cell e'] -> P e') ->
  match a_star env eps start goal with
  | Ok p => p = [] \/ exists e, P e /\ e_cell e = goal /\ p = drop 1 (e_path e)
  | Raise _ => ~ wf_env env
  | NoFuel => False
  end.
Proof.
  intros Hstart Hedge. unfold a_star.
  apply (a_star_loop_spec env eps goal (universe env start) P).
  - apply universe_bounds.
  - exact Hedge.
  - intros e He. apply list_elem_of_singleton in He as ->. split; [done|].
    simpl. unfold universe. apply elem_of_union. left. by apply elem_of_singleton.
  - pose proof (size_universe env start) as Hsz.
    assert (size (universe env start ∖ ∅) <= size (universe env start))%nat.
    { apply subseteq_size. intros c. rewrite elem_of_difference. tauto. }
    unfold a_star_fuel. simpl length. lia.
Qed.

(** The search always ends within its budget. *)
Lemma a_star_total : a_star env eps start goal <> NoFuel.
Proof.
  pose proof (a_star_spec (fun _ => True)) as H.
  destruct (a_star env eps start goal); [done|done|].
  exfalso. apply H; done.
Qed.

(** On a square grid the search returns a path. *)
Lemma a_star_returns :
  wf_env env -> exists p, a_star env eps start goal = Ok p.
Proof.
  intros Hwf. pose proof (a_star_spec (fun _ => True)) as H.
  destruct (a_star env eps start goal) as [p| |]; [by exists p| |].
  - exfalso. apply H; done.
  - exfalso. apply H; done.
Qed.

Lemma is_walk_snoc c p c' :
  is_walk env c p -> last (c :: p) = Some c' ->
  forall c'', edge env c' c'' -> is_walk env c (p ++ [c'']).
Proof.
  revert c. induction p as [|a p IH]; intros c Hw Hl c'' He; simpl in *.
  - by simplify_eq.
  - destruct Hw as [Hca Hw]. split; [done|].
    apply IH; [done| |done]. by destruct p.
Qed.

(** A path returned is a sequence of moves from [start] that ends at
    [goal], as long as the cost recorded with it. *)
Lemma a_star_walk p :
  a_star env eps start goal = Ok p ->
  is_walk env start p /\ (p <> [] -> last p = Some goal).
Proof.
  intros Hp.
  pose proof (a_star_spec (fun e =>
    exists rest, e_path e = start :: rest /\ is_walk env start rest /\
                 last (start :: rest) = Some (e_cell e))) as H.
  rewrite Hp in H. destruct H as [->|(e & (rest & Hpath & Hw & Hl) & Hg & ->)].
  - intros f. exists []. by simpl.
  - intros e e' (rest & Hpath & Hw & Hl) He Hg Hpath'.
    exists (rest ++ [e_cell e']). split; [by rewrite Hpath', Hpath|].
    split; [by eapply is_walk_snoc|].
    change (start :: rest ++ [e_cell e']) with ((start :: rest) ++ [e_cell e']).
    by rewrite last_snoc.
  - by simpl.
  - rewrite Hpath. simpl. rewrite drop_0. split; [done|].
    intros Hne. rewrite <- Hg, <- Hl. destruct rest; [done|]. done.
Qed.

Lemma is_walk_in_bounds c p : is_walk env c p -> Forall (in_bounds env) p.
Proof.
  revert c. induction p as [|a p IH]; intros c Hw; [constructor|].
  destruct Hw as [[_ [Hb _]] Hw]. constructor; [done|]. by eapply IH.
Qed.

Lemma reachable_edge c c' :
  reachable env start c -> edge env c c' -> reachable env start c'.
Proof. intros Hr He. eapply rtc_r; eassumption. Qed.

(** If the goal cannot be reached by moves, the search returns the empty
    path. *)
Lemma a_star_unreachable :
  wf_env env -> ~ reachable env start goal ->
  a_star env eps start goal = Ok [].
Proof.
  intros Hwf Hnr.
  pose proof (a_star_spec (fun e => reachable env start (e_cell e))) as H.
  assert (H0 : forall f : Q, reachable env start (e_cell (mkEntry f 0 start [start])))
    by (intros f; apply rtc_refl).
  specialize (H H0). clear H0.
  assert (H1 : forall e e',
    reachable env start (e_cell e) -> edge env (e_cell e) (e_cell e') ->
    e_g e' = e_g e + 1 -> e_path e' = e_path e ++ [e_cell e'] ->
    reachable env start (e_cell e'))
    by (intros e e' Hr He _ _; by eapply reachable_edge).
  specialize (H H1). clear H1.
  destruct (a_star env eps start goal) as [p| |]; [|done|done].
  destruct H as [->|(e & Hr & Hg & _)]; [done|].
  exfalso. apply Hnr. by rewrite <- Hg.
Qed.

Lemma a_star_at_goal : start = goal -> a_star env eps start goal = Ok [].
Proof.
  intros ->. unfold a_star, a_star_fuel.
  replace (4 * (Z.to_nat (env_size env) * Z.to_nat (env_size env) + 1) + 2)%nat
    with (S (S (4 * (Z.to_nat (env_size env) * Z.to_nat (env_size env) + 1))))
    by lia.
  cbn [a_star_loop heappush heappop e_cell e_path].
  by destruct (decide (goal = goal)).
Qed.

End a_star_facts.

(** C4.  On a square grid, for a start and a goal inside the grid and not
    obstacles: when the start is the goal the search returns the empty
    path, and when the goal cannot be reached from the start by moves
    through cells that are not obstacles it returns the empty path as well;
    nothing is raised. *)
Theorem a_star_empty_path (env : Environment) (eps : Q) (start goal : cell) :
  wf_env env -> passable env start -> passable env goal ->
  start = goal \/ ~ reachable env start goal ->
  a_star env eps start goal = Ok [].
Proof.
  intros Hwf _ _ [Heq|Hnr].
  - by apply a_star_at_goal.
  - by apply a_star_unreachable.
Qed.

Lemma wf_walled_corner_5 : wf_env walled_corner_5.
Proof. split; [simpl; lia|]. split; [reflexivity|]. repeat constructor. Qed.

Lemma passable_walled_corner_5 (c : cell) :
  passable walled_corner_5 c -> c <> (3, 4) /\ c <> (4, 3) /\ in_bounds walled_corner_5 c.
Proof.
  intros [Hb (v & Hv & Hne)]. split; [|split; [|done]].
  - intros ->. vm_compute in Hv. by simplify_eq.
  - intros ->. vm_compute in Hv. by simplify_eq.
Qed.

Lemma walled_corner_unreachable : ~ reachable walled_corner_5 (0, 0) (4, 4).
Proof.
  assert (Hinv : forall c, reachable walled_corner_5 (0, 0) c ->
                           c <> (4, 4) /\ c <> (3, 4) /\ c <> (4, 3) /\
                           in_bounds walled_corner_5 c).
  { apply (rtc_ind_r (fun c => c <> (4, 4) /\ c <> (3, 4) /\ c <> (4, 3) /\
                                in_bounds walled_corner_5 c)).
    - unfold in_bounds. simpl. repeat split; (done || lia).
    - intros c c' _ He (H1 & H2 & H3 & Hb).
      destruct He as [(d & Hd & ->) Hp].
      apply passable_walled_corner_5 in Hp as (H4 & H5 & Hb').
      repeat split; try done; try apply Hb'.
      destruct c as [x y]. destruct Hb as [Hx Hy]. simpl in Hx, Hy.
      unfold directions in Hd.
      rewrite !elem_of_cons, elem_of_nil in Hd. simpl.
      intros Heq. injection Heq as Hx' Hy'.
      destruct Hd as [->|[->|[->|[->|[]]]]]; simpl in *.
      + apply H3. f_equal; lia.
      + lia.
      + apply H2. f_equal; lia.
      + lia. }
  intros Hr. by destruct (Hinv _ Hr) as [H _].
Qed.

Lemma a_star_empty_path_witness :
  wf_env walled_corner_5 /\
  ~ reachable walled_corner_5 (0, 0) (4, 4) /\
  a_star walled_corner_5 1 (0, 0) (4, 4) = Ok [].
Proof.
  split; [exact wf_walled_corner_5|].
  split; [exact walled_corner_unreachable|].
  apply (a_star_empty_path walled_corner_5 1 (0, 0) (4, 4)).
  - exact wf_walled_corner_5.
  - split; [unfold in_bounds; simpl; lia|]. exists 0. by vm_compute.
  - split; [unfold in_bounds; simpl; lia|]. exists 0. by vm_compute.
  - right. exact walled_corner_unreachable.
Defined.

(** ** The search reads the grid only for its obstacles *)

Section same_obstacles_facts.

Variables env1 env2 : Environment.
Hypothesis Hsame : same_obstacles env1 env2.
Variable eps : Q.
Variable goal : cell.

Lemma push_neighbors_same seen g current p ds : forall open_set,
  push_neighbors env1 eps goal seen g current p ds open_set =
  push_neighbors env2 eps goal seen g current p ds open_set.
Proof.
  destruct Hsame as [Hsize Hcells].
  induction ds as [|d ds IH]; intros open_set; [done|].
  cbn [push_neighbors]. rewrite <- Hsize.
  set (nx := current.1 + d.1). set (ny := current.2 + d.2).
  destruct ((0 <=? nx) && (nx <? env_size env1) && (0 <=? ny) && (ny <? env_size env1))
    eqn:Hb; [|apply IH].
  destruct (Hcells nx ny) as (v1 & v2 & -> & -> & Hv); [lia|lia|].
  cbn [mbind result_bind]. rewrite Hv.
  destruct (negb (v2 =? OBSTACLE)); [|apply IH].
  cbv zeta. destruct (bool_decide ((nx, ny) ∉ seen)); apply IH.
Qed.

Lemma a_star_loop_same fuel : forall open_set seen,
  a_star_loop fuel env1 eps goal open_set seen =
  a_star_loop fuel env2 eps goal open_set seen.
Proof.
  induction fuel as [|fuel IH]; intros open_set seen; [done|].
  cbn [a_star_loop]. destruct (heappop open_set) as [[e open_set']|]; [|done].
  destruct (decide (e_cell e = goal)); [done|].
  destruct (decide (e_cell e ∈ seen)); [apply IH|].
  rewrite push_neighbors_same.
  destruct (push_neighbors env2 eps goal ({[e_cell e]} ∪ seen) (e_g e) (e_cell e)
              (e_path e) directions open_set'); cbn [mbind result_bind];
    [apply IH|done|done].
Qed.

Lemma a_star_same start :
  a_star env1 eps start goal = a_star env2 eps start goal.
Proof.
  unfold a_star, a_star_fuel. destruct Hsame as [<- _]. apply a_star_loop_same.
Qed.

End same_obstacles_facts.

Lemma obstacle_free_same (env : Environment) :
  env_size env = 5 -> wf_env env -> obstacle_free env ->
  same_obstacles env clean_grid_5.
Proof.
  intros Hsize Hwf Hfree. split; [done|].
  intros x y Hx Hy.
  destruct (grid_get_in_bounds env x y Hwf Hx Hy) as (row & v & Hrow & Hv & Hget).
  destruct (grid_get_in_bounds clean_grid_5 x y) as (row' & v' & Hrow' & Hv' & Hget').
  { split; [simpl; lia|]. split; [reflexivity|]. repeat constructor. }
  { simpl. lia. }
  { simpl. lia. }
  exists v, v'. split; [done|]. split; [done|].
  assert (v <> OBSTACLE) as Hne.
  { unfold obstacle_free in Hfree.
    pose proof (proj1 (Forall_lookup _ _) Hfree _ _ Hrow) as Hr.
    by apply (proj1 (Forall_lookup _ _) Hr _ _ Hv). }
  assert (v' = CLEAN) as ->.
  { unfold clean_grid_5 in Hrow'. cbn [env_grid] in Hrow'.
    apply lookup_replicate in Hrow' as [-> _].
    by apply lookup_replicate in Hv' as [-> _]. }
  unfold OBSTACLE, CLEAN in *. destruct (Z.eqb_spec v (-1)); [done|]. done.
Qed.

(** C3.  With [epsilon = 1] on a 5 by 5 grid without obstacles, the search
    from (0,0) to (4,4) returns a path of length 8, the Manhattan distance
    between the two cells; the path does not contain the start, is made of
    moves from it, and ends at the goal. *)
Theorem a_star_5x5_optimal (env : Environment) :
  env_size env = 5 -> wf_env env -> obstacle_free env ->
  exists p, a_star env 1 (0, 0) (4, 4) = Ok p /\
            Z.of_nat (length p) = heuristic (0, 0) (4, 4) /\
            length p = 8%nat /\
            ((0, 0) ∉ p) /\
            is_walk env (0, 0) p /\
            last p = Some (4, 4).
Proof.
  intros Hsize Hwf Hfree.
  pose proof (a_star_same env clean_grid_5 (obstacle_free_same env Hsize Hwf Hfree)
                1 (4, 4) (0, 0)) as Heq.
  assert (Hrun : a_star clean_grid_5 1 (0, 0) (4, 4) =
                 Ok [(0, 1); (0, 2); (0, 3); (0, 4); (1, 4); (2, 4); (3, 4); (4, 4)])
    by (vm_compute; reflexivity).
  rewrite Hrun in Heq. eexists. split; [exact Heq|].
  split; [reflexivity|]. split; [reflexivity|].
  split.
  { rewrite !elem_of_cons, elem_of_nil. intros H.
    repeat (destruct H as [H|H]; [discriminate H|]). done. }
  split; [by apply a_star_walk in Heq as [Hw _]|].
  reflexivity.
Qed.

Lemma a_star_5x5_optimal_witness :
  exists p, a_star clean_grid_5 1 (0, 0) (4, 4) = Ok p /\
            Z.of_nat (length p) = heuristic (0, 0) (4, 4) /\
            length p = 8%nat /\
            ((0, 0) ∉ p) /\
            is_walk clean_grid_5 (0, 0) p /\
            last p = Some (4, 4).
Proof.
  apply (a_star_5x5_optimal clean_grid_5).
  - reflexivity.
  - split; [simpl; lia|]. split; [reflexivity|]. repeat constructor.
  - repeat constructor; discriminate.
Defined.

(** ** Writing a cell of the grid *)

Lemma count_insert (v w old : Z) (row : list Z) (j : nat) :
  row !! j = Some old ->
  (length (filter (fun u => u = v) (<[j := w]> row)) + indicator (old = v) =
   length (filter (fun u => u = v) row) + indicator (w = v))%nat.
Proof.
  intros Hj.
  assert (j < length row)%nat as Hlt by (by eapply lookup_lt_Some).
  rewrite insert_take_drop by done.
  rewrite <- (take_drop_middle row j old Hj) at 3.
  rewrite !filter_app, !filter_cons, !length_app. unfold indicator.
  destruct (decide (w = v)), (decide (old = v)); simpl; lia.
Qed.

Lemma count_cells_insert (v w old : Z) (g : list (list Z)) (row : list Z) (i j : nat) :
  g !! i = Some row -> row !! j = Some old ->
  (count_cells v (<[i := <[j := w]> row]> g) + indicator (old = v) =
   count_cells v g + indicator (w = v))%nat.
Proof.
  intros Hi Hj. unfold count_cells.
  assert (i < length g)%nat as Hlt by (by eapply lookup_lt_Some).
  rewrite insert_take_drop by done.
  rewrite <- (take_drop_middle g i row Hi) at 3.
  rewrite !concat_app, !concat_cons, !filter_app, !length_app.
  pose proof (count_insert v w old row j Hj). lia.
Qed.

Lemma grid_set_in_bounds env (x y w : Z) :
  wf_env env -> 0 <= x < env_size env -> 0 <= y < env_size env ->
  exists row old,
    env_grid env !! Z.to_nat y = Some row /\
    row !! Z.to_nat x = Some old /\
    grid_get (env_grid env) x y = Ok old /\
    grid_set (env_grid env) x y w =
      Ok (<[Z.to_nat y := <[Z.to_nat x := w]> row]> (env_grid env)).
Proof.
  intros Hwf Hx Hy.
  destruct (grid_get_in_bounds env x y Hwf Hx Hy) as (row & old & Hrow & Hold & Hget).
  destruct (wf_env_row env y Hwf Hy) as (row' & Hrow' & Hlen).
  assert (row' = row) as -> by congruence.
  exists row, old. repeat split; try done.
  unfold grid_set.
  destruct (getitem_in_range (env_grid env) y) as (r & -> & Hr);
    [destruct Hwf as (_ & -> & _); lia|].
  assert (r = row) as -> by congruence. cbn [mbind result_bind].
  rewrite setitem_in_range by lia. cbn [mbind result_bind].
  apply setitem_in_range. destruct Hwf as (_ & -> & _). lia.
Qed.

Lemma wf_env_insert env (i j : nat) (row : list Z) (w : Z) :
  wf_env env -> env_grid env !! i = Some row ->
  wf_env (mkEnv (env_size env) (<[i := <[j := w]> row]> (env_grid env))).
Proof.
  intros (Hs & Hlen & Hrows) Hi. split; [done|]. simpl.
  split; [by rewrite length_insert|].
  apply Forall_insert; [done|]. rewrite length_insert.
  by apply (proj1 (Forall_lookup _ _) Hrows i row).
Qed.

(** After [grid[y][x] = w] the cell reads [w] and every other cell of the
    grid reads as before. *)
Lemma grid_get_insert env (x y x' y' w : Z) (row : list Z) :
  wf_env env -> 0 <= x < env_size env -> 0 <= y < env_size env ->
  0 <= x' < env_size env -> 0 <= y' < env_size env ->
  env_grid env !! Z.to_nat y = Some row ->
  grid_get (<[Z.to_nat y := <[Z.to_nat x := w]> row]> (env_grid env)) x' y' =
  if decide ((x', y') = (x, y)) then Ok w else grid_get (env_grid env) x' y'.
Proof.
  intros Hwf Hx Hy Hx' Hy' Hrow.
  pose proof (wf_env_insert env (Z.to_nat y) (Z.to_nat x) row w Hwf Hrow) as Hwf'.
  destruct (grid_get_in_bounds _ x' y' Hwf' Hx' Hy') as (r' & v' & Hr' & Hv' & Hg').
  destruct (grid_get_in_bounds env x' y' Hwf Hx' Hy') as (r & v & Hr & Hv & ->).
  simpl in Hr', Hg'. rewrite Hg'. clear Hg'.
  destruct (decide (Z.to_nat y = Z.to_nat y')) as [Hey|Hney].
  - rewrite Hey in Hr'. rewrite list_lookup_insert_eq in Hr' by (by eapply lookup_lt_Some).
    injection Hr' as <-. rewrite <- Hey in Hr.
    assert (r = row) as -> by congruence.
    destruct (decide (Z.to_nat x = Z.to_nat x')) as [Hex|Hnex].
    + rewrite Hex in Hv'.
      rewrite list_lookup_insert_eq in Hv' by (by eapply lookup_lt_Some).
      injection Hv' as <-.
      destruct (decide ((x', y') = (x, y))) as [_|Hne]; [done|].
      exfalso. apply Hne. f_equal; lia.
    + rewrite list_lookup_insert_ne in Hv' by done.
      destruct (decide ((x', y') = (x, y))) as [Heq|_]; [|congruence].
      injection Heq as -> ->. done.
  - rewrite list_lookup_insert_ne in Hr' by done.
    destruct (decide ((x', y') = (x, y))) as [Heq|_]; [|congruence].
    injection Heq as -> ->. done.
Qed.

(** ** The agent: cleaning *)

Lemma filterM_returns {A} (p : A -> result bool) (l : list A) :
  (forall a, a ∈ l -> exists b, p a = Ok b) ->
  exists r, filterM p l = Ok r /\
            forall a, a ∈ r <-> a ∈ l /\ p a = Ok true.
Proof.
  induction l as [|a l IH]; intros Hp.
  - exists []. split; [done|]. intros a. rewrite elem_of_nil. tauto.
  - destruct (Hp a) as [b Hb]; [by left|].
    destruct IH as (r & Hr & Hmem); [intros a' Ha'; apply Hp; by right|].
    cbn [filterM]. rewrite Hb. cbn [mbind result_bind]. rewrite Hr.
    cbn [mbind result_bind]. eexists. split; [reflexivity|].
    intros a'. destruct b.
    + rewrite !elem_of_cons, Hmem. split.
      * intros [->|[? ?]]; [by split; [left|] | by split; [right|]].
      * intros [[->|?] ?]; [by left | by right].
    + rewrite elem_of_cons, Hmem. split.
      * intros [? ?]. by split; [right|].
      * intros [[->|?] ?]; [congruence | done].
Qed.

(** [clean] on a square grid with the agent on it: it returns; the agent
    keeps its position, battery and path; its position joins [visited]; a
    dirty cell becomes clean and is counted, with one cleaning recorded;
    any other cell leaves the grid and the counters as they were. *)
Lemma clean_spec (s : VaccumCleaner) :
  wf_env (self_env s) -> in_bounds (self_env s) (position s) ->
  exists v s',
    grid_get (env_grid (self_env s)) (self_x s) (self_y s) = Ok v /\
    clean s = Ok s' /\
    position s' = position s /\ battery s' = battery s /\ path s' = path s /\
    strategy s' = strategy s /\ epsilon s' = epsilon s /\
    charger_pos s' = charger_pos s /\
    visited s' = {[position s]} ∪ visited s /\
    env_size (self_env s') = env_size (self_env s) /\
    wf_env (self_env s') /\
    (v = DIRTY ->
       grid_get (env_grid (self_env s')) (self_x s) (self_y s) = Ok CLEAN /\
       cleaned s' = cleaned s + 1 /\
       metrics s' = record_cleaning (metrics s) (strategy s) /\
       (forall c, in_bounds (self_env s) c -> c <> position s ->
          grid_get (env_grid (self_env s')) c.1 c.2 =
          grid_get (env_grid (self_env s)) c.1 c.2) /\
       forall u, u <> DIRTY -> u <> CLEAN ->
          count_cells u (env_grid (self_env s')) = count_cells u (env_grid (self_env s))) /\
    (v <> DIRTY ->
       self_env s' = self_env s /\ cleaned s' = cleaned s /\ metrics s' = metrics s).
Proof.
  intros Hwf [Hx Hy]. simpl in Hx, Hy.
  destruct (grid_set_in_bounds (self_env s) (self_x s) (self_y s) CLEAN Hwf Hx Hy)
    as (row & v & Hrow & Hv & Hget & Hset).
  exists v. unfold clean. rewrite Hget. cbn [mbind result_bind].
  destruct (Z.eqb_spec v DIRTY) as [->|Hne].
  - rewrite Hset. cbn [mbind result_bind]. eexists. split; [done|].
    split; [reflexivity|]. simpl.
    repeat (split; [done|]).
    split; [by apply wf_env_insert|].
    split; [|done]. intros _.
    split.
    { rewrite (grid_get_insert (self_env s)) by done. by rewrite decide_True. }
    repeat (split; [done|]).
    split.
    + intros [cx cy] [Hcx Hcy] Hc. simpl in *.
      rewrite (grid_get_insert (self_env s)) by done.
      by rewrite decide_False.
    + intros u Hu1 Hu2.
      pose proof (count_cells_insert u CLEAN DIRTY _ _ _ _ Hrow Hv) as Hcount.
      unfold indicator in Hcount.
      rewrite !decide_False in Hcount by done. lia.
  - cbn [mbind result_bind]. eexists. split; [done|].
    split; [reflexivity|]. simpl.
    repeat (split; [done|]). done.
Qed.

(** ** The agent: looking for dirt *)

Lemma bounds_check (x y n : Z) :
  (0 <=? x) && (x <? n) && (0 <=? y) && (y <? n) = true <->
  0 <= x < n /\ 0 <= y < n.
Proof. rewrite !andb_true_iff. lia. Qed.

Lemma get_dirty_cells_returns env :
  wf_env env ->
  exists l, get_dirty_cells env = Ok l /\
    forall c, c ∈ l <->
      in_bounds env c /\ grid_get (env_grid env) c.1 c.2 = Ok DIRTY.
Proof.
  intros Hwf. unfold get_dirty_cells. fold (grid_cells env).
  destruct (filterM_returns
    (fun c : cell => v ← grid_get (env_grid env) c.1 c.2; Ok (v =? DIRTY))
    (grid_cells env)) as (l & Hl & Hmem).
  - intros c Hc. apply elem_of_grid_cells in Hc as [Hx Hy].
    destruct (grid_get_in_bounds env c.1 c.2 Hwf Hx Hy) as (? & v & _ & _ & ->).
    by eexists.
  - exists l. split; [done|]. intros c. rewrite Hmem, elem_of_grid_cells.
    split; intros [Hb Hv]; (split; [done|]).
    + destruct (grid_get (env_grid env) c.1 c.2) as [v| |]; [|done|done].
      cbn [mbind result_bind] in Hv. injection Hv as Hv.
      f_equal. by apply Z.eqb_eq.
    + by rewrite Hv.
Qed.

Lemma elem_of_insert_by key c l c' :
  c' ∈ insert_by key c l <-> c' = c \/ c' ∈ l.
Proof.
  induction l as [|a l IH]; simpl.
  - rewrite list_elem_of_singleton, elem_of_nil. tauto.
  - destruct (key c <=? key a).
    + rewrite !elem_of_cons. tauto.
    + rewrite !elem_of_cons, IH. tauto.
Qed.

Lemma elem_of_sorted_by key l c : c ∈ sorted_by key l <-> c ∈ l.
Proof.
  induction l as [|a l IH]; simpl; [done|].
  rewrite elem_of_insert_by, elem_of_cons, IH. tauto.
Qed.

(** The head of a list sorted by [key] has the least key. *)
Lemma insert_by_head_least key c l :
  (forall t r, l = t :: r -> forall a, a ∈ l -> key t <= key a) ->
  forall t r, insert_by key c l = t :: r ->
  forall a, a ∈ insert_by key c l -> key t <= key a.
Proof.
  intros Hl t r Heq a Ha. apply elem_of_insert_by in Ha.
  destruct l as [|b l]; simpl in Heq.
  - injection Heq as <- <-. destruct Ha as [->|Ha]; [lia|]. by apply elem_of_nil in Ha.
  - specialize (Hl b l eq_refl).
    destruct (Z.leb_spec (key c) (key b)); injection Heq as <- <-.
    + destruct Ha as [->|Ha]; [lia|]. specialize (Hl a Ha). lia.
    + destruct Ha as [->|Ha]; [lia|]. by apply Hl.
Qed.

Lemma sorted_by_head_least key l t r :
  sorted_by key l = t :: r -> forall a, a ∈ l -> key t <= key a.
Proof.
  intros Heq a Ha. apply (elem_of_sorted_by key) in Ha.
  revert t r Heq a Ha. induction l as [|b l IH]; simpl; [done|].
  apply insert_by_head_least. exact IH.
Qed.

(** [_get_nearby_dirt] returns the dirty cells of the box around the agent
    that lie on the grid, one of least Manhattan distance first. *)
Lemma get_nearby_dirt_returns (s : VaccumCleaner) (radius : Z) :
  wf_env (self_env s) ->
  exists l, _get_nearby_dirt s radius = Ok l /\
    (forall c, c ∈ l <->
       in_box s radius c /\ in_bounds (self_env s) c /\
       grid_get (env_grid (self_env s)) c.1 c.2 = Ok DIRTY) /\
    (forall t r, l = t :: r ->
       forall c, c ∈ l -> distance_from s t <= distance_from s c).
Proof.
  intros Hwf. unfold _get_nearby_dirt.
  match goal with
  | |- context [filterM ?p ?l] =>
      destruct (filterM_returns p l) as (near & -> & Hmem)
  end.
  - intros c _.
    destruct ((0 <=? c.1) && (c.1 <? env_size (self_env s)) && (0 <=? c.2) &&
              (c.2 <? env_size (self_env s))) eqn:Hb; [|by eexists].
    apply bounds_check in Hb as [Hx Hy].
    destruct (grid_get_in_bounds _ c.1 c.2 Hwf Hx Hy) as (? & v & _ & _ & ->).
    by eexists.
  - cbn [mbind result_bind]. eexists. split; [reflexivity|]. split.
    + intros c. rewrite elem_of_sorted_by, Hmem. clear Hmem.
      rewrite list_elem_of_bind. unfold in_box, in_bounds. split.
      * intros [(dx & Hc & Hdx) Hv].
        apply list_elem_of_bind in Hc as (dy & Hc & Hdy).
        apply list_elem_of_singleton in Hc as ->.
        apply elem_of_range in Hdx, Hdy. simpl in *.
        destruct ((0 <=? self_x s + dx) && (self_x s + dx <? env_size (self_env s)) &&
                  (0 <=? self_y s + dy) && (self_y s + dy <? env_size (self_env s)))
          eqn:Hb; [|done].
        apply bounds_check in Hb.
        destruct (grid_get (env_grid (self_env s)) (self_x s + dx) (self_y s + dy))
          as [v| |]; [|done|done].
        cbn [mbind result_bind] in Hv. injection Hv as Hv.
        apply Z.eqb_eq in Hv as ->. repeat split; lia.
      * intros ([Hbx Hby] & Hb & Hv). split.
        -- exists (c.1 - self_x s). split; [|apply elem_of_range; lia].
           apply list_elem_of_bind. exists (c.2 - self_y s).
           split; [|apply elem_of_range; lia].
           apply list_elem_of_singleton. destruct c; simpl; f_equal; lia.
        -- apply bounds_check in Hb. rewrite Hb, Hv. done.
    + intros t r Heq c Hc. apply elem_of_sorted_by in Hc.
      by eapply sorted_by_head_least.
Qed.

(** ** The agent: the movement phase *)

Lemma a_star_in_bounds env eps start goal :
  wf_env env ->
  exists p, a_star env eps start goal = Ok p /\ Forall (in_bounds env) p.
Proof.
  intros Hwf. destruct (a_star_returns env eps start goal Hwf) as [p Hp].
  exists p. split; [done|].
  apply a_star_walk in Hp as [Hw _]. by eapply is_walk_in_bounds.
Qed.

Lemma same_frame_refl s : same_frame s s.
Proof. by repeat split. Qed.

(** Taking the next cell of the path moves the agent there and drains the
    battery; with an empty path nothing changes. *)
Lemma follow_path_spec (s : VaccumCleaner) :
  agent_inv s ->
  agent_inv (follow_path s) /\ same_frame s (follow_path s) /\
  match path s with
  | [] => follow_path s = s
  | c :: rest =>
      position (follow_path s) = c /\ path (follow_path s) = rest /\
      battery (follow_path s) = fst (Battery.consume (battery s) None)
  end.
Proof.
  intros (Hwf & Hpos & Hpath). unfold follow_path.
  destruct (path s) as [|c rest] eqn:Hp.
  - split; [|split; [apply same_frame_refl | done]].
    split; [done|]. split; [done|]. by rewrite Hp.
  - inversion Hpath as [|? ? Hc Hrest]; subst.
    split; [|split; [by repeat split | destruct c; by cbv]].
    split; [done|]. split; [by destruct c | done].
Qed.

Lemma set_path_inv (s : VaccumCleaner) (p : list cell) :
  agent_inv s -> Forall (in_bounds (self_env s)) p ->
  agent_inv (set_path s p) /\ same_frame s (set_path s p) /\
  position (set_path s p) = position s /\ battery (set_path s p) = battery s.
Proof.
  intros (Hwf & Hpos & _) Hp. split; [by split; [|split]|].
  split; [by repeat split | done].
Qed.

Lemma same_frame_trans s1 s2 s3 :
  same_frame s1 s2 -> same_frame s2 s3 -> same_frame s1 s3.
Proof.
  intros (? & ? & ? & ? & ? & ? & ?) (? & ? & ? & ? & ? & ? & ?).
  repeat split; congruence.
Qed.

Lemma random_step_returns (d : cell) (s : VaccumCleaner) :
  agent_inv s ->
  exists s1, _random_step d s = Ok s1 /\ agent_inv s1 /\ same_frame s s1.
Proof.
  intros Hinv. pose proof Hinv as (Hwf & Hpos & Hpath). unfold _random_step.
  destruct ((0 <=? self_x s + d.1) && (self_x s + d.1 <? env_size (self_env s)) &&
            (0 <=? self_y s + d.2) && (self_y s + d.2 <? env_size (self_env s)))
    eqn:Hb; [|exists s; by split; [|split; [|apply same_frame_refl]]].
  apply bounds_check in Hb as [Hx Hy].
  destruct (grid_get_in_bounds _ _ _ Hwf Hx Hy) as (? & v & _ & _ & ->).
  cbn [mbind result_bind].
  destruct (negb (v =? OBSTACLE));
    [|exists s; by split; [|split; [|apply same_frame_refl]]].
  eexists. split; [reflexivity|]. split; [|by repeat split].
  split; [done|]. split; [by split | done].
Qed.

Lemma astar_step_returns (s : VaccumCleaner) :
  agent_inv s ->
  exists s1, _astar_step s = Ok s1 /\ agent_inv s1 /\ same_frame s s1.
Proof.
  intros Hinv. pose proof Hinv as (Hwf & Hpos & Hpath). unfold _astar_step.
  assert (exists s0, match path s with
       | [] =>
           dirty_cells ← get_dirty_cells (self_env s);
           match dirty_cells with
           | [] => Ok s
           | c :: l =>
               p ← a_star (self_env s) (epsilon s) (position s)
                          (get_nearest_dirty s c l);
               Ok (set_path s p)
           end
       | _ :: _ => Ok s
       end = Ok s0 /\ agent_inv s0 /\ same_frame s s0) as (s0 & -> & Hinv0 & Hf0).
  { destruct (path s) as [|c0 rest];
      [|exists s; by split; [|split; [|apply same_frame_refl]]].
    destruct (get_dirty_cells_returns _ Hwf) as (l & -> & _).
    cbn [mbind result_bind].
    destruct l as [|c l]; [exists s; by split; [|split; [|apply same_frame_refl]]|].
    destruct (a_star_in_bounds (self_env s) (epsilon s) (position s)
                (get_nearest_dirty s c l) Hwf) as (p & -> & Hp).
    cbn [mbind result_bind]. eexists. split; [reflexivity|].
    destruct (set_path_inv s p Hinv Hp) as (? & ? & _). done. }
  cbn [mbind result_bind]. eexists. split; [reflexivity|].
  destruct (follow_path_spec s0 Hinv0) as (? & ? & _).
  split; [done|]. by eapply same_frame_trans.
Qed.

(** The conservation branch of [_optimized_step]: the agent neither moves
    nor drains its battery; its path is kept, or replaced by the path that
    the search returns towards the first cell of [_get_nearby_dirt]. *)
Lemma optimized_step_conserve (s : VaccumCleaner) :
  agent_inv s -> Battery.current (battery s) < 30 ->
  exists s1 nearby,
    _optimized_step s = Ok s1 /\ agent_inv s1 /\ same_frame s s1 /\
    position s1 = position s /\ battery s1 = battery s /\
    _get_nearby_dirt s 2 = Ok nearby /\
    match nearby with
    | [] => path s1 = path s
    | target :: _ =>
        if path_misses (path s) target
        then a_star (self_env s) (epsilon s) (position s) target = Ok (path s1)
        else path s1 = path s
    end.
Proof.
  intros Hinv Hlow. pose proof Hinv as (Hwf & Hpos & Hpath).
  unfold _optimized_step.
  destruct (Z.ltb_spec (Battery.current (battery s)) 30); [|lia].
  destruct (get_nearby_dirt_returns s 2 Hwf) as (nearby & Hnear & _).
  rewrite Hnear. cbn [mbind result_bind].
  destruct nearby as [|target rest].
  { exists s, []. by repeat (split; [done || apply same_frame_refl|]). }
  destruct (path_misses (path s) target) eqn:Hmiss.
  - destruct (a_star_in_bounds (self_env s) (epsilon s) (position s) target Hwf)
      as (p & Hp & Hb).
    rewrite Hp. cbn [mbind result_bind].
    exists (set_path s p), (target :: rest). split; [done|].
    destruct (set_path_inv s p Hinv Hb) as (? & ? & ? & ?).
    repeat (split; [done|]). by rewrite Hmiss.
  - exists s, (target :: rest).
    repeat (split; [done || apply same_frame_refl|]). by rewrite Hmiss.
Qed.

Lemma optimized_step_returns (s : VaccumCleaner) :
  agent_inv s ->
  exists s1, _optimized_step s = Ok s1 /\ agent_inv s1 /\ same_frame s s1.
Proof.
  intros Hinv.
  destruct (Z.ltb_spec (Battery.current (battery s)) 30) as [Hlow|Hhigh].
  - destruct (optimized_step_conserve s Hinv Hlow) as (s1 & ? & ? & ? & ? & _).
    by exists s1.
  - unfold _optimized_step.
    destruct (Z.ltb_spec (Battery.current (battery s)) 30); [lia|].
    by apply astar_step_returns.
Qed.

(** The movement phase returns on every state the agent can be in, and
    keeps the agent on the grid. *)
Lemma execute_strategy_returns (d : cell) (s : VaccumCleaner) :
  agent_inv s ->
  exists s1, execute_strategy d s = Ok s1 /\ agent_inv s1 /\ same_frame s s1.
Proof.
  intros Hinv. unfold execute_strategy.
  destruct (String.eqb (strategy s) "random"); [by apply random_step_returns|].
  destruct (String.eqb (strategy s) "astar"); [by apply astar_step_returns|].
  destruct (String.eqb (strategy s) "optimized"); [by apply optimized_step_returns|].
  exists s. split; [done|]. split; [done | apply same_frame_refl].
Qed.

(** ** The agent: one step *)

Lemma handle_low_battery_spec (s : VaccumCleaner) :
  agent_inv s ->
  exists s', _handle_low_battery s = Ok s' /\ agent_inv s' /\
    self_env s' = self_env s /\ cleaned s' = cleaned s /\ visited s' = visited s /\
    (position s = charger_pos s ->
       position s' = position s /\
       battery s' = Battery.charge (battery s) /\
       metrics s' = record_step (metrics s) (position s)
                      (Battery.current (Battery.charge (battery s)))
                      "charging" (strategy s)) /\
    (position s <> charger_pos s -> metrics s' = metrics s).
Proof.
  intros Hinv. pose proof Hinv as (Hwf & Hpos & Hpath). unfold _handle_low_battery.
  destruct (decide (position s = charger_pos s)) as [Heq|Hne].
  { eexists. split; [reflexivity|]. split; [by split; [|split]|].
    repeat (split; [done|]). done. }
  assert (exists s0,
    (if path_misses (path s) (charger_pos s)
     then p ← a_star (self_env s) (epsilon s) (position s) (charger_pos s);
          Ok (set_path s p)
     else Ok s) = Ok s0 /\ agent_inv s0 /\ same_frame s s0) as (s0 & -> & Hinv0 & Hf0).
  { destruct (path_misses (path s) (charger_pos s));
      [|exists s; by split; [|split; [|apply same_frame_refl]]].
    destruct (a_star_in_bounds (self_env s) (epsilon s) (position s)
                (charger_pos s) Hwf) as (p & -> & Hp).
    cbn [mbind result_bind]. eexists. split; [reflexivity|].
    destruct (set_path_inv s p Hinv Hp) as (? & ? & _). done. }
  cbn [mbind result_bind]. eexists. split; [reflexivity|].
  destruct (follow_path_spec s0 Hinv0) as (Hinv1 & Hf1 & _).
  destruct (same_frame_trans _ _ _ Hf0 Hf1) as (? & ? & ? & ? & _).
  repeat (split; [done|]). done.
Qed.

(** A step outside the low-battery branch: the movement phase, one "move"
    event, then [clean]. *)
Lemma step_normal_spec (d : cell) (s : VaccumCleaner) :
  agent_inv s -> low_battery_override s = false ->
  exists s1 s',
    execute_strategy d s = Ok s1 /\ agent_inv s1 /\ same_frame s s1 /\
    clean (set_metrics s1
             (record_step (metrics s) (position s1) (Battery.current (battery s1))
                          "move" (strategy s))) = Ok s' /\
    step d s = Ok s'.
Proof.
  intros Hinv Hlow.
  destruct (execute_strategy_returns d s Hinv) as (s1 & Hex & Hinv1 & Hf).
  pose proof Hf as (_ & _ & _ & Hm & Hs & _).
  pose proof Hinv1 as (Hwf1 & Hpos1 & Hpath1).
  destruct (clean_spec (set_metrics s1
              (record_step (metrics s) (position s1) (Battery.current (battery s1))
                           "move" (strategy s)))) as (v & s' & _ & Hclean & _);
    [done|done|].
  exists s1, s'. repeat (split; [done|]).
  unfold step. rewrite Hlow, Hex. cbn [mbind result_bind].
  by rewrite Hm, Hs.
Qed.

(** [step] returns on every state the agent can be in and leaves it in
    such a state: on a square grid, on a cell of the grid, with a pending
    path that stays on the grid. *)
Lemma step_returns (d : cell) (s : VaccumCleaner) :
  agent_inv s -> exists s', step d s = Ok s' /\ agent_inv s'.
Proof.
  intros Hinv. destruct (low_battery_override s) eqn:Hlow.
  - destruct (handle_low_battery_spec s Hinv) as (s' & Hs' & Hinv' & _).
    exists s'. unfold step. by rewrite Hlow.
  - destruct (step_normal_spec d s Hinv Hlow) as (s1 & s' & _ & Hinv1 & _ & Hclean & Hstep).
    exists s'. split; [done|].
    pose proof Hinv1 as (Hwf1 & Hpos1 & Hpath1).
    destruct (clean_spec (set_metrics s1
                (record_step (metrics s) (position s1) (Battery.current (battery s1))
                             "move" (strategy s))))
      as (v & s'' & _ & Hclean' & Hp & _ & Hpa & _ & _ & _ & _ & Hsz & Hwf' & _);
      [done|done|].
    assert (s'' = s') as -> by congruence.
    split; [done|]. split.
    + unfold in_bounds. rewrite Hp, Hsz. exact Hpos1.
    + rewrite Hpa. eapply Forall_impl; [exact Hpath1|].
      intros c Hc. unfold in_bounds. rewrite Hsz. exact Hc.
Qed.

(** C1 (amended).  In every step in which the low-battery branch is not
    taken, once the movement phase is over the agent cleans the cell it
    stands on: a dirty cell becomes clean and [cleaned] grows by one, any
    other cell leaves the grid and [cleaned] as they were, and in both
    cases the position is added to [visited]. *)
Theorem step_cleans_current_cell (d : cell) (s : VaccumCleaner) :
  agent_inv s -> low_battery_override s = false ->
  exists s1 s' v,
    execute_strategy d s = Ok s1 /\
    grid_get (env_grid (self_env s)) (self_x s1) (self_y s1) = Ok v /\
    step d s = Ok s' /\
    position s' = position s1 /\
    visited s' = {[position s1]} ∪ visited s /\
    (v = DIRTY ->
       grid_get (env_grid (self_env s')) (self_x s1) (self_y s1) = Ok CLEAN /\
       cleaned s' = cleaned s + 1) /\
    (v <> DIRTY -> self_env s' = self_env s /\ cleaned s' = cleaned s).
Proof.
  intros Hinv Hlow.
  destruct (step_normal_spec d s Hinv Hlow) as (s1 & s' & Hex & Hinv1 & Hf & Hclean & Hstep).
  pose proof Hf as (He & Hc & Hv & _).
  pose proof Hinv1 as (Hwf1 & Hpos1 & _).
  destruct (clean_spec (set_metrics s1
              (record_step (metrics s) (position s1) (Battery.current (battery s1))
                           "move" (strategy s))))
    as (v & s'' & Hget & Hclean' & Hp & _ & _ & _ & _ & _ & Hvis & _ & _ & Hdirty & Hother);
    [done|done|].
  assert (s'' = s') as -> by congruence.
  simpl in Hget, Hp, Hvis, Hdirty, Hother.
  exists s1, s', v. split; [done|]. split; [by rewrite <- He|].
  split; [done|]. split; [done|]. split; [by rewrite Hvis, Hv|].
  split.
  - intros Hd. destruct (Hdirty Hd) as (? & ? & _). split; [done|]. congruence.
  - intros Hd. destruct (Hother Hd) as (? & ? & _). split; congruence.
Qed.

Lemma wf_sample_env : wf_env sample_env.
Proof. split; [simpl; lia|]. split; [reflexivity|]. repeat constructor. Qed.

Lemma sample_agent_inv (strategy : string) (level : Z) :
  agent_inv (sample_agent strategy level).
Proof.
  split; [exact wf_sample_env|]. split; [|constructor].
  unfold in_bounds. simpl. lia.
Qed.

Lemma step_cleans_current_cell_witness :
  exists s1 s' v,
    execute_strategy (0, 1) (sample_agent "astar" 100) = Ok s1 /\
    grid_get (env_grid sample_env) (self_x s1) (self_y s1) = Ok v /\
    step (0, 1) (sample_agent "astar" 100) = Ok s' /\
    position s' = position s1 /\
    visited s' = {[position s1]} ∪ ∅ /\
    (v = DIRTY ->
       grid_get (env_grid (self_env s')) (self_x s1) (self_y s1) = Ok CLEAN /\
       cleaned s' = 0 + 1) /\
    (v <> DIRTY -> self_env s' = sample_env /\ cleaned s' = 0).
Proof.
  apply (step_cleans_current_cell (0, 1) (sample_agent "astar" 100)).
  - apply sample_agent_inv.
  - reflexivity.
Defined.

(** C1, as stated, fails in the low-battery branch.  The agent of strategy
    "astar" at (0,0) with battery level 20 moves to the dirty cell (0,1) on
    its way to the charger; after the step that cell is still dirty,
    [cleaned] is still 0 and the position is not in [visited]. *)
Lemma step_low_battery_skips_clean :
  exists s',
    step (0, 1) (sample_agent "astar" 20) = Ok s' /\
    low_battery_override (sample_agent "astar" 20) = true /\
    position s' = (0, 1) /\
    grid_get (env_grid (self_env s')) 0 1 = Ok DIRTY /\
    cleaned s' = cleaned (sample_agent "astar" 20) /\
    position s' ∉ visited s'.
Proof.
  exists (mkVac sample_env 0 1 0 1 (Battery.mk 100 19 1 5 81 0) ∅
            [(0, 2); (0, 3); (0, 4); (1, 4); (2, 4); (3, 4); (4, 4)]
            "astar" PerformanceMetrics_init (4, 4)).
  split; [vm_compute; reflexivity|].
  repeat (split; [reflexivity|]).
  simpl. apply not_elem_of_empty.
Qed.

(** In the low-battery branch, away from the charger, a step records no
    event, cleans nothing and visits nothing. *)
Lemma step_navigate_to_charger (d : cell) (s : VaccumCleaner) :
  agent_inv s -> low_battery_override s = true -> position s <> charger_pos s ->
  exists s', step d s = Ok s' /\ metrics s' = metrics s /\
             self_env s' = self_env s /\ cleaned s' = cleaned s /\
             visited s' = visited s.
Proof.
  intros Hinv Hlow Hne.
  destruct (handle_low_battery_spec s Hinv) as (s' & Hs' & _ & He & Hc & Hv & _ & Hm).
  exists s'. unfold step. rewrite Hlow. by rewrite (Hm Hne).
Qed.

(** In the low-battery branch, on the charger, a step charges the battery
    and records one "charging" event. *)
Lemma step_charge_in_place (d : cell) (s : VaccumCleaner) :
  agent_inv s -> low_battery_override s = true -> position s = charger_pos s ->
  exists s', step d s = Ok s' /\ position s' = position s /\
             battery s' = Battery.charge (battery s) /\
             metrics s' = record_step (metrics s) (position s)
                            (Battery.current (Battery.charge (battery s)))
                            "charging" (strategy s).
Proof.
  intros Hinv Hlow Heq.
  destruct (handle_low_battery_spec s Hinv) as (s' & Hs' & _ & _ & _ & _ & Hm & _).
  exists s'. unfold step. rewrite Hlow. split; [done|]. by apply Hm.
Qed.

(** C9, at the failing input.  The agent of strategy "astar" at (0,0) with
    battery level 20 takes the navigate-to-charger branch: it moves to
    (0,1) and drains the battery to 19, and no step event is recorded. *)
Theorem step_navigate_to_charger_records_nothing :
  exists s',
    step (0, 1) (sample_agent "astar" 20) = Ok s' /\
    position s' = (0, 1) /\
    Battery.current (battery s') = 19 /\
    steps_taken (metrics s') = 0 /\
    decisions_made (metrics s') = [] /\
    metrics s' = metrics (sample_agent "astar" 20).
Proof.
  exists (mkVac sample_env 0 1 0 1 (Battery.mk 100 19 1 5 81 0) ∅
            [(0, 2); (0, 3); (0, 4); (1, 4); (2, 4); (3, 4); (4, 4)]
            "astar" PerformanceMetrics_init (4, 4)).
  split; [vm_compute; reflexivity|].
  repeat (split; [reflexivity|]). reflexivity.
Qed.

(** C10.  With the strategy "optimized", when the low-battery branch is not
    taken and the battery level is below 30, the movement phase leaves the
    position and the battery as they were, and so does the whole step.  The
    pending path is kept, or replaced by the whole path that the search
    returns towards the first cell of [_get_nearby_dirt]: a dirty cell of
    the box of radius 2 around the agent, of least Manhattan distance among
    them.  No cell is taken off the path. *)
Theorem optimized_conserves_position_and_battery (d : cell) (s : VaccumCleaner) :
  agent_inv s -> strategy s = "optimized" ->
  low_battery_override s = false -> Battery.current (battery s) < 30 ->
  exists s1 s' nearby,
    execute_strategy d s = Ok s1 /\
    position s1 = position s /\ battery s1 = battery s /\
    _get_nearby_dirt s 2 = Ok nearby /\
    (forall c, c ∈ nearby <->
       in_box s 2 c /\ in_bounds (self_env s) c /\
       grid_get (env_grid (self_env s)) c.1 c.2 = Ok DIRTY) /\
    match nearby with
    | [] => path s1 = path s
    | target :: _ =>
        (forall c, c ∈ nearby -> distance_from s target <= distance_from s c) /\
        if path_misses (path s) target
        then a_star (self_env s) (epsilon s) (position s) target = Ok (path s1)
        else path s1 = path s
    end /\
    step d s = Ok s' /\
    position s' = position s /\ battery s' = battery s /\ path s' = path s1.
Proof.
  intros Hinv Hstrat Hover Hlow.
  destruct (optimized_step_conserve s Hinv Hlow)
    as (s1 & nearby & Hopt & Hinv1 & Hf & Hpos & Hbat & Hnear & Hpath).
  assert (Hex : execute_strategy d s = Ok s1).
  { unfold execute_strategy. rewrite Hstrat. exact Hopt. }
  destruct (step_normal_spec d s Hinv Hover) as (s1' & s' & Hex' & _ & _ & Hclean & Hstep).
  assert (s1' = s1) as -> by congruence.
  pose proof Hinv as (Hwf & _). pose proof Hinv1 as (Hwf1 & Hpos1 & _).
  destruct (get_nearby_dirt_returns s 2 Hwf) as (nearby' & Hnear' & Hmem & Hleast).
  assert (nearby' = nearby) as -> by congruence.
  destruct (clean_spec (set_metrics s1
              (record_step (metrics s) (position s1) (Battery.current (battery s1))
                           "move" (strategy s))))
    as (v & s'' & _ & Hclean' & Hp & Hb & Hpa & _); [done|done|].
  assert (s'' = s') as -> by congruence.
  exists s1, s', nearby. repeat (split; [done|]).
  split.
  { destruct nearby as [|target rest]; [done|]. split; [|done].
    intros c Hc. by eapply Hleast. }
  split; [done|]. split; [by rewrite Hp|]. split; [by rewrite Hb | done].
Qed.

Lemma optimized_conserves_position_and_battery_witness :
  exists s1 s' nearby,
    execute_strategy (0, 1) (sample_agent "optimized" 25) = Ok s1 /\
    position s1 = (0, 0) /\ battery s1 = Battery.mk 100 25 1 5 75 0 /\
    _get_nearby_dirt (sample_agent "optimized" 25) 2 = Ok nearby /\
    (forall c, c ∈ nearby <->
       in_box (sample_agent "optimized" 25) 2 c /\ in_bounds sample_env c /\
       grid_get (env_grid sample_env) c.1 c.2 = Ok DIRTY) /\
    match nearby with
    | [] => path s1 = []
    | target :: _ =>
        (forall c, c ∈ nearby ->
           distance_from (sample_agent "optimized" 25) target <=
           distance_from (sample_agent "optimized" 25) c) /\
        if path_misses [] target
        then a_star sample_env 1 (0, 0) target = Ok (path s1)
        else path s1 = []
    end /\
    step (0, 1) (sample_agent "optimized" 25) = Ok s' /\
    position s' = (0, 0) /\ battery s' = Battery.mk 100 25 1 5 75 0 /\
    path s' = path s1.
Proof.
  apply (optimized_conserves_position_and_battery (0, 1) (sample_agent "optimized" 25)).
  - apply sample_agent_inv.
  - reflexivity.
  - reflexivity.
  - simpl. lia.
Defined.

(** ** Building the environment *)

Lemma grid_set_spec env (x y w : Z) :
  wf_env env -> 0 <= x < env_size env -> 0 <= y < env_size env ->
  exists old g',
    grid_get (env_grid env) x y = Ok old /\
    grid_set (env_grid env) x y w = Ok g' /\
    wf_env (mkEnv (env_size env) g') /\
    (forall x' y', 0 <= x' < env_size env -> 0 <= y' < env_size env ->
       grid_get g' x' y' =
       if decide ((x', y') = (x, y)) then Ok w else grid_get (env_grid env) x' y') /\
    (forall v, (count_cells v g' + indicator (old = v) =
                count_cells v (env_grid env) + indicator (w = v))%nat).
Proof.
  intros Hwf Hx Hy.
  destruct (grid_set_in_bounds env x y w Hwf Hx Hy) as (row & old & Hrow & Hold & Hget & Hset).
  exists old. eexists. split; [done|]. split; [exact Hset|].
  split; [by apply wf_env_insert|]. split.
  - intros x' y' Hx' Hy'. by apply grid_get_insert.
  - intros v. by apply count_cells_insert.
Qed.

Lemma count_cells_zero (v : Z) (g : list (list Z)) :
  (forall row u, row ∈ g -> u ∈ row -> u <> v) -> count_cells v g = 0%nat.
Proof.
  intros Hne. unfold count_cells.
  destruct (filter (fun u => u = v) (concat g)) as [|u l] eqn:Hf; [done|].
  assert (u ∈ filter (fun u => u = v) (concat g)) as Hu by (rewrite Hf; by left).
  apply list_elem_of_filter in Hu as [Huv Hu].
  apply list_elem_of_In, in_concat in Hu as (row & Hrow & Hu).
  apply list_elem_of_In in Hrow, Hu. by destruct (Hne row u Hrow Hu).
Qed.

Lemma count_cells_read env (x y v : Z) :
  wf_env env -> 0 <= x < env_size env -> 0 <= y < env_size env ->
  grid_get (env_grid env) x y = Ok v ->
  (1 <= count_cells v (env_grid env))%nat.
Proof.
  intros Hwf Hx Hy Hget.
  destruct (grid_get_in_bounds env x y Hwf Hx Hy) as (row & v' & Hrow & Hv & Hget').
  assert (v' = v) as -> by congruence.
  unfold count_cells.
  assert (v ∈ filter (fun u => u = v) (concat (env_grid env))) as Hin.
  { apply list_elem_of_filter. split; [done|].
    apply list_elem_of_In, in_concat. exists row.
    split; apply list_elem_of_In; by eapply list_elem_of_lookup_2. }
  destruct (filter (fun u => u = v) (concat (env_grid env))); simpl; [|lia].
  by apply elem_of_nil in Hin.
Qed.

(** The grid drawn by the list comprehension of [Environment.__init__]. *)
Lemma drawn_grid_wf (size : Z) (dirt : Z -> Z -> bool) :
  0 <= size ->
  wf_env (mkEnv size
    (map (fun r => map (fun c => if dirt r c then DIRTY else CLEAN) (range 0 size))
         (range 0 size))).
Proof.
  intros Hs. split; [done|]. simpl. split.
  - rewrite length_map, length_range. lia.
  - apply Forall_forall. intros row Hrow.
    apply list_elem_of_In, in_map_iff in Hrow as (r & <- & _).
    rewrite length_map, length_range. lia.
Qed.

Lemma drawn_grid_no_charger (size : Z) (dirt : Z -> Z -> bool) :
  count_cells CHARGER
    (map (fun r => map (fun c => if dirt r c then DIRTY else CLEAN) (range 0 size))
         (range 0 size)) = 0%nat.
Proof.
  apply count_cells_zero. intros row u Hrow Hu.
  apply list_elem_of_In, in_map_iff in Hrow as (r & <- & _).
  apply list_elem_of_In, in_map_iff in Hu as (c & <- & _).
  by destruct (dirt r c).
Qed.

(** For a size of 4 or more the constructor returns a square grid with one
    charger, in the bottom-right corner. *)
Lemma environment_init_charger (size : Z) (dirt : Z -> Z -> bool) :
  4 <= size ->
  exists env, Environment_init size dirt = Ok env /\
    env_size env = size /\ wf_env env /\
    grid_get (env_grid env) (size - 1) (size - 1) = Ok CHARGER /\
    grid_get (env_grid env) 2 2 = Ok OBSTACLE /\
    count_cells CHARGER (env_grid env) = 1%nat.
Proof.
  intros Hsize. unfold Environment_init.
  pose proof (drawn_grid_wf size dirt ltac:(lia)) as Hwf0.
  pose proof (drawn_grid_no_charger size dirt) as Hc0.
  set (g0 := map _ _) in *.
  destruct (grid_set_spec (mkEnv size g0) 0 0 CLEAN Hwf0)
    as (old0 & g1 & Hget0 & Hset1 & Hwf1 & Hread1 & Hcount1); [simpl; lia.. |].
  simpl in Hset1, Hwf1, Hread1, Hcount1, Hget0. rewrite Hset1. cbn [mbind result_bind].
  assert (Hc1 : count_cells CHARGER g1 = 0%nat).
  { specialize (Hcount1 CHARGER). unfold indicator in Hcount1.
    rewrite (decide_False (P := CLEAN = CHARGER)) in Hcount1 by done.
    destruct (decide (old0 = CHARGER)); lia. }
  destruct (grid_set_spec (mkEnv size g1) (size - 1) (size - 1) CHARGER Hwf1)
    as (old1 & g2 & Hget1 & Hset2 & Hwf2 & Hread2 & Hcount2); [simpl; lia.. |].
  simpl in Hset2, Hwf2, Hread2, Hcount2, Hget1. rewrite Hset2. cbn [mbind result_bind].
  assert (Hc2 : count_cells CHARGER g2 = 1%nat).
  { assert (old1 <> CHARGER) as Hold1.
    { intros ->. pose proof (count_cells_read (mkEnv size g1) (size - 1) (size - 1)
                               CHARGER Hwf1 ltac:(simpl; lia) ltac:(simpl; lia) Hget1) as H.
      simpl in H. lia. }
    specialize (Hcount2 CHARGER). unfold indicator in Hcount2.
    rewrite (decide_False (P := old1 = CHARGER)) in Hcount2 by done.
    rewrite (decide_True (P := CHARGER = CHARGER)) in Hcount2 by done. lia. }
  destruct (grid_set_spec (mkEnv size g2) 2 2 OBSTACLE Hwf2)
    as (old2 & g3 & Hget2 & Hset3 & Hwf3 & Hread3 & Hcount3); [simpl; lia.. |].
  simpl in Hset3, Hwf3, Hread3, Hcount3, Hget2. rewrite Hset3. cbn [mbind result_bind].
  eexists. split; [reflexivity|]. simpl. split; [done|]. split; [done|].
  split.
  { rewrite Hread3 by lia. rewrite decide_False by (intros [=]; lia).
    rewrite Hread2 by lia. by rewrite decide_True. }
  split.
  { rewrite Hread3 by lia. by rewrite decide_True. }
  assert (old2 <> CHARGER) as Hold2.
  { intros ->. rewrite Hread2 in Hget2 by lia.
    rewrite decide_False in Hget2 by (intros [=]; lia).
    pose proof (count_cells_read (mkEnv size g1) 2 2 CHARGER Hwf1
                  ltac:(simpl; lia) ltac:(simpl; lia) Hget2) as H.
    simpl in H. lia. }
  specialize (Hcount3 CHARGER). unfold indicator in Hcount3.
  rewrite (decide_False (P := old2 = CHARGER)) in Hcount3 by done.
  rewrite (decide_False (P := OBSTACLE = CHARGER)) in Hcount3 by done. lia.
Qed.

(** The constructor raises [IndexError] for every size below 3. *)
Lemma environment_init_small (size : Z) (dirt : Z -> Z -> bool) :
  size < 3 -> Environment_init size dirt = Raise IndexError.
Proof.
  intros Hsize.
  destruct (decide (size <= 0)) as [Hneg|Hpos].
  - unfold Environment_init, range.
    replace (seqZ 0 (size - 0)) with (@nil Z); [done|].
    unfold seqZ. by replace (Z.to_nat (size - 0)) with 0%nat by lia.
  - assert (size = 1 \/ size = 2) as [->| ->] by lia; reflexivity.
Qed.

(** C7, at the failing input.  For size 3 the constructor returns a grid
    whose bottom-right corner (2,2) holds the obstacle written over the
    charging station: the grid has no charger cell, whatever the dirt
    drawn. *)
Theorem environment_size_3_has_no_charger (dirt : Z -> Z -> bool) :
  exists env, Environment_init 3 dirt = Ok env /\
    env_size env = 3 /\
    grid_get (env_grid env) (3 - 1) (3 - 1) = Ok OBSTACLE /\
    count_cells CHARGER (env_grid env) = 0%nat.
Proof.
  eexists. split; [reflexivity|]. split; [reflexivity|]. split; [reflexivity|].
  apply count_cells_zero. intros row u Hrow Hu. simpl in Hrow.
  rewrite !elem_of_cons, elem_of_nil in Hrow.
  destruct Hrow as [->|[->|[->|[]]]];
    rewrite !elem_of_cons, elem_of_nil in Hu;
    destruct Hu as [->|[->|[->|[]]]]; try done;
    match goal with |- context [dirt ?r ?c] => by destruct (dirt r c) end.
Qed.

(** A step never writes a charger cell and never removes one: cleaning is
    the only write to the grid, and it turns a dirty cell into a clean
    one. *)
Lemma step_keeps_charger (d : cell) (s : VaccumCleaner) :
  agent_inv s ->
  exists s', step d s = Ok s' /\
    env_size (self_env s') = env_size (self_env s) /\
    count_cells CHARGER (env_grid (self_env s')) =
      count_cells CHARGER (env_grid (self_env s)) /\
    forall c, in_bounds (self_env s) c ->
      grid_get (env_grid (self_env s)) c.1 c.2 = Ok CHARGER ->
      grid_get (env_grid (self_env s')) c.1 c.2 = Ok CHARGER.
Proof.
  intros Hinv. destruct (low_battery_override s) eqn:Hlow.
  - destruct (handle_low_battery_spec s Hinv) as (s' & Hs' & _ & He & _).
    exists s'. unfold step. rewrite Hlow, He. done.
  - destruct (step_normal_spec d s Hinv Hlow)
      as (s1 & s' & _ & Hinv1 & Hf & Hclean & Hstep).
    pose proof Hf as (He & _). pose proof Hinv1 as (Hwf1 & Hpos1 & _).
    destruct (clean_spec (set_metrics s1
                (record_step (metrics s) (position s1) (Battery.current (battery s1))
                             "move" (strategy s))))
      as (v & s'' & Hget & Hclean' & _ & _ & _ & _ & _ & _ & _ & Hsz & _ & Hdirty & Hother);
      [done|done|].
    assert (s'' = s') as -> by congruence.
    simpl in Hget, Hsz, Hdirty, Hother. rewrite He in Hget, Hsz, Hdirty, Hother.
    exists s'. split; [done|]. split; [done|].
    destruct (decide (v = DIRTY)) as [Hv|Hv].
    + destruct (Hdirty Hv) as (_ & _ & _ & Hrest & Hcount).
      split; [by apply Hcount|].
      intros c Hc Hch. rewrite Hrest; [done|done|].
      intros ->. simpl in Hch. rewrite Hget in Hch. injection Hch as ->. done.
    + destruct (Hother Hv) as (-> & _). done.
Qed.

(** ** Construction *)

Lemma clamp_epsilon_ge (eps : Q) : (1 <= clamp_epsilon eps)%Q.
Proof.
  unfold clamp_epsilon. destruct (Qlt_le_dec 1 eps) as [H|H].
  - by apply Qlt_le_weak.
  - apply Qle_refl.
Qed.

(** C8, as stated, fails: the battery constructor checks nothing.  Built
    with capacity 0, or with capacity -5, it returns a battery and raises
    no error. *)
Lemma battery_init_accepts_bad_capacity :
  Battery.init 0 1 5 = Ok (Battery.mk 0 0 1 5 0 0) /\
  Battery.init (-5) 1 5 = Ok (Battery.mk (-5) (-5) 1 5 0 0) /\
  ~ (forall capacity drain_rate charge_rate,
       capacity <= 0 ->
       exists e, Battery.init capacity drain_rate charge_rate = Raise e).
Proof.
  split; [reflexivity|]. split; [reflexivity|].
  intros H. destruct (H 0 1 5) as [e He]; [lia|]. discriminate He.
Qed.

(** C8 (amended).  Neither constructor rejects a configuration.  The
    battery constructor returns a full battery for every capacity, positive
    or not.  The agent constructor returns an agent for every [epsilon] and
    stores [max(1.0, epsilon)]: 1 when [epsilon] is below 1, [epsilon]
    otherwise, so the stored value is never below 1. *)
Theorem constructors_accept_every_configuration :
  (forall capacity drain_rate charge_rate,
     Battery.init capacity drain_rate charge_rate =
     Ok (Battery.mk capacity capacity drain_rate charge_rate 0 0)) /\
  (forall env strat (eps : Q),
     exists s, VaccumCleaner_init env strat eps = Ok s /\
       (1 <= epsilon s)%Q /\
       ((eps < 1)%Q -> epsilon s = 1%Q) /\
       ((1 <= eps)%Q -> (epsilon s == eps)%Q)).
Proof.
  split; [done|]. intros env strat eps. eexists. split; [reflexivity|]. simpl.
  split; [apply clamp_epsilon_ge|]. unfold clamp_epsilon.
  destruct (Qlt_le_dec 1 eps) as [H|H]; split.
  - intros H'. exfalso. apply (Qlt_irrefl 1). by eapply Qlt_trans.
  - intros _. apply Qeq_refl.
  - done.
  - intros H'. by apply Qle_antisym.
Qed.

Lemma constructors_accept_every_configuration_witness :
  Battery.init 0 1 5 = Ok (Battery.mk 0 0 1 5 0 0) /\
  exists s, VaccumCleaner_init sample_env "astar" (1 # 2) = Ok s /\
            epsilon s = 1%Q.
Proof.
  destruct constructors_accept_every_configuration as [Hb Hv].
  split; [apply Hb|].
  destruct (Hv sample_env "astar" (1 # 2)) as (s & Hs & _ & Hlt & _).
  exists s. split; [exact Hs|]. apply Hlt. reflexivity.
Defined.

(** * Further properties *)

(** ** Battery: repeated calls *)

(** X1.  Repeated [consume(a)] with [a >= 0] on a battery whose level is
    not negative: after [n] calls the level is [max(0, current - n * a)],
    so the battery is empty exactly when [current <= n * a]. *)
Theorem consume_n_level (n : nat) (a : Z) (b : Battery.t) :
  0 <= a -> 0 <= Battery.current b ->
  Battery.current (consume_n n a b) = Z.max 0 (Battery.current b - Z.of_nat n * a) /\
  (Battery.is_empty (consume_n n a b) = true <-> Battery.current b <= Z.of_nat n * a).
Proof.
  intros Ha Hb.
  assert (Hlevel : forall m b0, 0 <= Battery.current b0 ->
            Battery.current (consume_n m a b0) =
            Z.max 0 (Battery.current b0 - Z.of_nat m * a)).
  { induction m as [|m IH]; intros b0 Hb0; simpl consume_n; [lia|].
    rewrite IH by (simpl; lia). simpl Battery.current.
    assert (0 <= Z.of_nat m * a) by (apply Z.mul_nonneg_nonneg; lia).
    replace (Z.of_nat (S m) * a) with (Z.of_nat m * a + a) by lia. lia. }
  split; [by apply Hlevel|].
  unfold Battery.is_empty. rewrite Hlevel by done.
  rewrite Z.leb_le. lia.
Qed.

Lemma consume_n_level_witness :
  Battery.current (consume_n 7 30 (Battery.mk 100 100 1 5 0 0)) =
    Z.max 0 (100 - Z.of_nat 7 * 30) /\
  (Battery.is_empty (consume_n 7 30 (Battery.mk 100 100 1 5 0 0)) = true <->
   100 <= Z.of_nat 7 * 30).
Proof.
  apply (consume_n_level 7 30 (Battery.mk 100 100 1 5 0 0)); simpl; lia.
Defined.

(** X2.  Repeated [charge()] with [charge_rate >= 0] on a battery that is
    not above capacity: after [n] calls the level is
    [min(capacity, current + n * charge_rate)], and [charge_cycles] has
    grown by one if the battery started below capacity and reached it, by
    nothing otherwise: one cycle per recharge, however many calls. *)
Theorem charge_n_level (n : nat) (b : Battery.t) :
  0 <= Battery.charge_rate b -> Battery.current b <= Battery.capacity b ->
  Battery.current (charge_n n b) =
    Z.min (Battery.capacity b)
          (Battery.current b + Z.of_nat n * Battery.charge_rate b) /\
  Battery.charge_cycles (charge_n n b) =
    Battery.charge_cycles b +
    (if (Battery.current b <? Battery.capacity b) &&
        (Battery.capacity b <=? Battery.current b + Z.of_nat n * Battery.charge_rate b)
     then 1 else 0).
Proof.
  revert b. induction n as [|n IH]; intros b Hr Hb.
  - simpl charge_n. split; [lia|].
    destruct (Z.ltb_spec (Battery.current b) (Battery.capacity b)),
             (Z.leb_spec (Battery.capacity b)
                         (Battery.current b + Z.of_nat 0 * Battery.charge_rate b));
      simpl; lia.
  - simpl charge_n.
    destruct (IH (Battery.charge b)) as [Hc Hy]; [done | simpl; lia |].
    rewrite Hc, Hy. clear IH Hc Hy.
    destruct b as [cap cur d r tc cc]. unfold Battery.charge. simpl in *.
    assert (0 <= Z.of_nat n * r) by (apply Z.mul_nonneg_nonneg; lia).
    replace (Z.of_nat (S n) * r) with (Z.of_nat n * r + r) by lia.
    split; [lia|].
    destruct (Z.ltb_spec cur cap), (Z.eqb_spec (Z.min cap (cur + r)) cap),
             (Z.ltb_spec (Z.min cap (cur + r)) cap),
             (Z.leb_spec cap (Z.min cap (cur + r) + Z.of_nat n * r)),
             (Z.leb_spec cap (cur + (Z.of_nat n * r + r))); simpl; lia.
Qed.

Lemma charge_n_level_witness :
  Battery.current (charge_n 30 (Battery.mk 100 15 1 5 85 0)) =
    Z.min 100 (15 + Z.of_nat 30 * 5) /\
  Battery.charge_cycles (charge_n 30 (Battery.mk 100 15 1 5 85 0)) =
    0 + (if (15 <? 100) && (100 <=? 15 + Z.of_nat 30 * 5) then 1 else 0).
Proof.
  apply (charge_n_level 30 (Battery.mk 100 15 1 5 85 0)); simpl; lia.
Defined.

Lemma run_calls_fixed (cs : list call) : forall b,
  Battery.capacity (run_calls b cs) = Battery.capacity b /\
  Battery.drain_rate (run_calls b cs) = Battery.drain_rate b /\
  Battery.charge_rate (run_calls b cs) = Battery.charge_rate b.
Proof.
  induction cs as [|c cs IH]; intros b; [done|].
  unfold run_calls in *. simpl. destruct (IH (do_call b c)) as (-> & -> & ->).
  apply do_call_rates.
Qed.

Lemma requested_do_call (cs : list call) (b : Battery.t) (c : call) :
  requested (do_call b c) cs = requested b cs.
Proof.
  induction cs as [|c' cs IH]; [done|]. simpl.
  destruct c' as [amount|]; [|done]. rewrite IH. f_equal.
  apply (call_amount_do_call b c (Consume amount)).
Qed.

(** X3.  Over any sequence of calls, [total_consumed] grows by exactly the
    sum of the amounts requested from [consume] ([charge] never changes
    it, flooring at zero does not reduce it), [charge_cycles] never
    decreases ([consume] never changes it), and the capacity and the two
    rates stay as built. *)
Theorem battery_accounting (b : Battery.t) (cs : list call) :
  Battery.total_consumed (run_calls b cs) = Battery.total_consumed b + requested b cs /\
  Battery.charge_cycles b <= Battery.charge_cycles (run_calls b cs) /\
  Battery.capacity (run_calls b cs) = Battery.capacity b /\
  Battery.drain_rate (run_calls b cs) = Battery.drain_rate b /\
  Battery.charge_rate (run_calls b cs) = Battery.charge_rate b.
Proof.
  split; [|split; [|apply run_calls_fixed]].
  - revert b. induction cs as [|c cs IH]; intros b; [simpl; lia|].
    unfold run_calls in *. simpl foldl. rewrite IH.
    simpl requested. rewrite requested_do_call.
    destruct c as [[a|]|]; simpl; lia.
  - revert b. induction cs as [|c cs IH]; intros b; [simpl; lia|].
    unfold run_calls in *. simpl foldl.
    etrans; [|apply IH].
    destruct c as [amount|]; simpl; [lia|].
    destruct ((Battery.current b <? Battery.capacity b) &&
              (Z.min (Battery.capacity b) (Battery.current b + Battery.charge_rate b)
               =? Battery.capacity b)); lia.
Qed.

(** ** Metrics: the logs *)

Lemma record_step_inv m position battery_level action strategy :
  metrics_inv m -> metrics_inv (record_step m position battery_level action strategy).
Proof.
  intros (Hn & Hb & Hc & Hk). unfold metrics_inv, record_step. simpl.
  rewrite length_app, !fmap_app. simpl.
  split; [lia|]. split; [by rewrite Hb|]. split.
  - rewrite Hc, list_to_set_app_L. simpl.
    rewrite (right_id_L ∅ (∪)). apply (comm_L (∪)).
  - intros k d Hd. apply lookup_app_Some in Hd as [Hd|[Hlen Hd]].
    + by apply Hk.
    + destruct (k - length (decisions_made m))%nat as [|k'] eqn:Hk'; [|done].
      simpl in Hd. injection Hd as <-. simpl. lia.
Qed.

Lemma record_all_inv evs : forall m, metrics_inv m -> metrics_inv (record_all m evs).
Proof.
  induction evs as [|ev evs IH]; intros m Hm; [done|].
  unfold record_all in *. simpl. apply IH.
  destruct ev; [by apply record_step_inv | exact Hm].
Qed.

Lemma record_all_counts evs : forall m,
  steps_taken (record_all m evs) = steps_taken m + count_events is_step_event evs /\
  dirt_cleaned (record_all m evs) =
    dirt_cleaned m + count_events (fun ev => negb (is_step_event ev)) evs.
Proof.
  unfold count_events.
  induction evs as [|ev evs IH]; intros m; [simpl; lia|].
  unfold record_all in *. simpl foldl.
  destruct (IH (record_event m ev)) as [-> ->].
  destruct ev; simpl; lia.
Qed.

(** X4.  From a new recorder, after any sequence of step and cleaning
    events: [steps_taken] is the number of step events and the length of
    both [decisions_made] and [battery_usage]; the k-th decision carries
    step number k (from 1); [battery_usage] and [cells_visited] are the
    battery levels and the positions of the decisions; [dirt_cleaned] is
    the number of cleaning events. *)
Theorem metrics_logs_agree (evs : list metric_event) :
  let m := record_all PerformanceMetrics_init evs in
  steps_taken m = count_events is_step_event evs /\
  Z.of_nat (length (decisions_made m)) = steps_taken m /\
  Z.of_nat (length (battery_usage m)) = steps_taken m /\
  battery_usage m = d_battery <$> decisions_made m /\
  cells_visited m = list_to_set (d_position <$> decisions_made m) /\
  (forall k d, decisions_made m !! k = Some d -> d_step d = Z.of_nat k + 1) /\
  dirt_cleaned m = count_events (fun ev => negb (is_step_event ev)) evs.
Proof.
  intros m.
  assert (metrics_inv m) as (Hn & Hb & Hc & Hk).
  { apply record_all_inv. unfold metrics_inv. simpl.
    split; [done|]. split; [done|]. split; [done|]. intros k d Hd. done. }
  destruct (record_all_counts evs PerformanceMetrics_init) as [Hs Hd].
  fold m in Hs, Hd. simpl in Hs, Hd.
  split; [lia|]. split; [lia|]. split; [by rewrite Hb, length_fmap; lia|].
  split; [done|]. split; [done|]. split; [done|]. lia.
Qed.

Lemma record_all_table evs (name : string) : forall m,
  strategies_tested (record_all m evs) !! name =
  (fun st => mkStats (st_steps st)
                     (st_dirt_cleaned st + count_events (is_cleaning_of name) evs)
                     (st_efficiency st)) <$> strategies_tested m !! name.
Proof.
  unfold count_events.
  induction evs as [|ev evs IH]; intros m.
  - simpl. destruct (strategies_tested m !! name) as [[? ? ?]|]; simpl; [|done].
    do 2 f_equal. lia.
  - unfold record_all in *. simpl foldl. rewrite IH. clear IH.
    destruct ev as [pos lvl act strat|strat]; simpl.
    + done.
    + rewrite lookup_alter.
      destruct (String.eqb_spec strat name) as [->|Hne].
      * rewrite decide_True by done.
        destruct (strategies_tested m !! name) as [[? ? ?]|]; simpl; [|done].
        do 2 f_equal. lia.
      * rewrite decide_False by done. done.
Qed.

(** X5.  The per-strategy table of a recorder keeps its three keys.  After
    any sequence of events from a new recorder, the entry of "random",
    "astar" or "optimized" counts the cleaning events of that strategy,
    with [steps] and [efficiency] still 0; a cleaning event of any other
    strategy name adds no key and is counted in [dirt_cleaned] only. *)
Theorem strategies_table_counts (evs : list metric_event) (name : string) :
  strategies_tested (record_all PerformanceMetrics_init evs) !! name =
  if bool_decide (name ∈ ["random"; "astar"; "optimized"])
  then Some (mkStats 0 (count_events (is_cleaning_of name) evs) 0)
  else None.
Proof.
  rewrite record_all_table. unfold PerformanceMetrics_init. simpl.
  destruct (decide (name = "random")) as [->|H1]; [done|].
  destruct (decide (name = "astar")) as [->|H2]; [done|].
  destruct (decide (name = "optimized")) as [->|H3]; [done|].
  rewrite !lookup_insert_ne by done. rewrite lookup_empty. simpl.
  rewrite bool_decide_eq_false_2; [done|].
  rewrite !elem_of_cons, elem_of_nil. tauto.
Qed.

(** ** The grid: construction and dirty cells *)

Lemma map_is_fmap {A B} (f : A -> B) (l : list A) : map f l = f <$> l.
Proof. induction l as [|a l IH]; [done|]. simpl. rewrite IH. done. Qed.

(** The grid drawn by the list comprehension holds, in each cell, what the
    draw for it said. *)
Lemma drawn_grid_read (size : Z) (dirt : Z -> Z -> bool) (x y : Z) :
  0 <= x < size -> 0 <= y < size ->
  grid_get
    (map (fun r => map (fun c => if dirt r c then DIRTY else CLEAN) (range 0 size))
         (range 0 size)) x y = Ok (if dirt y x then DIRTY else CLEAN).
Proof.
  intros Hx Hy.
  pose proof (drawn_grid_wf size dirt ltac:(lia)) as Hwf.
  destruct (grid_get_in_bounds _ x y Hwf) as (row & v & Hrow & Hv & Hget); [done..|].
  simpl in Hrow, Hget. rewrite Hget. f_equal.
  rewrite map_is_fmap, list_lookup_fmap in Hrow.
  unfold range in Hrow, Hv.
  rewrite (lookup_seqZ_lt 0 (size - 0) (Z.to_nat y)) in Hrow by lia.
  simpl in Hrow. injection Hrow as <-.
  rewrite map_is_fmap, list_lookup_fmap in Hv.
  rewrite (lookup_seqZ_lt 0 (size - 0) (Z.to_nat x)) in Hv by lia.
  simpl in Hv. injection Hv as <-.
  by replace (0 + Z.of_nat (Z.to_nat y)) with y by lia;
     replace (0 + Z.of_nat (Z.to_nat x)) with x by lia.
Qed.

(** For a size of 3 or more the constructor returns a square grid whose
    cells hold what [initial_cell] says. *)
Lemma environment_init_read (size : Z) (dirt : Z -> Z -> bool) :
  3 <= size ->
  exists env, Environment_init size dirt = Ok env /\
    env_size env = size /\ wf_env env /\
    forall x y, 0 <= x < size -> 0 <= y < size ->
      grid_get (env_grid env) x y = Ok (initial_cell size dirt x y).
Proof.
  intros Hsize. unfold Environment_init.
  pose proof (drawn_grid_wf size dirt ltac:(lia)) as Hwf0.
  pose proof (drawn_grid_read size dirt) as Hread0.
  set (g0 := map _ _) in *.
  destruct (grid_set_spec (mkEnv size g0) 0 0 CLEAN Hwf0)
    as (old0 & g1 & _ & Hset1 & Hwf1 & Hread1 & _); [simpl; lia.. |].
  simpl in Hset1, Hwf1, Hread1. rewrite Hset1. cbn [mbind result_bind].
  destruct (grid_set_spec (mkEnv size g1) (size - 1) (size - 1) CHARGER Hwf1)
    as (old1 & g2 & _ & Hset2 & Hwf2 & Hread2 & _); [simpl; lia.. |].
  simpl in Hset2, Hwf2, Hread2. rewrite Hset2. cbn [mbind result_bind].
  destruct (grid_set_spec (mkEnv size g2) 2 2 OBSTACLE Hwf2)
    as (old2 & g3 & _ & Hset3 & Hwf3 & Hread3 & _); [simpl; lia.. |].
  simpl in Hset3, Hwf3, Hread3. rewrite Hset3. cbn [mbind result_bind].
  eexists. split; [reflexivity|]. simpl. split; [done|]. split; [done|].
  intros x y Hx Hy. unfold initial_cell.
  rewrite Hread3 by done.
  destruct (decide ((x, y) = (2, 2))); [done|].
  rewrite Hread2 by done.
  destruct (decide ((x, y) = (size - 1, size - 1))); [done|].
  rewrite Hread1 by done.
  destruct (decide ((x, y) = (0, 0))); [done|].
  by apply Hread0.
Qed.

(** X6.  [Environment(size)] raises [IndexError] for every size below 3.
    For a size of 3 or more it returns a square grid of that size in which
    (2,2) is an obstacle, the bottom-right corner is the charger unless it
    is (2,2), the start (0,0) is clean, and every other cell is dirty
    exactly when its draw said so. *)
Theorem environment_init_cells (size : Z) (dirt : Z -> Z -> bool) :
  (size < 3 -> Environment_init size dirt = Raise IndexError) /\
  (3 <= size ->
   exists env, Environment_init size dirt = Ok env /\
     env_size env = size /\ wf_env env /\
     forall x y, 0 <= x < size -> 0 <= y < size ->
       grid_get (env_grid env) x y = Ok (initial_cell size dirt x y)).
Proof.
  split.
  - apply environment_init_small.
  - apply environment_init_read.
Qed.

Lemma environment_init_cells_witness :
  exists env, Environment_init 5 (fun r c => Z.even (r + c)) = Ok env /\
    env_size env = 5 /\ wf_env env /\
    forall x y, 0 <= x < 5 -> 0 <= y < 5 ->
      grid_get (env_grid env) x y =
      Ok (initial_cell 5 (fun r c => Z.even (r + c)) x y).
Proof.
  apply (environment_init_cells 5 (fun r c => Z.even (r + c))). lia.
Defined.

(** X7.  The grid built for a size of 3 or more has exactly one obstacle
    cell; it has exactly one charger cell when the size is 4 or more. *)
Theorem environment_init_special_cells (size : Z) (dirt : Z -> Z -> bool) :
  3 <= size ->
  exists env, Environment_init size dirt = Ok env /\
    count_cells OBSTACLE (env_grid env) = 1%nat /\
    (4 <= size -> count_cells CHARGER (env_grid env) = 1%nat /\
                  grid_get (env_grid env) (size - 1) (size - 1) = Ok CHARGER).
Proof.
  intros Hsize.
  assert (Hobst : exists env, Environment_init size dirt = Ok env /\
                    count_cells OBSTACLE (env_grid env) = 1%nat).
  { unfold Environment_init.
    pose proof (drawn_grid_wf size dirt ltac:(lia)) as Hwf0.
    assert (Hc0 : count_cells OBSTACLE
              (map (fun r => map (fun c => if dirt r c then DIRTY else CLEAN)
                                 (range 0 size)) (range 0 size)) = 0%nat).
    { apply count_cells_zero. intros row u Hrow Hu.
      apply list_elem_of_In, in_map_iff in Hrow as (r & <- & _).
      apply list_elem_of_In, in_map_iff in Hu as (c & <- & _).
      by destruct (dirt r c). }
    set (g0 := map _ _) in *.
    destruct (grid_set_spec (mkEnv size g0) 0 0 CLEAN Hwf0)
      as (old0 & g1 & _ & Hset1 & Hwf1 & _ & Hcount1); [simpl; lia.. |].
    simpl in Hset1, Hwf1, Hcount1. rewrite Hset1. cbn [mbind result_bind].
    destruct (grid_set_spec (mkEnv size g1) (size - 1) (size - 1) CHARGER Hwf1)
      as (old1 & g2 & _ & Hset2 & Hwf2 & _ & Hcount2); [simpl; lia.. |].
    simpl in Hset2, Hwf2, Hcount2. rewrite Hset2. cbn [mbind result_bind].
    destruct (grid_set_spec (mkEnv size g2) 2 2 OBSTACLE Hwf2)
      as (old2 & g3 & Hget2 & Hset3 & Hwf3 & _ & Hcount3); [simpl; lia.. |].
    simpl in Hset3, Hwf3, Hcount3, Hget2. rewrite Hset3. cbn [mbind result_bind].
    eexists. split; [reflexivity|]. simpl.
    specialize (Hcount1 OBSTACLE). specialize (Hcount2 OBSTACLE).
    specialize (Hcount3 OBSTACLE). unfold indicator in *.
    rewrite (decide_False (P := CLEAN = OBSTACLE)) in Hcount1 by done.
    rewrite (decide_False (P := CHARGER = OBSTACLE)) in Hcount2 by done.
    rewrite (decide_True (P := OBSTACLE = OBSTACLE)) in Hcount3 by done.
    assert (Hc2 : count_cells OBSTACLE g2 = 0%nat)
      by (destruct (decide (old0 = OBSTACLE)), (decide (old1 = OBSTACLE)); lia).
    destruct (decide (old2 = OBSTACLE)) as [->|_]; [|lia].
    pose proof (count_cells_read (mkEnv size g2) 2 2 OBSTACLE Hwf2
                  ltac:(simpl; lia) ltac:(simpl; lia) Hget2) as H.
    simpl in H. lia. }
  destruct Hobst as (env & Henv & Hcount).
  exists env. split; [done|]. split; [done|]. intros H4.
  destruct (environment_init_charger size dirt H4) as (env' & Henv' & _ & _ & Hc & _ & Hn).
  assert (env' = env) as -> by congruence. done.
Qed.

Lemma environment_init_special_cells_witness :
  exists env, Environment_init 5 (fun _ _ => true) = Ok env /\
    count_cells OBSTACLE (env_grid env) = 1%nat /\
    (4 <= 5 -> count_cells CHARGER (env_grid env) = 1%nat /\
               grid_get (env_grid env) (5 - 1) (5 - 1) = Ok CHARGER).
Proof.
  apply (environment_init_special_cells 5 (fun _ _ => true)). lia.
Defined.

Lemma filterM_sublist {A} (p : A -> result bool) (l : list A) : forall r,
  filterM p l = Ok r -> r `sublist_of` l.
Proof.
  induction l as [|a l IH]; intros r Hr; simpl in Hr.
  - injection Hr as <-. constructor.
  - destruct (p a) as [b| |]; [|done|done]. cbn [mbind result_bind] in Hr.
    destruct (filterM p l) as [r'| |]; [|done|done].
    cbn [mbind result_bind] in Hr. injection Hr as <-.
    destruct b; constructor; by apply IH.
Qed.

Lemma NoDup_grid_cells env : NoDup (grid_cells env).
Proof.
  unfold grid_cells. apply NoDup_bind.
  - intros y1 y2 c _ _ H1 H2.
    apply list_elem_of_bind in H1 as (x1 & H1 & _).
    apply list_elem_of_bind in H2 as (x2 & H2 & _).
    apply list_elem_of_singleton in H1, H2. congruence.
  - intros y _. apply NoDup_bind.
    + intros x1 x2 c _ _ H1 H2. apply list_elem_of_singleton in H1, H2. congruence.
    + intros x _. apply NoDup_singleton.
    + apply NoDup_seqZ.
  - apply NoDup_seqZ.
Qed.

Lemma cells_rows_Forall2 (Q : Z -> Z -> Z -> Prop) (xs : list Z) :
  forall (ys : list Z) (rows : list (list Z)),
  Forall2 (fun y row => Forall2 (fun x v => Q x y v) xs row) ys rows ->
  Forall2 (fun (c : cell) v => Q c.1 c.2 v)
          (y ← ys; x ← xs; [(x, y)]) (concat rows).
Proof.
  intros ys rows Hrows.
  induction Hrows as [|y row ys' rows' Hrow _ IH]; [constructor|].
  rewrite bind_cons. simpl concat. apply Forall2_app; [|exact IH].
  clear IH. induction Hrow as [|x v xs' vs Hxv _ IH]; [constructor|].
  rewrite bind_cons. simpl. constructor; [exact Hxv | exact IH].
Qed.

(** The cells of the grid, row by row, read the rows of the grid, one
    after the other. *)
Lemma grid_cells_read env :
  wf_env env ->
  Forall2 (fun (c : cell) v => grid_get (env_grid env) c.1 c.2 = Ok v)
          (grid_cells env) (concat (env_grid env)).
Proof.
  intros Hwf.
  assert (Hrows : Forall2
    (fun y row => Forall2 (fun x v => grid_get (env_grid env) x y = Ok v)
                          (range 0 (env_size env)) row)
    (range 0 (env_size env)) (env_grid env)).
  { pose proof Hwf as (Hs & Hlen & Hall).
    apply Forall2_same_length_lookup_2; [rewrite length_range; lia|].
    intros i y row Hy Hrow. apply lookup_seqZ in Hy as [-> Hi].
    assert (Z.of_nat (length row) = env_size env) as Hlr
      by (by apply (proj1 (Forall_lookup _ _) Hall i row)).
    apply Forall2_same_length_lookup_2; [rewrite length_range; lia|].
    intros j x v Hx Hv. apply lookup_seqZ in Hx as [-> Hj].
    destruct (grid_get_in_bounds env (0 + Z.of_nat j) (0 + Z.of_nat i) Hwf)
      as (row' & v' & Hrow' & Hv' & ->); [lia|lia|].
    replace (Z.to_nat (0 + Z.of_nat i)) with i in Hrow' by lia.
    replace (Z.to_nat (0 + Z.of_nat j)) with j in Hv' by lia.
    congruence. }
  unfold grid_cells.
  by apply (cells_rows_Forall2
              (fun x y v => grid_get (env_grid env) x y = Ok v)).
Qed.

Lemma filterM_count (get : cell -> result Z) (w : Z) (cells : list cell) (vals : list Z) :
  Forall2 (fun c v => get c = Ok v) cells vals ->
  exists r, filterM (fun c => v ← get c; Ok (v =? w)) cells = Ok r /\
            length r = length (filter (fun u => u = w) vals).
Proof.
  induction 1 as [|c v cells vals Hc _ (r & Hr & Hlen)].
  - by exists [].
  - cbn [filterM]. rewrite Hc. cbn [mbind result_bind]. rewrite Hr.
    cbn [mbind result_bind]. eexists. split; [reflexivity|].
    rewrite filter_cons. destruct (Z.eqb_spec v w) as [->|Hne].
    + rewrite decide_True by done. simpl. by rewrite Hlen.
    + by rewrite decide_False.
Qed.

(** X8.  On a square grid [get_dirty_cells] returns, without raising, the
    cells of the grid that hold 1: each of them, once, and no other; their
    number is the number of 1s in the grid. *)
Theorem get_dirty_cells_exact (env : Environment) :
  wf_env env ->
  exists l, get_dirty_cells env = Ok l /\
    (forall c, c ∈ l <->
       in_bounds env c /\ grid_get (env_grid env) c.1 c.2 = Ok DIRTY) /\
    NoDup l /\
    length l = count_cells DIRTY (env_grid env).
Proof.
  intros Hwf.
  destruct (get_dirty_cells_returns env Hwf) as (l & Hl & Hmem).
  exists l. split; [done|]. split; [done|]. split.
  - eapply sublist_NoDup; [apply NoDup_grid_cells|].
    eapply filterM_sublist. exact Hl.
  - destruct (filterM_count (fun c => grid_get (env_grid env) c.1 c.2) DIRTY
                _ _ (grid_cells_read env Hwf)) as (r & Hr & Hlen).
    unfold get_dirty_cells in Hl. fold (grid_cells env) in Hl.
    assert (r = l) as -> by congruence. exact Hlen.
Qed.

Lemma get_dirty_cells_exact_witness :
  exists l, get_dirty_cells sample_env = Ok l /\
    (forall c, c ∈ l <->
       in_bounds sample_env c /\ grid_get (env_grid sample_env) c.1 c.2 = Ok DIRTY) /\
    NoDup l /\
    length l = count_cells DIRTY (env_grid sample_env).
Proof. apply (get_dirty_cells_exact sample_env). exact wf_sample_env. Defined.

(** ** The search: what a returned path is *)

Lemma heuristic_edge env (c c' goal : cell) :
  edge env c c' -> heuristic c goal <= 1 + heuristic c' goal.
Proof.
  intros [(d & Hd & ->) _]. unfold heuristic, directions in *.
  rewrite !elem_of_cons, elem_of_nil in Hd. simpl.
  destruct Hd as [->|[->|[->|[->|[]]]]]; simpl; lia.
Qed.

Lemma walk_length_bound env (p : list cell) : forall c goal,
  is_walk env c p -> last (c :: p) = Some goal ->
  heuristic c goal <= Z.of_nat (length p).
Proof.
  induction p as [|c' p IH]; intros c goal Hw Hl.
  - simpl in Hl. injection Hl as ->. unfold heuristic. simpl. lia.
  - destruct Hw as [He Hw]. rewrite last_cons_cons in Hl.
    specialize (IH c' goal Hw Hl).
    pose proof (heuristic_edge env c c' goal He). simpl length. lia.
Qed.

Lemma is_walk_passable env (p : list cell) : forall c,
  is_walk env c p -> Forall (passable env) p.
Proof.
  induction p as [|a p IH]; intros c Hw; [constructor|].
  destruct Hw as [[_ Hp] Hw]. constructor; [done|]. by eapply IH.
Qed.

(** X9.  On a square grid [a_star] returns, within its iteration budget
    and without raising, a path that is a sequence of moves (one step up,
    down, left or right at a time) from the start through cells of the
    grid that are not obstacles.  A non-empty path ends at the goal and has
    at least as many moves as the Manhattan distance from start to goal. *)
Theorem a_star_path_sound (env : Environment) (eps : Q) (start goal : cell) :
  wf_env env ->
  exists p, a_star env eps start goal = Ok p /\
    is_walk env start p /\
    Forall (passable env) p /\
    (p <> [] -> last p = Some goal /\
                heuristic start goal <= Z.of_nat (length p)).
Proof.
  intros Hwf. destruct (a_star_returns env eps start goal Hwf) as [p Hp].
  exists p. split; [done|].
  destruct (a_star_walk env eps start goal p Hp) as [Hw Hl].
  split; [done|]. split; [by eapply is_walk_passable|].
  intros Hne. split; [by apply Hl|].
  apply (walk_length_bound env); [done|].
  destruct p as [|c p]; [done|]. rewrite last_cons_cons. by apply Hl.
Qed.

Lemma a_star_path_sound_witness :
  exists p, a_star sample_env 2 (0, 0) (4, 4) = Ok p /\
    is_walk sample_env (0, 0) p /\
    Forall (passable sample_env) p /\
    (p <> [] -> last p = Some (4, 4) /\
                heuristic (0, 0) (4, 4) <= Z.of_nat (length p)).
Proof. apply (a_star_path_sound sample_env 2 (0, 0) (4, 4)). exact wf_sample_env. Defined.

(** ** The search: it finds the goal when there is a way *)

Section search_complete.

Variable env : Environment.
Variable eps : Q.
Variable goal : cell.

(** The inner loop keeps the entries it was given and adds one for every
    move from [current] into a cell not yet expanded. *)
Lemma push_neighbors_complete seen g current p ds : forall open_set,
  match push_neighbors env eps goal seen g current p ds open_set with
  | Ok open_set' =>
      (forall e, e ∈ open_set -> e ∈ open_set') /\
      forall d, d ∈ ds ->
        passable env (current.1 + d.1, current.2 + d.2) ->
        (current.1 + d.1, current.2 + d.2) ∉ seen ->
        exists e, e ∈ open_set' /\ e_cell e = (current.1 + d.1, current.2 + d.2)
  | _ => True
  end.
Proof.
  induction ds as [|d ds IH]; intros open_set; cbn [push_neighbors].
  { split; [done|]. intros d Hd. by apply elem_of_nil in Hd. }
  set (nx := current.1 + d.1). set (ny := current.2 + d.2).
  assert (Hskip : ~ (passable env (nx, ny) /\ (nx, ny) ∉ seen) ->
    match push_neighbors env eps goal seen g current p ds open_set with
    | Ok open_set' =>
        (forall e, e ∈ open_set -> e ∈ open_set') /\
        forall d0, d0 ∈ d :: ds ->
          passable env (current.1 + d0.1, current.2 + d0.2) ->
          (current.1 + d0.1, current.2 + d0.2) ∉ seen ->
          exists e, e ∈ open_set' /\ e_cell e = (current.1 + d0.1, current.2 + d0.2)
    | _ => True
    end).
  { intros Hno. specialize (IH open_set).
    destruct (push_neighbors env eps goal seen g current p ds open_set); [|done|done].
    destruct IH as [Hkeep Hnew]. split; [done|].
    intros d0 Hd0 Hp Hs. apply elem_of_cons in Hd0 as [->|Hd0]; [|by apply Hnew].
    exfalso. by apply Hno. }
  destruct ((0 <=? nx) && (nx <? env_size env) && (0 <=? ny) && (ny <? env_size env))
    eqn:Hb.
  2: { apply Hskip. intros [[Hin _] _]. unfold in_bounds in Hin. simpl in Hin.
       apply bounds_check in Hin. congruence. }
  destruct (grid_get (env_grid env) nx ny) as [v| |] eqn:Hget;
    cbn [mbind result_bind]; [|done|done].
  destruct (negb (v =? OBSTACLE)) eqn:Hfree.
  2: { apply Hskip. intros [[_ (v' & Hv' & Hne)] _]. simpl in Hv'.
       assert (v' = v) as -> by congruence.
       apply negb_false_iff, Z.eqb_eq in Hfree. done. }
  cbv zeta. destruct (bool_decide ((nx, ny) ∉ seen)) eqn:Hnew.
  2: { apply Hskip. intros [_ Hs]. by apply bool_decide_eq_false in Hnew. }
  match goal with
  | |- context [push_neighbors _ _ _ _ _ _ _ _ (heappush _ ?e0)] => set (new := e0)
  end.
  specialize (IH (heappush open_set new)).
  destruct (push_neighbors env eps goal seen g current p ds (heappush open_set new));
    [|done|done].
  destruct IH as [Hkeep Hmore]. split.
  - intros e He. apply Hkeep, elem_of_heappush. by right.
  - intros d0 Hd0 Hp Hs. apply elem_of_cons in Hd0 as [->|Hd0]; [|by apply Hmore].
    exists new. split; [|done]. apply Hkeep, elem_of_heappush. by left.
Qed.

Lemma closed_reachable (cells : gset cell) (c c' : cell) :
  reachable env c c' -> c ∈ cells ->
  (forall a b, a ∈ cells -> edge env a b -> b ∈ cells) -> c' ∈ cells.
Proof.
  intros Hr Hc Hclosed. induction Hr as [|a b b' Hab _ IH]; [done|].
  apply IH. by eapply Hclosed.
Qed.

Variable start : cell.
Variable P : entry -> Prop.
Hypothesis P_edge : forall e e',
  P e -> edge env (e_cell e) (e_cell e') ->
  e_g e' = e_g e + 1 -> e_path e' = e_path e ++ [e_cell e'] -> P e'.
Hypothesis goal_reachable : reachable env start goal.

(** While the goal has not been expanded and every move out of an expanded
    cell leads to an expanded cell or to a cell waiting in the open set, the
    loop cannot run out of entries: it returns the path of an entry for the
    goal. *)
Lemma a_star_loop_complete fuel : forall open_set seen,
  (forall e, e ∈ open_set -> P e) ->
  (start ∈ seen \/ exists e, e ∈ open_set /\ e_cell e = start) ->
  (forall c c', c ∈ seen -> edge env c c' ->
     c' ∈ seen \/ exists e, e ∈ open_set /\ e_cell e = c') ->
  goal ∉ seen ->
  match a_star_loop fuel env eps goal open_set seen with
  | Ok p => exists e, P e /\ e_cell e = goal /\ p = drop 1 (e_path e)
  | _ => True
  end.
Proof.
  induction fuel as [|fuel IH]; intros open_set seen HP Hstart Hclosed Hgoal; [done|].
  cbn [a_star_loop]. destruct open_set as [|e open_set]; cbn [heappop].
  { exfalso. apply Hgoal.
    assert (Hs : start ∈ seen).
    { destruct Hstart as [?|(e & He & _)]; [done|]. by apply elem_of_nil in He. }
    apply (closed_reachable seen start goal goal_reachable Hs).
    intros c c' Hc He.
    destruct (Hclosed c c' Hc He) as [?|(e & He' & _)]; [done|].
    by apply elem_of_nil in He'. }
  destruct (decide (e_cell e = goal)) as [Hg|Hg].
  { exists e. split; [apply HP; by left | done]. }
  destruct (decide (e_cell e ∈ seen)) as [Hseen|Hseen].
  { apply IH.
    - intros e' He'. apply HP. by right.
    - destruct Hstart as [?|(e' & He' & Hc)]; [by left|].
      apply elem_of_cons in He' as [->|He']; [left; by rewrite <- Hc|].
      right. by exists e'.
    - intros c c' Hc Hcc'.
      destruct (Hclosed c c' Hc Hcc') as [?|(e' & He' & Hc')]; [by left|].
      apply elem_of_cons in He' as [->|He']; [left; by rewrite <- Hc'|].
      right. by exists e'.
    - done. }
  pose proof (push_neighbors_spec env eps goal ({[e_cell e]} ∪ seen) (e_g e) (e_cell e)
                (e_path e) directions open_set) as Hsound.
  pose proof (push_neighbors_complete ({[e_cell e]} ∪ seen) (e_g e) (e_cell e)
                (e_path e) directions open_set) as Hcompl.
  destruct (push_neighbors env eps goal ({[e_cell e]} ∪ seen) (e_g e) (e_cell e)
              (e_path e) directions open_set) as [open_set'| |];
    cbn [mbind result_bind]; [|done|done].
  destruct Hsound as [_ Hin]. destruct Hcompl as [Hkeep Hnew].
  assert (Hwait : forall c', (c' ∈ seen \/ exists e', e' ∈ e :: open_set /\ e_cell e' = c') ->
            c' ∈ {[e_cell e]} ∪ seen \/ exists e', e' ∈ open_set' /\ e_cell e' = c').
  { intros c' [?|(e' & He' & Hc')].
    - left. apply elem_of_union. by right.
    - apply elem_of_cons in He' as [->|He'].
      + left. apply elem_of_union. left. by apply elem_of_singleton.
      + right. exists e'. split; [by apply Hkeep | done]. }
  apply IH.
  - intros e' He'. destruct (Hin e' He') as [?|(d & Hd & Hc & Hp & Hg' & Hpath)].
    + apply HP. by right.
    + apply (P_edge e e'); [apply HP; by left| |done|done].
      split; [|done]. exists d. by rewrite Hc.
  - by apply Hwait.
  - intros c c' Hc Hcc'. apply elem_of_union in Hc as [Hc|Hc].
    + apply elem_of_singleton in Hc as ->.
      destruct Hcc' as [(d & Hd & ->) Hp].
      destruct (decide ((((e_cell e).1 + d.1, (e_cell e).2 + d.2) : cell)
                        ∈ {[e_cell e]} ∪ seen)) as [?|Hnot]; [by left|].
      right. by apply Hnew.
    + apply Hwait. by apply (Hclosed c c').
  - intros Hin'. apply elem_of_union in Hin' as [Hin'|Hin']; [|done].
    apply elem_of_singleton in Hin'. congruence.
Qed.

End search_complete.

(** When the goal differs from the start and can be reached from it, the
    search returns a non-empty path of moves that ends at the goal. *)
Lemma a_star_reaches (env : Environment) (eps : Q) (start goal : cell) :
  wf_env env -> start <> goal -> reachable env start goal ->
  exists p, a_star env eps start goal = Ok p /\
    p <> [] /\ is_walk env start p /\ last p = Some goal.
Proof.
  intros Hwf Hne Hreach.
  destruct (a_star_returns env eps start goal Hwf) as [p Hp].
  exists p. split; [done|].
  destruct (a_star_walk env eps start goal p Hp) as [Hw Hl].
  assert (p <> []) as Hp'.
  { pose proof (a_star_loop_complete env eps goal start
      (fun e => exists rest, e_path e = start :: rest /\
                             last (start :: rest) = Some (e_cell e))) as Hc.
    unfold a_star in Hp.
    specialize (Hc ltac:(
      intros e e' (rest & Hpath & Hlast) _ _ Hpath';
      exists (rest ++ [e_cell e']); split; [by rewrite Hpath', Hpath|];
      change (start :: rest ++ [e_cell e']) with ((start :: rest) ++ [e_cell e']);
      by rewrite last_snoc) Hreach (a_star_fuel env)
      (heappush [] (mkEntry (inject_Z (0 + heuristic start goal)) 0 start [start])) ∅).
    rewrite Hp in Hc.
    destruct Hc as (e & (rest & Hpath & Hlast) & Hg & ->).
    - intros e He. apply list_elem_of_singleton in He as ->. by exists [].
    - right. eexists. split; [by apply list_elem_of_singleton|]. done.
    - intros c c' Hc. by apply not_elem_of_empty in Hc.
    - apply not_elem_of_empty.
    - rewrite Hpath. simpl. rewrite drop_0. intros ->.
      simpl in Hlast. congruence. }
  split; [done|]. split; [done|]. by apply Hl.
Qed.

(** X10.  On a square grid [a_star] returns the empty path exactly when
    the start is the goal or the goal cannot be reached from the start by
    moves through cells that are not obstacles, whatever the weight
    [epsilon]; otherwise it returns a non-empty path of such moves from the
    start that ends at the goal. *)
Theorem a_star_finds_reachable_goal (env : Environment) (eps : Q) (start goal : cell) :
  wf_env env ->
  exists p, a_star env eps start goal = Ok p /\
    (p = [] <-> start = goal \/ ~ reachable env start goal) /\
    (p <> [] -> is_walk env start p /\ last p = Some goal).
Proof.
  intros Hwf. destruct (a_star_returns env eps start goal Hwf) as [p Hp].
  exists p. split; [done|]. split; [split|].
  - intros ->. destruct (decide (start = goal)) as [?|Hne]; [by left|].
    right. intros Hreach.
    destruct (a_star_reaches env eps start goal Hwf Hne Hreach) as (p & Hp' & Hnil & _).
    congruence.
  - intros [Heq|Hnr].
    + pose proof (a_star_at_goal env eps start goal Heq). congruence.
    + pose proof (a_star_unreachable env eps start goal Hwf Hnr). congruence.
  - intros Hne. destruct (a_star_walk env eps start goal p Hp) as [Hw Hl].
    split; [done | by apply Hl].
Qed.

Lemma sample_env_corner_reachable : reachable sample_env (0, 0) (4, 4).
Proof.
  assert (Hstep : forall (c : cell) d, d ∈ directions ->
            passable sample_env (c.1 + d.1, c.2 + d.2) ->
            edge sample_env c (c.1 + d.1, c.2 + d.2)).
  { intros c d Hd Hp. split; [by exists d | done]. }
  assert (Hfree : forall x y v, 0 <= x < 5 -> 0 <= y < 5 ->
            grid_get (env_grid sample_env) x y = Ok v -> v <> OBSTACLE ->
            passable sample_env (x, y)).
  { intros x y v Hx Hy Hv Hne. split; [by split|]. by exists v. }
  eapply rtc_l; [apply (Hstep (0, 0) (0, 1)); [unfold directions; repeat constructor|]; by eapply (Hfree 0 1 1)|].
  eapply rtc_l; [apply (Hstep (0, 1) (0, 1)); [unfold directions; repeat constructor|]; by eapply (Hfree 0 2 0)|].
  eapply rtc_l; [apply (Hstep (0, 2) (0, 1)); [unfold directions; repeat constructor|]; by eapply (Hfree 0 3 0)|].
  eapply rtc_l; [apply (Hstep (0, 3) (0, 1)); [unfold directions; repeat constructor|]; by eapply (Hfree 0 4 0)|].
  eapply rtc_l; [apply (Hstep (0, 4) (1, 0)); [unfold directions; repeat constructor|]; by eapply (Hfree 1 4 0)|].
  eapply rtc_l; [apply (Hstep (1, 4) (1, 0)); [unfold directions; repeat constructor|]; by eapply (Hfree 2 4 0)|].
  eapply rtc_l; [apply (Hstep (2, 4) (1, 0)); [unfold directions; repeat constructor|]; by eapply (Hfree 3 4 0)|].
  eapply rtc_l; [apply (Hstep (3, 4) (1, 0)); [unfold directions; repeat constructor|]; by eapply (Hfree 4 4 2)|].
  apply rtc_refl.
Qed.

Lemma a_star_finds_reachable_goal_witness :
  exists p, a_star sample_env 3 (0, 0) (4, 4) = Ok p /\
    (p = [] <-> ((0, 0) : cell) = (4, 4) \/ ~ reachable sample_env (0, 0) (4, 4)) /\
    (p <> [] -> is_walk sample_env (0, 0) p /\ last p = Some (4, 4)).
Proof.
  apply (a_star_finds_reachable_goal sample_env 3 (0, 0) (4, 4)).
  exact wf_sample_env.
Defined.

(** ** The agent: choosing a target *)

Lemma min_by_spec (key : cell -> Z) (l : list cell) : forall best,
  min_by key best l ∈ best :: l /\
  (forall c, c ∈ best :: l -> key (min_by key best l) <= key c) /\
  exists l1 l2, best :: l = l1 ++ min_by key best l :: l2 /\
                forall c, c ∈ l1 -> key (min_by key best l) < key c.
Proof.
  induction l as [|c l IH]; intros best; simpl.
  - split; [by left|]. split.
    + intros c Hc. apply list_elem_of_singleton in Hc as ->. lia.
    + exists [], []. split; [done|]. intros c Hc. by apply elem_of_nil in Hc.
  - destruct (Z.ltb_spec (key c) (key best)) as [Hlt|Hge].
    + destruct (IH c) as (Hin & Hmin & l1 & l2 & Heq & Hfirst).
      split; [by right|]. split.
      * intros c' Hc'. apply elem_of_cons in Hc' as [->|Hc']; [|by apply Hmin].
        specialize (Hmin c ltac:(by left)). lia.
      * exists (best :: l1), l2. split; [by rewrite Heq|].
        intros c' Hc'. apply elem_of_cons in Hc' as [->|Hc']; [|by apply Hfirst].
        specialize (Hmin c ltac:(by left)). lia.
    + destruct (IH best) as (Hin & Hmin & l1 & l2 & Heq & Hfirst).
      split.
      { apply elem_of_cons in Hin as [->|Hin]; [by left|]. right. by right. }
      split.
      * intros c' Hc'. apply elem_of_cons in Hc' as [->|Hc']; [apply Hmin; by left|].
        apply elem_of_cons in Hc' as [->|Hc']; [|apply Hmin; by right].
        specialize (Hmin best ltac:(by left)). lia.
      * destruct l1 as [|b l1].
        -- simpl in Heq. injection Heq; intros Hl Hb.
           exists [], (c :: l2). split; [simpl; congruence|].
           intros c' Hc'. by apply elem_of_nil in Hc'.
        -- simpl in Heq. injection Heq; intros Hl Hb. subst b.
           exists (best :: c :: l1), l2. split; [simpl; do 2 f_equal; exact Hl|].
           intros c' Hc'. apply elem_of_cons in Hc' as [->|Hc']; [apply Hfirst; by left|].
           apply elem_of_cons in Hc' as [->|Hc']; [|apply Hfirst; by right].
           specialize (Hfirst best ltac:(by left)). lia.
Qed.

(** X11.  [get_nearest_dirty] returns a cell of the list it is given, at
    the least Manhattan distance from the agent among the cells of the
    list, and the first such cell of the list: every cell before it is
    strictly farther. *)
Theorem get_nearest_dirty_least (s : VaccumCleaner) (c : cell) (l : list cell) :
  get_nearest_dirty s c l ∈ c :: l /\
  (forall c', c' ∈ c :: l ->
     distance_from s (get_nearest_dirty s c l) <= distance_from s c') /\
  exists l1 l2, c :: l = l1 ++ get_nearest_dirty s c l :: l2 /\
    forall c', c' ∈ l1 ->
      distance_from s (get_nearest_dirty s c l) < distance_from s c'.
Proof. apply min_by_spec. Qed.

Lemma insert_by_perm key c l : insert_by key c l ≡ₚ c :: l.
Proof.
  induction l as [|a l IH]; simpl; [done|].
  destruct (key c <=? key a); [done|]. rewrite IH. apply Permutation_swap.
Qed.

Lemma sorted_by_perm key l : sorted_by key l ≡ₚ l.
Proof.
  induction l as [|a l IH]; simpl; [done|].
  rewrite insert_by_perm. by rewrite IH.
Qed.

Lemma insert_by_sorted key c l :
  StronglySorted (fun a b => key a <= key b) l ->
  StronglySorted (fun a b => key a <= key b) (insert_by key c l).
Proof.
  induction 1 as [|a l Hs IH Ha]; simpl; [repeat constructor|].
  destruct (Z.leb_spec (key c) (key a)) as [Hle|Hgt].
  - constructor; [by constructor|]. constructor; [done|].
    eapply Forall_impl; [exact Ha|]. intros b Hb. simpl in Hb. lia.
  - constructor; [done|].
    rewrite insert_by_perm. constructor; [lia | done].
Qed.

Lemma sorted_by_sorted key l :
  StronglySorted (fun a b => key a <= key b) (sorted_by key l).
Proof.
  induction l as [|a l IH]; simpl; [constructor|]. by apply insert_by_sorted.
Qed.

(** X12.  The list returned by [_get_nearby_dirt] is in ascending order of
    Manhattan distance from the agent and names no cell twice. *)
Theorem get_nearby_dirt_sorted (s : VaccumCleaner) (radius : Z) :
  wf_env (self_env s) ->
  exists l, _get_nearby_dirt s radius = Ok l /\
    StronglySorted (fun a b => distance_from s a <= distance_from s b) l /\
    NoDup l.
Proof.
  intros Hwf. destruct (get_nearby_dirt_returns s radius Hwf) as (l & Hl & _).
  exists l. split; [done|]. unfold _get_nearby_dirt in Hl.
  match type of Hl with
  | context [filterM ?p ?cs] => destruct (filterM p cs) as [near| |] eqn:Hnear
  end; cbn [mbind result_bind] in Hl; [|done|done].
  injection Hl as <-. split; [apply sorted_by_sorted|].
  rewrite sorted_by_perm. eapply sublist_NoDup; [|by eapply filterM_sublist].
  apply NoDup_bind.
  - intros dx1 dx2 c _ _ H1 H2.
    apply list_elem_of_bind in H1 as (dy1 & H1 & _).
    apply list_elem_of_bind in H2 as (dy2 & H2 & _).
    apply list_elem_of_singleton in H1, H2. simplify_eq. lia.
  - intros dx _. apply NoDup_bind.
    + intros dy1 dy2 c _ _ H1 H2. apply list_elem_of_singleton in H1, H2.
      simplify_eq. lia.
    + intros dy _. apply NoDup_singleton.
    + apply NoDup_seqZ.
  - apply NoDup_seqZ.
Qed.

Lemma get_nearby_dirt_sorted_witness :
  exists l, _get_nearby_dirt (sample_agent "optimized" 25) 2 = Ok l /\
    StronglySorted (fun a b => distance_from (sample_agent "optimized" 25) a <=
                               distance_from (sample_agent "optimized" 25) b) l /\
    NoDup l.
Proof.
  apply (get_nearby_dirt_sorted (sample_agent "optimized" 25) 2).
  exact wf_sample_env.
Defined.

(** ** The agent: what a step keeps and what it changes *)

Lemma is_walk_ext env env' (p : list cell) : forall c,
  (forall a, passable env a -> passable env' a) ->
  is_walk env c p -> is_walk env' c p.
Proof.
  induction p as [|a p IH]; intros c Hp Hw; [done|].
  destruct Hw as [[Hd Ha] Hw]. split; [split; [done | by apply Hp]|].
  by apply IH.
Qed.

(** Cleaning removes one dirty cell from the grid when the agent stands on
    one, and leaves passable cells passable. *)
Lemma clean_counts (s : VaccumCleaner) :
  wf_env (self_env s) -> in_bounds (self_env s) (position s) ->
  exists v s',
    grid_get (env_grid (self_env s)) (self_x s) (self_y s) = Ok v /\
    clean s = Ok s' /\
    (v = DIRTY -> (count_cells DIRTY (env_grid (self_env s')) + 1 =
                   count_cells DIRTY (env_grid (self_env s)))%nat) /\
    (forall c, passable (self_env s) c -> passable (self_env s') c).
Proof.
  intros Hwf Hpos.
  destruct (clean_spec s Hwf Hpos)
    as (v & s' & Hget & Hclean & _ & _ & _ & _ & _ & _ & _ & Hsz & _ & Hdirty & Hother).
  exists v, s'. split; [done|]. split; [done|].
  destruct (decide (v = DIRTY)) as [->|Hne].
  - destruct (Hdirty eq_refl) as (Hnow & _ & _ & Hrest & _). split.
    + intros _. pose proof Hpos as [Hx Hy]. simpl in Hx, Hy.
      destruct (grid_set_in_bounds (self_env s) (self_x s) (self_y s) CLEAN Hwf Hx Hy)
        as (row & old & Hrow & Hold & Hget' & Hset).
      assert (old = DIRTY) as -> by congruence.
      pose proof (count_cells_insert DIRTY CLEAN DIRTY _ _ _ _ Hrow Hold) as Hcount.
      unfold indicator in Hcount.
      rewrite (decide_True (P := DIRTY = DIRTY)) in Hcount by done.
      rewrite (decide_False (P := CLEAN = DIRTY)) in Hcount by done.
      unfold clean in Hclean. rewrite Hget in Hclean.
      cbn [mbind result_bind] in Hclean. simpl in Hclean.
      rewrite Hset in Hclean. cbn [mbind result_bind] in Hclean.
      injection Hclean as <-. simpl. lia.
    + intros c [Hb (u & Hu & Hne)]. split; [unfold in_bounds; by rewrite Hsz|].
      destruct (decide (c = position s)) as [->|Hc].
      * exists CLEAN. simpl. by split.
      * exists u. split; [|done]. by rewrite Hrest.
  - destruct (Hother Hne) as (-> & _). split; [done|]. done.
Qed.

Lemma override_not_random (s : VaccumCleaner) :
  low_battery_override s = true ->
  strategy s <> "random" /\ Battery.current (battery s) <= 20.
Proof.
  unfold low_battery_override, Battery.needs_charging.
  intros H. apply andb_true_iff in H as [H1 H2].
  apply negb_true_iff, String.eqb_neq in H2. split; [done | lia].
Qed.

Lemma follow_path_ok (s : VaccumCleaner) :
  agent_ok s -> strategy s <> "random" ->
  agent_ok (follow_path s) /\ same_frame s (follow_path s) /\
  ((position (follow_path s) = position s /\ battery (follow_path s) = battery s) \/
   (edge (self_env s) (position s) (position (follow_path s)) /\
    battery (follow_path s) = fst (Battery.consume (battery s) None))).
Proof.
  intros (Hinv & Hpass & Hwalk) Hstrat.
  destruct (follow_path_spec s Hinv) as (Hinv' & Hf & Hshape).
  pose proof Hf as (He & _ & _ & _ & Hs & _).
  specialize (Hwalk Hstrat).
  destruct (path s) as [|c rest] eqn:Hp.
  - rewrite Hshape. split; [split; [done|]; split; [done|]; by rewrite Hp|].
    split; [apply same_frame_refl|]. by left.
  - destruct Hshape as (Hpos & Hpath & Hbat). destruct Hwalk as [Hedge Hrest].
    split; [|split; [done|]].
    + split; [done|]. rewrite He, Hpos, Hpath. split; [apply Hedge|]. done.
    + right. rewrite Hpos. done.
Qed.

Lemma set_path_ok (s : VaccumCleaner) (p : list cell) :
  agent_ok s -> is_walk (self_env s) (position s) p ->
  agent_ok (set_path s p) /\ same_frame s (set_path s p) /\
  position (set_path s p) = position s /\ battery (set_path s p) = battery s.
Proof.
  intros (Hinv & Hpass & _) Hw.
  destruct (set_path_inv s p Hinv) as (Hinv' & Hf & Hpos & Hbat).
  { by eapply is_walk_in_bounds. }
  split; [|done]. split; [done|]. split; [done|]. done.
Qed.

Lemma a_star_from_position (s : VaccumCleaner) (goal : cell) :
  agent_ok s ->
  exists p, a_star (self_env s) (epsilon s) (position s) goal = Ok p /\
            is_walk (self_env s) (position s) p.
Proof.
  intros ((Hwf & _) & _).
  destruct (a_star_returns (self_env s) (epsilon s) (position s) goal Hwf) as [p Hp].
  exists p. split; [done|]. by apply a_star_walk in Hp as [Hw _].
Qed.

Lemma random_step_ok (d : cell) (s : VaccumCleaner) :
  agent_ok s -> strategy s = "random" -> d ∈ directions ->
  exists s1, _random_step d s = Ok s1 /\ agent_ok s1 /\ same_frame s s1 /\
             step_move s s1.
Proof.
  intros Hok Hstrat Hd. pose proof Hok as (Hinv & Hpass & _).
  pose proof Hinv as (Hwf & Hpos & Hpath). unfold _random_step.
  assert (Hstay : exists s1, Ok s = Ok s1 /\ agent_ok s1 /\ same_frame s s1 /\
                             step_move s s1).
  { exists s. split; [done|]. split; [done|]. split; [apply same_frame_refl | by left]. }
  destruct ((0 <=? self_x s + d.1) && (self_x s + d.1 <? env_size (self_env s)) &&
            (0 <=? self_y s + d.2) && (self_y s + d.2 <? env_size (self_env s)))
    eqn:Hb; [|exact Hstay].
  apply bounds_check in Hb as [Hx Hy].
  destruct (grid_get_in_bounds _ _ _ Hwf Hx Hy) as (? & v & _ & _ & Hget).
  rewrite Hget. cbn [mbind result_bind].
  destruct (negb (v =? OBSTACLE)) eqn:Hfree; [|exact Hstay].
  apply negb_true_iff, Z.eqb_neq in Hfree.
  assert (Hnew : passable (self_env s) (self_x s + d.1, self_y s + d.2)).
  { split; [by split|]. by exists v. }
  eexists. split; [reflexivity|]. split; [|split; [by repeat split|]].
  - split; [split; [done|]; split; [by split | done]|].
    split; [exact Hnew|]. simpl. intros Hne. by destruct Hne.
  - right. right. split; [|done]. split; [|exact Hnew]. by exists d.
Qed.

Lemma astar_step_ok (s : VaccumCleaner) :
  agent_ok s -> strategy s <> "random" ->
  exists s1, _astar_step s = Ok s1 /\ agent_ok s1 /\ same_frame s s1 /\
             step_move s s1.
Proof.
  intros Hok Hstrat. pose proof Hok as ((Hwf & _) & _). unfold _astar_step.
  assert (exists s0, match path s with
       | [] =>
           dirty_cells ← get_dirty_cells (self_env s);
           match dirty_cells with
           | [] => Ok s
           | c :: l =>
               p ← a_star (self_env s) (epsilon s) (position s)
                          (get_nearest_dirty s c l);
               Ok (set_path s p)
           end
       | _ :: _ => Ok s
       end = Ok s0 /\ agent_ok s0 /\ same_frame s s0 /\
       position s0 = position s /\ battery s0 = battery s)
    as (s0 & -> & Hok0 & Hf0 & Hpos0 & Hbat0).
  { assert (Hstay : exists s0, Ok s = Ok s0 /\ agent_ok s0 /\ same_frame s s0 /\
                               position s0 = position s /\ battery s0 = battery s).
    { exists s. split; [done|]. split; [done|]. split; [apply same_frame_refl | done]. }
    destruct (path s) as [|c0 rest]; [|exact Hstay].
    destruct (get_dirty_cells_returns _ Hwf) as (l & -> & _).
    cbn [mbind result_bind]. destruct l as [|c l]; [exact Hstay|].
    destruct (a_star_from_position s (get_nearest_dirty s c l) Hok) as (p & -> & Hp).
    cbn [mbind result_bind]. eexists. split; [reflexivity|].
    by apply set_path_ok. }
  cbn [mbind result_bind]. eexists. split; [reflexivity|].
  pose proof Hf0 as (He0 & _ & _ & _ & Hs0 & _).
  destruct (follow_path_ok s0 Hok0) as (Hok1 & Hf1 & Hmove); [congruence|].
  split; [done|]. split; [by eapply same_frame_trans|].
  unfold step_move. rewrite He0, Hpos0, Hbat0 in Hmove.
  destruct Hmove as [?|?]; [by left | by right; right].
Qed.

Lemma optimized_step_ok (s : VaccumCleaner) :
  agent_ok s -> strategy s <> "random" ->
  exists s1, _optimized_step s = Ok s1 /\ agent_ok s1 /\ same_frame s s1 /\
             step_move s s1.
Proof.
  intros Hok Hstrat. pose proof Hok as ((Hwf & _) & _). unfold _optimized_step.
  destruct (Battery.current (battery s) <? 30); [|by apply astar_step_ok].
  assert (Hstay : exists s1, Ok s = Ok s1 /\ agent_ok s1 /\ same_frame s s1 /\
                             step_move s s1).
  { exists s. split; [done|]. split; [done|]. split; [apply same_frame_refl | by left]. }
  destruct (get_nearby_dirt_returns s 2 Hwf) as (nearby & -> & _).
  cbn [mbind result_bind]. destruct nearby as [|target rest]; [exact Hstay|].
  destruct (path_misses (path s) target); [|exact Hstay].
  destruct (a_star_from_position s target Hok) as (p & -> & Hp).
  cbn [mbind result_bind]. eexists. split; [reflexivity|].
  destruct (set_path_ok s p Hok Hp) as (? & ? & ? & ?).
  split; [done|]. split; [done|]. by left.
Qed.

Lemma execute_strategy_ok (d : cell) (s : VaccumCleaner) :
  agent_ok s -> d ∈ directions ->
  exists s1, execute_strategy d s = Ok s1 /\ agent_ok s1 /\ same_frame s s1 /\
             step_move s s1.
Proof.
  intros Hok Hd. unfold execute_strategy.
  destruct (String.eqb_spec (strategy s) "random") as [Hr|Hr];
    [by apply random_step_ok|].
  destruct (String.eqb (strategy s) "astar"); [by apply astar_step_ok|].
  destruct (String.eqb (strategy s) "optimized"); [by apply optimized_step_ok|].
  exists s. split; [done|]. split; [done|]. split; [apply same_frame_refl | by left].
Qed.

Lemma handle_low_battery_ok (s : VaccumCleaner) :
  agent_ok s -> low_battery_override s = true ->
  exists s', _handle_low_battery s = Ok s' /\ agent_ok s' /\ step_move s s' /\
    self_env s' = self_env s /\ cleaned s' = cleaned s /\ visited s' = visited s /\
    strategy s' = strategy s /\ epsilon s' = epsilon s /\
    charger_pos s' = charger_pos s /\
    dirt_cleaned (metrics s') = dirt_cleaned (metrics s) /\
    steps_taken (metrics s) <= steps_taken (metrics s') <= steps_taken (metrics s) + 1.
Proof.
  intros Hok Hlow. destruct (override_not_random s Hlow) as [Hstrat _].
  pose proof Hok as (Hinv & Hpass & Hwalk). unfold _handle_low_battery.
  destruct (decide (position s = charger_pos s)) as [Heq|Hne].
  { eexists. split; [reflexivity|]. simpl. split.
    - split; [by destruct Hinv as (? & ? & ?)|]. split; [done|]. done.
    - split; [right; left; by repeat split|].
      repeat (split; [done|]). lia. }
  assert (exists s0,
    (if path_misses (path s) (charger_pos s)
     then p ← a_star (self_env s) (epsilon s) (position s) (charger_pos s);
          Ok (set_path s p)
     else Ok s) = Ok s0 /\ agent_ok s0 /\ same_frame s s0 /\
     position s0 = position s /\ battery s0 = battery s)
    as (s0 & -> & Hok0 & Hf0 & Hpos0 & Hbat0).
  { destruct (path_misses (path s) (charger_pos s)).
    - destruct (a_star_from_position s (charger_pos s) Hok) as (p & -> & Hp).
      cbn [mbind result_bind]. eexists. split; [reflexivity|].
      by apply set_path_ok.
    - exists s. split; [done|]. split; [done|]. split; [apply same_frame_refl | done]. }
  cbn [mbind result_bind]. eexists. split; [reflexivity|].
  pose proof Hf0 as (He0 & _ & _ & _ & Hs0 & _).
  destruct (follow_path_ok s0 Hok0) as (Hok1 & Hf1 & Hmove); [congruence|].
  destruct (same_frame_trans _ _ _ Hf0 Hf1) as (? & ? & ? & Hm & ? & ? & ?).
  split; [done|]. split.
  { unfold step_move. rewrite He0, Hpos0, Hbat0 in Hmove.
    destruct Hmove as [?|?]; [by left | by right; right]. }
  repeat (split; [done|]). rewrite Hm. split; [done | lia].
Qed.

(** One step, on every state the agent is meant to be in, with a draw
    among the four directions. *)
Lemma step_ok_spec (d : cell) (s : VaccumCleaner) :
  agent_ok s -> d ∈ directions ->
  exists s', step d s = Ok s' /\ agent_ok s' /\ step_move s s' /\
    strategy s' = strategy s /\ epsilon s' = epsilon s /\
    charger_pos s' = charger_pos s /\
    env_size (self_env s') = env_size (self_env s) /\
    visited s ⊆ visited s' /\
    (low_battery_override s = false -> position s' ∈ visited s') /\
    ((cleaned s' = cleaned s /\ dirty_left s' = dirty_left s /\
      dirt_cleaned (metrics s') = dirt_cleaned (metrics s)) \/
     (cleaned s' = cleaned s + 1 /\ dirty_left s' + 1 = dirty_left s /\
      dirt_cleaned (metrics s') = dirt_cleaned (metrics s) + 1)) /\
    steps_taken (metrics s) <= steps_taken (metrics s') <= steps_taken (metrics s) + 1.
Proof.
  intros Hok Hd. unfold step. destruct (low_battery_override s) eqn:Hlow.
  - destruct (handle_low_battery_ok s Hok Hlow)
      as (s' & -> & Hok' & Hmove & He & Hc & Hv & Hs & Hep & Hch & Hdc & Hst).
    exists s'. split; [done|]. split; [done|]. split; [done|].
    repeat (split; [done || by rewrite He|]).
    split; [by rewrite Hv|]. split; [done|]. split; [|done].
    left. unfold dirty_left. by rewrite He.
  - destruct (execute_strategy_ok d s Hok Hd) as (s1 & -> & Hok1 & Hf & Hmove).
    cbn [mbind result_bind].
    pose proof Hf as (He & Hc & Hv & Hm & Hs & Hep & Hch).
    pose proof Hok1 as ((Hwf1 & Hpos1 & Hpath1) & Hpass1 & Hwalk1).
    set (s2 := set_metrics s1 _).
    destruct (clean_spec s2 Hwf1 Hpos1)
      as (v & s' & Hget & Hclean & Hp' & Hb' & Hpa' & Hs' & Hep' & Hch' & Hvis' & Hsz'
          & Hwf' & Hdirty & Hother).
    destruct (clean_counts s2 Hwf1 Hpos1) as (v' & s'' & Hget' & Hclean' & Hcount & Hkeep).
    assert (s'' = s') as -> by congruence. assert (v' = v) as -> by congruence.
    exists s'. split; [done|]. simpl in *. split.
    { split; [split; [done|]; split|split].
      - unfold in_bounds. rewrite Hp', Hsz'. exact Hpos1.
      - rewrite Hpa'. eapply Forall_impl; [exact Hpath1|].
        intros c Hc'. unfold in_bounds. rewrite Hsz'. exact Hc'.
      - rewrite Hp'. by apply Hkeep.
      - intros Hne. rewrite Hp', Hpa'. eapply is_walk_ext; [exact Hkeep|].
        apply Hwalk1. congruence. }
    split.
    { unfold step_move in *. rewrite Hp', Hb'. exact Hmove. }
    split; [congruence|]. split; [congruence|]. split; [congruence|].
    split; [congruence|].
    split; [rewrite Hvis', Hv; apply union_subseteq_r|].
    split.
    { intros _. rewrite Hvis', Hp'. apply elem_of_union. left. by apply elem_of_singleton. }
    split.
    + unfold dirty_left. destruct (decide (v = DIRTY)) as [Hv'|Hv'].
      * right. destruct (Hdirty Hv') as (_ & Hcl & Hme & _).
        specialize (Hcount Hv'). rewrite He in Hcount.
        split; [congruence|]. split; [lia|].
        rewrite Hme. simpl. by rewrite Hm.
      * left. destruct (Hother Hv') as (Hen & Hcl & Hme).
        split; [congruence|]. split; [by rewrite Hen, He|].
        rewrite Hme. simpl. by rewrite Hm.
    + assert (steps_taken (metrics s') = steps_taken (metrics s) + 1) as ->; [|lia].
      destruct (decide (v = DIRTY)) as [Hv'|Hv'].
      * destruct (Hdirty Hv') as (_ & _ & -> & _). simpl. by rewrite Hm.
      * destruct (Hother Hv') as (_ & _ & ->). simpl. by rewrite Hm.
Qed.

Lemma sample_agent_ok (strategy : string) (level : Z) :
  agent_ok (sample_agent strategy level).
Proof.
  split; [apply sample_agent_inv|]. split; [|done].
  split; [unfold in_bounds; simpl; lia|]. exists 0. by vm_compute.
Qed.

Lemma directions_0_1 : ((0, 1) : cell) ∈ directions.
Proof. unfold directions. repeat constructor. Qed.

(** X13.  A step never takes the agent off the grid or onto an obstacle.
    From a state in which the agent stands on a cell of a square grid that
    is not an obstacle, with a pending path made of moves from that cell
    (or with the strategy "random"), [step] returns, for every strategy and
    every draw among the four directions, a state of the same kind. *)
Theorem step_keeps_agent_on_free_cell (d : cell) (s : VaccumCleaner) :
  agent_ok s -> d ∈ directions ->
  exists s', step d s = Ok s' /\ agent_ok s' /\
    in_bounds (self_env s') (position s') /\
    exists v, grid_get (env_grid (self_env s')) (self_x s') (self_y s') = Ok v /\
              v <> OBSTACLE.
Proof.
  intros Hok Hd. destruct (step_ok_spec d s Hok Hd) as (s' & Hs' & Hok' & _).
  exists s'. split; [done|]. split; [done|].
  destruct Hok' as (_ & [Hb Hv] & _). done.
Qed.

Lemma step_keeps_agent_on_free_cell_witness :
  exists s', step (0, 1) (sample_agent "random" 50) = Ok s' /\ agent_ok s' /\
    in_bounds (self_env s') (position s') /\
    exists v, grid_get (env_grid (self_env s')) (self_x s') (self_y s') = Ok v /\
              v <> OBSTACLE.
Proof.
  apply (step_keeps_agent_on_free_cell (0, 1) (sample_agent "random" 50)).
  - apply sample_agent_ok.
  - exact directions_0_1.
Defined.

Lemma edge_distance env (c c' : cell) : edge env c c' -> heuristic c c' = 1.
Proof.
  intros [(d & Hd & ->) _]. unfold heuristic, directions in *.
  rewrite !elem_of_cons, elem_of_nil in Hd. simpl.
  destruct Hd as [->|[->|[->|[->|[]]]]]; simpl; lia.
Qed.

(** X14.  In one step the agent stays where it is or moves to one of the
    four neighbouring cells, and the battery pays for exactly the moves:
    it is left as it was when the agent stays (or charged once, when the
    agent stays on the charger in the low-battery branch), and one
    [consume()] is made when the agent moves. *)
Theorem step_moves_one_cell (d : cell) (s : VaccumCleaner) :
  agent_ok s -> d ∈ directions ->
  exists s', step d s = Ok s' /\ step_move s s' /\
    heuristic (position s) (position s') <= 1 /\
    (position s' <> position s ->
     battery s' = fst (Battery.consume (battery s) None)) /\
    (position s' = position s ->
     battery s' = battery s \/
     (low_battery_override s = true /\ position s = charger_pos s /\
      battery s' = Battery.charge (battery s))).
Proof.
  intros Hok Hd. destruct (step_ok_spec d s Hok Hd) as (s' & Hs' & _ & Hmove & _).
  exists s'. split; [done|]. split; [done|].
  destruct Hmove as [[Hp Hb]|[(Hp & Hc & Hl & Hb)|[He Hb]]].
  - rewrite Hp. split; [unfold heuristic; lia|]. split; [done|]. by left.
  - rewrite Hp. split; [unfold heuristic; lia|]. split; [done|]. by right.
  - pose proof (edge_distance _ _ _ He) as Hdist. split; [lia|]. split; [done|].
    intros Hp. rewrite Hp in Hdist. unfold heuristic in Hdist. lia.
Qed.

Lemma step_moves_one_cell_witness :
  exists s', step (0, 1) (sample_agent "astar" 50) = Ok s' /\
    step_move (sample_agent "astar" 50) s' /\
    heuristic (0, 0) (position s') <= 1 /\
    (position s' <> (0, 0) ->
     battery s' = fst (Battery.consume (Battery.mk 100 50 1 5 50 0) None)) /\
    (position s' = (0, 0) ->
     battery s' = Battery.mk 100 50 1 5 50 0 \/
     (low_battery_override (sample_agent "astar" 50) = true /\
      ((0, 0) : cell) = (4, 4) /\
      battery s' = Battery.charge (Battery.mk 100 50 1 5 50 0))).
Proof.
  apply (step_moves_one_cell (0, 1) (sample_agent "astar" 50)).
  - apply sample_agent_ok.
  - exact directions_0_1.
Defined.

(** X15.  What a step counts.  [cleaned] grows by one exactly when the
    grid loses one dirty cell, so [cleaned] plus the number of dirty cells
    is the same before and after; the recorder's [dirt_cleaned] grows with
    [cleaned]; at most one step event is recorded; [visited] only grows;
    the strategy, [epsilon], the charger position and the grid size do not
    change. *)
Theorem step_accounting (d : cell) (s : VaccumCleaner) :
  agent_ok s -> d ∈ directions ->
  exists s', step d s = Ok s' /\
    cleaned s' + dirty_left s' = cleaned s + dirty_left s /\
    cleaned s <= cleaned s' <= cleaned s + 1 /\
    dirt_cleaned (metrics s') - cleaned s' = dirt_cleaned (metrics s) - cleaned s /\
    steps_taken (metrics s) <= steps_taken (metrics s') <= steps_taken (metrics s) + 1 /\
    visited s ⊆ visited s' /\
    strategy s' = strategy s /\ epsilon s' = epsilon s /\
    charger_pos s' = charger_pos s /\
    env_size (self_env s') = env_size (self_env s).
Proof.
  intros Hok Hd.
  destruct (step_ok_spec d s Hok Hd)
    as (s' & Hs' & _ & _ & Hst & Hep & Hch & Hsz & Hvis & _ & Hcount & Hsteps).
  exists s'. split; [done|].
  destruct Hcount as [(Hc & Hl & Hm)|(Hc & Hl & Hm)];
    (split; [lia|]); (split; [lia|]); (split; [lia|]); done.
Qed.

Lemma step_accounting_witness :
  exists s', step (0, 1) (sample_agent "astar" 50) = Ok s' /\
    cleaned s' + dirty_left s' = 0 + dirty_left (sample_agent "astar" 50) /\
    0 <= cleaned s' <= 0 + 1 /\
    dirt_cleaned (metrics s') - cleaned s' = 0 - 0 /\
    0 <= steps_taken (metrics s') <= 0 + 1 /\
    ∅ ⊆ visited s' /\
    strategy s' = "astar" /\ epsilon s' = 1%Q /\
    charger_pos s' = (4, 4) /\
    env_size (self_env s') = 5.
Proof.
  apply (step_accounting (0, 1) (sample_agent "astar" 50)).
  - apply sample_agent_ok.
  - exact directions_0_1.
Defined.

(** The three things a step can do to the battery keep it in range and
    never complete a charge cycle when [20 + charge_rate < capacity]. *)
Lemma step_move_battery (s s' : VaccumCleaner) :
  step_move s s' -> battery_inv (battery s) ->
  0 <= Battery.drain_rate (battery s) -> 0 <= Battery.charge_rate (battery s) ->
  battery_inv (battery s') /\
  Battery.capacity (battery s') = Battery.capacity (battery s) /\
  Battery.drain_rate (battery s') = Battery.drain_rate (battery s) /\
  Battery.charge_rate (battery s') = Battery.charge_rate (battery s) /\
  (Battery.total_consumed (battery s') = Battery.total_consumed (battery s) \/
   Battery.total_consumed (battery s') =
     Battery.total_consumed (battery s) + Battery.drain_rate (battery s)) /\
  (20 + Battery.charge_rate (battery s) < Battery.capacity (battery s) ->
   Battery.charge_cycles (battery s') = Battery.charge_cycles (battery s)).
Proof.
  intros Hmove Hinv Hdr Hcr. unfold battery_inv in *.
  destruct Hmove as [[_ ->]|[(_ & _ & Hlow & ->)|[_ ->]]].
  - repeat (split; [done|]). split; [by left | done].
  - apply override_not_random in Hlow as [_ Hlow].
    destruct (battery s) as [cap cur dr cr tc cc]. unfold Battery.charge. simpl in *.
    split; [lia|]. repeat (split; [done|]). split; [by left|].
    intros Hcap.
    destruct (Z.ltb_spec cur cap), (Z.eqb_spec (Z.min cap (cur + cr)) cap);
      simpl; lia.
  - destruct (battery s) as [cap cur dr cr tc cc]. simpl in *.
    split; [lia|]. repeat (split; [done|]). split; [by right | done].
Qed.

(** X16.  What a step does to the battery.  With rates that are not
    negative the level stays between 0 and the capacity; the capacity and
    the rates do not change; [total_consumed] grows by [drain_rate] or not
    at all.  The agent charges only while the level is at most 20, so when
    [20 + charge_rate < capacity] no step ever completes a charge cycle:
    [charge_cycles] stays as it was. *)
Theorem step_battery (d : cell) (s : VaccumCleaner) :
  agent_ok s -> d ∈ directions ->
  battery_inv (battery s) ->
  0 <= Battery.drain_rate (battery s) -> 0 <= Battery.charge_rate (battery s) ->
  exists s', step d s = Ok s' /\
    battery_inv (battery s') /\
    Battery.capacity (battery s') = Battery.capacity (battery s) /\
    Battery.drain_rate (battery s') = Battery.drain_rate (battery s) /\
    Battery.charge_rate (battery s') = Battery.charge_rate (battery s) /\
    (Battery.total_consumed (battery s') = Battery.total_consumed (battery s) \/
     Battery.total_consumed (battery s') =
       Battery.total_consumed (battery s) + Battery.drain_rate (battery s)) /\
    (20 + Battery.charge_rate (battery s) < Battery.capacity (battery s) ->
     Battery.charge_cycles (battery s') = Battery.charge_cycles (battery s)).
Proof.
  intros Hok Hd Hinv Hdr Hcr.
  destruct (step_ok_spec d s Hok Hd) as (s' & Hs' & _ & Hmove & _).
  exists s'. split; [done|]. by apply step_move_battery.
Qed.

Lemma step_battery_witness :
  exists s', step (0, 1) (sample_agent "astar" 20) = Ok s' /\
    battery_inv (battery s') /\
    Battery.capacity (battery s') = 100 /\
    Battery.drain_rate (battery s') = 1 /\
    Battery.charge_rate (battery s') = 5 /\
    (Battery.total_consumed (battery s') = 80 \/
     Battery.total_consumed (battery s') = 80 + 1) /\
    (20 + 5 < 100 -> Battery.charge_cycles (battery s') = 0).
Proof.
  apply (step_battery (0, 1) (sample_agent "astar" 20)).
  - apply sample_agent_ok.
  - exact directions_0_1.
  - unfold battery_inv. simpl. lia.
  - simpl. lia.
  - simpl. lia.
Defined.

(** ** The agent: many steps *)

Lemma run_steps_spec (ds : list cell) : forall s,
  agent_ok s -> Forall (fun d => d ∈ directions) ds ->
  battery_inv (battery s) ->
  0 <= Battery.drain_rate (battery s) -> 0 <= Battery.charge_rate (battery s) ->
  exists s', run_steps ds s = Ok s' /\ agent_ok s' /\
    cleaned s' + dirty_left s' = cleaned s + dirty_left s /\
    dirt_cleaned (metrics s') - cleaned s' = dirt_cleaned (metrics s) - cleaned s /\
    steps_taken (metrics s) <= steps_taken (metrics s')
      <= steps_taken (metrics s) + Z.of_nat (length ds) /\
    visited s ⊆ visited s' /\
    strategy s' = strategy s /\
    env_size (self_env s') = env_size (self_env s) /\
    battery_inv (battery s') /\
    Battery.capacity (battery s') = Battery.capacity (battery s) /\
    Battery.drain_rate (battery s') = Battery.drain_rate (battery s) /\
    Battery.charge_rate (battery s') = Battery.charge_rate (battery s) /\
    Battery.total_consumed (battery s) <= Battery.total_consumed (battery s')
      <= Battery.total_consumed (battery s) +
         Z.of_nat (length ds) * Battery.drain_rate (battery s) /\
    (20 + Battery.charge_rate (battery s) < Battery.capacity (battery s) ->
     Battery.charge_cycles (battery s') = Battery.charge_cycles (battery s)).
Proof.
  induction ds as [|d ds IH]; intros s Hok Hds Hinv Hdr Hcr.
  - exists s. simpl. repeat (split; [done || lia|]). done.
  - inversion Hds as [|? ? Hd Hds']; subst.
    destruct (step_ok_spec d s Hok Hd)
      as (s1 & Hs1 & Hok1 & Hmove & Hst & _ & _ & Hsz & Hvis & _ & Hcount & Hsteps).
    destruct (step_move_battery s s1 Hmove Hinv Hdr Hcr)
      as (Hinv1 & Hcap & Hdr1 & Hcr1 & Htc & Hcc).
    destruct (IH s1 Hok1 Hds' Hinv1 ltac:(lia) ltac:(lia))
      as (s' & Hs' & Hok' & Hsum & Hdc & Hsteps' & Hvis' & Hst' & Hsz' & Hinv' & Hcap'
          & Hdr' & Hcr' & Htc' & Hcc').
    exists s'. cbn [run_steps]. rewrite Hs1. cbn [mbind result_bind].
    split; [done|]. split; [done|].
    assert (cleaned s1 + dirty_left s1 = cleaned s + dirty_left s /\
            dirt_cleaned (metrics s1) - cleaned s1 = dirt_cleaned (metrics s) - cleaned s)
      as [Hsum1 Hdc1] by (destruct Hcount as [(? & ? & ?)|(? & ? & ?)]; lia).
    split; [lia|]. split; [lia|]. split; [simpl length; lia|].
    split; [by etrans|]. split; [congruence|]. split; [congruence|].
    split; [done|]. split; [congruence|]. split; [congruence|]. split; [congruence|].
    split.
    + rewrite Hdr1 in Htc'. simpl length.
      assert (0 <= Z.of_nat (length ds) * Battery.drain_rate (battery s))
        by (apply Z.mul_nonneg_nonneg; lia).
      destruct Htc as [Htc|Htc]; lia.
    + intros Hlt. rewrite Hcc', Hcc; [done|done|]. rewrite Hcr1, Hcap. done.
Qed.

(** X17.  A new agent on a new environment, and any number of steps.  For
    every size of 3 or more, every dirt drawn, every strategy name and
    weight and every sequence of draws among the four directions, the
    environment and the agent are built and every step returns; afterwards
    the agent stands on a cell of the grid that is not an obstacle,
    [cleaned] plus the number of dirty cells left is the number of dirty
    cells the grid started with, the recorder's [dirt_cleaned] equals
    [cleaned], at most one step event per step was recorded, the battery
    level is between 0 and 100, [total_consumed] is at most the number of
    steps, and [charge_cycles] is still 0. *)
Theorem fresh_agent_runs_safely (size : Z) (dirt : Z -> Z -> bool)
    (strat : string) (eps : Q) (ds : list cell) :
  3 <= size -> Forall (fun d => d ∈ directions) ds ->
  exists env s0 s',
    Environment_init size dirt = Ok env /\
    VaccumCleaner_init env strat eps = Ok s0 /\
    run_steps ds s0 = Ok s' /\
    agent_ok s' /\
    cleaned s' + dirty_left s' = dirty_left s0 /\
    dirt_cleaned (metrics s') = cleaned s' /\
    0 <= steps_taken (metrics s') <= Z.of_nat (length ds) /\
    0 <= Battery.current (battery s') <= 100 /\
    0 <= Battery.total_consumed (battery s') <= Z.of_nat (length ds) /\
    Battery.charge_cycles (battery s') = 0.
Proof.
  intros Hsize Hds.
  destruct (environment_init_read size dirt Hsize) as (env & Henv & Hsz & Hwf & Hread).
  exists env. eexists. 
  assert (Hok : agent_ok {| self_env := env; self_x := 0; self_y := 0; cleaned := 0;
                            epsilon := clamp_epsilon eps;
                            battery := Battery.mk 100 100 1 5 0 0;
                            visited := ∅; path := []; strategy := strat;
                            metrics := PerformanceMetrics_init;
                            charger_pos := (env_size env - 1, env_size env - 1) |}).
  { assert (in_bounds env (0, 0)) as Hb by (unfold in_bounds; simpl; lia).
    split; [split; [done|]; split; [done | constructor]|].
    split; [|done]. split; [done|].
    exists (initial_cell size dirt 0 0). split; [apply Hread; lia|].
    unfold initial_cell. rewrite decide_False by done.
    rewrite decide_False by (intros [=]; lia). by rewrite decide_True. }
  destruct (run_steps_spec ds _ Hok Hds)
    as (s' & Hs' & Hok' & Hsum & Hdc & Hsteps & _ & _ & _ & Hinv' & Hcap & _ & _ & Htc & Hcc);
    [unfold battery_inv; simpl; lia | simpl; lia | simpl; lia |].
  exists s'. split; [done|]. split; [reflexivity|]. split; [exact Hs'|].
  split; [done|]. simpl in *. unfold battery_inv in Hinv'.
  split; [lia|]. split; [lia|]. split; [lia|]. split; [lia|]. split; [lia|].
  apply Hcc. lia.
Qed.

Lemma fresh_agent_runs_safely_witness :
  exists env s0 s',
    Environment_init 5 (fun r c => Z.even (r + c)) = Ok env /\
    VaccumCleaner_init env "random" 1 = Ok s0 /\
    run_steps [(0, 1); (1, 0); (-1, 0); (0, -1)] s0 = Ok s' /\
    agent_ok s' /\
    cleaned s' + dirty_left s' = dirty_left s0 /\
    dirt_cleaned (metrics s') = cleaned s' /\
    0 <= steps_taken (metrics s') <= Z.of_nat (length [(0, 1); (1, 0); (-1, 0); (0, -1)]) /\
    0 <= Battery.current (battery s') <= 100 /\
    0 <= Battery.total_consumed (battery s')
      <= Z.of_nat (length [(0, 1); (1, 0); (-1, 0); (0, -1)]) /\
    Battery.charge_cycles (battery s') = 0.
Proof.
  apply (fresh_agent_runs_safely 5 (fun r c => Z.even (r + c)) "random" 1
           [(0, 1); (1, 0); (-1, 0); (0, -1)]).
  - lia.
  - unfold directions. repeat constructor.
Defined.

(** ** The agent: the way to the charger *)

Lemma path_misses_false (p : list cell) (target : cell) :
  path_misses p target = false <-> last p = Some target.
Proof.
  unfold path_misses. destruct (last p) as [c|]; [|done].
  rewrite bool_decide_eq_false. split.
  - intros Hn. f_equal. by destruct (decide (c = target)).
  - intros [= ->] Hn. done.
Qed.

(** In the low-battery branch, away from the charger, with a pending path
    that ends at the charger, a step follows the path. *)
Lemma step_follows_path (d : cell) (s : VaccumCleaner) :
  low_battery_override s = true -> position s <> charger_pos s ->
  last (path s) = Some (charger_pos s) ->
  step d s = Ok (follow_path s).
Proof.
  intros Hlow Hne Hlast. unfold step, _handle_low_battery. rewrite Hlow.
  rewrite decide_False by done.
  by rewrite (proj2 (path_misses_false _ _) Hlast).
Qed.

(** In the low-battery branch, away from the charger, with a pending path
    that does not end at the charger, a step plans a path to the charger
    and follows it. *)
Lemma step_plans_path (d : cell) (s : VaccumCleaner) (p : list cell) :
  low_battery_override s = true -> position s <> charger_pos s ->
  path_misses (path s) (charger_pos s) = true ->
  a_star (self_env s) (epsilon s) (position s) (charger_pos s) = Ok p ->
  step d s = Ok (follow_path (set_path s p)).
Proof.
  intros Hlow Hne Hmiss Hp. unfold step, _handle_low_battery. rewrite Hlow.
  rewrite decide_False by done. by rewrite Hmiss, Hp.
Qed.

Lemma navigate_reaches (p : list cell) : forall s,
  agent_ok s -> low_battery_override s = true ->
  0 <= Battery.drain_rate (battery s) ->
  position s <> charger_pos s ->
  path s = p -> last p = Some (charger_pos s) ->
  exists n, (0 < n <= length p)%nat /\
    forall ds, length ds = n ->
      exists s', run_steps ds s = Ok s' /\
        position s' = charger_pos s /\
        cleaned s' = cleaned s /\ metrics s' = metrics s /\
        self_env s' = self_env s /\ visited s' = visited s /\
        Battery.total_consumed (battery s') =
          Battery.total_consumed (battery s) +
          Z.of_nat n * Battery.drain_rate (battery s).
Proof.
  induction p as [|c rest IH]; intros s Hok Hlow Hdr Hne Hpath Hlast; [done|].
  destruct (override_not_random s Hlow) as [Hstrat Hlevel].
  destruct (follow_path_ok s Hok Hstrat) as (Hok1 & Hf1 & _).
  pose proof Hok as ((Hwf & _ & _) & _).
  assert (Hlast' : last (path s) = Some (charger_pos s)) by (by rewrite Hpath).
  assert (Hfollow : follow_path s =
            consume_move (set_pos (set_path s rest) c))
    by (unfold follow_path; by rewrite Hpath).
  destruct (decide (c = charger_pos s)) as [Hc|Hc].
  - exists 1%nat. split; [simpl; lia|]. intros ds Hlen.
    destruct ds as [|d [|? ?]]; try done.
    cbn [run_steps]. rewrite (step_follows_path d s Hlow Hne Hlast').
    cbn [mbind result_bind]. eexists. split; [reflexivity|].
    rewrite Hfollow. simpl. destruct c. simpl in *.
    repeat (split; [done|]). lia.
  - assert (Hrest : last rest = Some (charger_pos s)).
    { destruct rest as [|c' rest']; [simpl in Hlast; congruence|].
      by rewrite last_cons_cons in Hlast. }
    destruct (IH (follow_path s)) as (n & Hn & Hrun).
    + done.
    + rewrite Hfollow. unfold low_battery_override, Battery.needs_charging in *.
      simpl. apply andb_true_iff in Hlow as [H1 H2]. apply andb_true_iff.
      split; [|done]. apply Z.leb_le. lia.
    + by rewrite Hfollow.
    + rewrite Hfollow. simpl. by destruct c.
    + by rewrite Hfollow.
    + by rewrite Hfollow.
    + exists (S n). split; [simpl; lia|]. intros ds Hlen.
      destruct ds as [|d ds]; [done|]. injection Hlen as Hlen.
      destruct (Hrun ds Hlen) as (s' & Hs' & Hpos & Hcl & Hm & He & Hv & Htc).
      exists s'. cbn [run_steps]. rewrite (step_follows_path d s Hlow Hne Hlast').
      cbn [mbind result_bind]. split; [done|].
      rewrite Hfollow in Hpos, Hcl, Hm, He, Hv, Htc. simpl in *.
      repeat (split; [done|]). lia.
Qed.

(** X18.  An agent in the low-battery branch gets to the charger when
    there is a way.  From a state in which the agent stands on a free cell
    other than the charger, with battery level at most 20, a strategy other
    than "random", a drain rate that is not negative, and the charger
    reachable by moves through cells that are not obstacles: after some
    number [n >= 1] of steps the agent stands on the charger.  On the way
    nothing is cleaned, nothing is marked visited, no event is recorded,
    and [total_consumed] grows by [n * drain_rate]. *)
Theorem low_battery_agent_reaches_charger (s : VaccumCleaner) :
  agent_ok s -> low_battery_override s = true ->
  0 <= Battery.drain_rate (battery s) ->
  position s <> charger_pos s ->
  reachable (self_env s) (position s) (charger_pos s) ->
  exists n, (0 < n)%nat /\
    forall ds, length ds = n ->
      exists s', run_steps ds s = Ok s' /\
        position s' = charger_pos s /\
        cleaned s' = cleaned s /\ metrics s' = metrics s /\
        self_env s' = self_env s /\ visited s' = visited s /\
        Battery.total_consumed (battery s') =
          Battery.total_consumed (battery s) +
          Z.of_nat n * Battery.drain_rate (battery s).
Proof.
  intros Hok Hlow Hdr Hne Hreach.
  destruct (path_misses (path s) (charger_pos s)) eqn:Hmiss.
  - pose proof Hok as ((Hwf & _ & _) & _).
    destruct (a_star_reaches (self_env s) (epsilon s) (position s) (charger_pos s)
                Hwf Hne Hreach) as (p & Hp & Hnil & Hw & Hl).
    destruct (set_path_ok s p Hok Hw) as (Hok0 & _ & Hpos0 & Hbat0).
    destruct (navigate_reaches p (set_path s p)) as (n & Hn & Hrun); try done.
    exists n. split; [lia|]. intros ds Hlen.
    destruct (Hrun ds Hlen) as (s' & Hs' & Hrest).
    exists s'. split; [|exact Hrest].
    destruct ds as [|d ds]; [simpl in Hlen; lia|].
    cbn [run_steps] in *. rewrite (step_plans_path d s p Hlow Hne Hmiss Hp).
    rewrite (step_follows_path d (set_path s p)) in Hs'; done.
  - apply path_misses_false in Hmiss.
    destruct (navigate_reaches (path s) s) as (n & Hn & Hrun); try done.
    exists n. split; [lia | done].
Qed.

Lemma low_battery_agent_reaches_charger_witness :
  exists n, (0 < n)%nat /\
    forall ds, length ds = n ->
      exists s', run_steps ds (sample_agent "astar" 20) = Ok s' /\
        position s' = (4, 4) /\
        cleaned s' = 0 /\ metrics s' = PerformanceMetrics_init /\
        self_env s' = sample_env /\ visited s' = ∅ /\
        Battery.total_consumed (battery s') = 80 + Z.of_nat n * 1.
Proof.
  apply (low_battery_agent_reaches_charger (sample_agent "astar" 20)).
  - apply sample_agent_ok.
  - reflexivity.
  - simpl. lia.
  - discriminate.
  - exact sample_env_corner_reachable.
Defined.

(** ** The agent: where it stops for good *)

Lemma walk_reachable env (p : list cell) : forall c goal,
  is_walk env c p -> last (c :: p) = Some goal -> reachable env c goal.
Proof.
  induction p as [|c' p IH]; intros c goal Hw Hl.
  - simpl in Hl. injection Hl as ->. apply rtc_refl.
  - destruct Hw as [He Hw]. rewrite last_cons_cons in Hl.
    eapply rtc_l; [exact He|]. by apply IH.
Qed.

Lemma set_path_same (s : VaccumCleaner) : set_path s (path s) = s.
Proof. by destruct s. Qed.

(** X19.  The agent stalls when the charger cannot be reached.  From a
    state in which the agent stands on a free cell other than the charger,
    in the low-battery branch, with no way to the charger through cells
    that are not obstacles: every step plans the empty path and changes
    nothing else, so after any number of steps (one or more) the state is
    the one the agent started in, with an empty pending path.  The agent
    never moves again, and nothing is raised. *)
Theorem low_battery_agent_stalls (s : VaccumCleaner) (ds : list cell) :
  agent_ok s -> low_battery_override s = true ->
  position s <> charger_pos s ->
  ~ reachable (self_env s) (position s) (charger_pos s) ->
  ds <> [] ->
  run_steps ds s = Ok (set_path s []).
Proof.
  intros Hok Hlow Hne Hnr Hds.
  destruct (override_not_random s Hlow) as [Hstrat _].
  pose proof Hok as ((Hwf & _ & _) & _ & Hwalk).
  assert (Hstep : forall d s0, self_env s0 = self_env s -> position s0 = position s ->
            epsilon s0 = epsilon s -> charger_pos s0 = charger_pos s ->
            low_battery_override s0 = true ->
            path_misses (path s0) (charger_pos s0) = true ->
            step d s0 = Ok (set_path s0 [])).
  { intros d s0 He Hp Hep Hch Hl Hm.
    rewrite (step_plans_path d s0 [] Hl); [done|congruence|done|].
    rewrite He, Hp, Hep, Hch. by apply a_star_unreachable. }
  assert (Hmiss : path_misses (path s) (charger_pos s) = true).
  { destruct (path_misses (path s) (charger_pos s)) eqn:Hm; [done|].
    apply path_misses_false in Hm. exfalso. apply Hnr.
    apply (walk_reachable _ (path s)); [by apply Hwalk|].
    destruct (path s); [done|]. by rewrite last_cons_cons. }
  destruct ds as [|d ds]; [done|]. clear Hds.
  cbn [run_steps]. rewrite (Hstep d s) by done. cbn [mbind result_bind].
  induction ds as [|d' ds IH]; [done|].
  cbn [run_steps]. rewrite (Hstep d' (set_path s [])) by done.
  cbn [mbind result_bind]. exact IH.
Qed.

Lemma low_battery_agent_stalls_witness :
  run_steps [(0, 1); (1, 0); (0, 1)]
    (mkVac walled_corner_5 0 0 0 1 (Battery.mk 100 20 1 5 80 0) ∅ []
           "astar" PerformanceMetrics_init (4, 4)) =
  Ok (set_path
        (mkVac walled_corner_5 0 0 0 1 (Battery.mk 100 20 1 5 80 0) ∅ []
               "astar" PerformanceMetrics_init (4, 4)) []).
Proof.
  apply (low_battery_agent_stalls
           (mkVac walled_corner_5 0 0 0 1 (Battery.mk 100 20 1 5 80 0) ∅ []
                  "astar" PerformanceMetrics_init (4, 4))
           [(0, 1); (1, 0); (0, 1)]).
  - split; [split; [exact wf_walled_corner_5|]; split; [|constructor]|].
    + unfold in_bounds. simpl. lia.
    + split; [|done]. split; [unfold in_bounds; simpl; lia|].
      exists 0. by vm_compute.
  - reflexivity.
  - discriminate.
  - exact walled_corner_unreachable.
  - discriminate.
Defined.

Lemma step_conserves (d : cell) (s : VaccumCleaner) :
  agent_inv s -> strategy s = "optimized" ->
  20 < Battery.current (battery s) < 30 ->
  exists s', step d s = Ok s' /\ agent_inv s' /\
    position s' = position s /\ battery s' = battery s /\
    strategy s' = strategy s /\
    visited s' = {[position s]} ∪ visited s.
Proof.
  intros Hinv Hstrat Hlevel.
  assert (Hlow : low_battery_override s = false).
  { unfold low_battery_override, Battery.needs_charging.
    apply andb_false_iff. left. apply Z.leb_gt. lia. }
  destruct (optimized_step_conserve s Hinv ltac:(lia))
    as (s1 & nearby & Hopt & Hinv1 & Hf & Hpos & Hbat & _).
  assert (Hex : execute_strategy d s = Ok s1).
  { unfold execute_strategy. rewrite Hstrat. exact Hopt. }
  destruct (step_normal_spec d s Hinv Hlow) as (s1' & s' & Hex' & _ & _ & Hclean & Hstep).
  assert (s1' = s1) as -> by congruence.
  destruct (step_returns d s Hinv) as (s'' & Hstep' & Hinv').
  assert (s'' = s') as -> by congruence.
  pose proof Hinv1 as (Hwf1 & Hpos1 & _). pose proof Hf as (_ & _ & Hv & _ & Hs & _).
  destruct (clean_spec (set_metrics s1
              (record_step (metrics s) (position s1) (Battery.current (battery s1))
                           "move" (strategy s))))
    as (v & s'' & _ & Hclean' & Hp & Hb & _ & Hst & _ & _ & Hvis & _); [done|done|].
  assert (s'' = s') as -> by congruence.
  exists s'. split; [done|]. split; [done|].
  split; [rewrite Hp; exact Hpos|]. split; [rewrite Hb; exact Hbat|].
  split; [rewrite Hst; exact Hs|].
  rewrite Hvis.
  change ({[position s1]} ∪ visited s1 = {[position s]} ∪ visited s).
  by rewrite Hpos, Hv.
Qed.

(** X20.  An "optimized" agent whose battery level is above 20 and below
    30 never moves.  For any number of steps and any draws, every step
    returns, and the agent is where it was with the battery it had: in
    this range the strategy only plans paths, and nothing ever drains or
    charges the battery to take it out of the range. *)
Theorem optimized_agent_frozen (ds : list cell) (s : VaccumCleaner) :
  agent_inv s -> strategy s = "optimized" ->
  20 < Battery.current (battery s) < 30 ->
  exists s', run_steps ds s = Ok s' /\
    position s' = position s /\ battery s' = battery s /\
    (ds <> [] -> visited s' = {[position s]} ∪ visited s).
Proof.
  revert s. induction ds as [|d ds IH]; intros s Hinv Hstrat Hlevel.
  - exists s. by repeat split.
  - destruct (step_conserves d s Hinv Hstrat Hlevel)
      as (s1 & Hs1 & Hinv1 & Hpos & Hbat & Hst & Hvis).
    destruct (IH s1 Hinv1) as (s' & Hs' & Hpos' & Hbat' & Hvis');
      [congruence | by rewrite Hbat |].
    exists s'. cbn [run_steps]. rewrite Hs1. cbn [mbind result_bind].
    split; [done|]. split; [congruence|]. split; [congruence|].
    intros _. destruct ds as [|d' ds'].
    + simpl in Hs'. injection Hs' as <-. done.
    + rewrite Hvis' by done. rewrite Hvis, Hpos.
      apply set_eq. intros c. rewrite !elem_of_union. tauto.
Qed.

Lemma optimized_agent_frozen_witness :
  exists s', run_steps [(0, 1); (0, 1); (1, 0)] (sample_agent "optimized" 25) = Ok s' /\
    position s' = (0, 0) /\ battery s' = Battery.mk 100 25 1 5 75 0 /\
    ([(0, 1); (0, 1); (1, 0)] <> [] -> visited s' = {[(0, 0)]} ∪ ∅).
Proof.
  apply (optimized_agent_frozen [(0, 1); (0, 1); (1, 0)] (sample_agent "optimized" 25)).
  - apply sample_agent_inv.
  - reflexivity.
  - simpl. lia.
Defined.
